(** * tiktok_knn: K-nearest-neighbour engagement prediction

    A shallow embedding of [src/tiktok_knn.cpp] and the properties of its
    loader, its Jaccard distance, its top-K selection and its aggregation.

    Conventions of the embedding:
    - [std::string] is [string]; [std::unordered_set<std::string>] is
      [gset string]; [std::vector<T>] is [list T] with checked lookup [!!].
    - [int] and [long long] are [Z] with the two's-complement wrap-around
      written out ([wrap_int], [wrap_ll]); [size_t] is [Z] modulo [2^64].
    - [float] is IEEE-754 binary32, taken from the Standard Library's
      [SpecFloat] at precision 24 and maximal exponent 128, every operation
      rounded to nearest, ties to even.
    - uncaught exceptions and undefined behaviour end the run abnormally;
      they are the [Throw] outcomes of the [res] monad. *)

From Stdlib Require Import ZArith Lia Ascii String.
From Stdlib Require Import Floats.SpecFloat.
From stdpp Require Import base numbers list sorting strings gmap sets.
From stdpp Require Import pretty.

(** ** Characters and strings *)

Definition isdigit (c : ascii) : bool :=
  let n := nat_of_ascii c in (48 <=? n)%nat && (n <=? 57)%nat.

(** [std::isspace] in the "C" locale: space, and the controls 9 to 13. *)
Definition isspace (c : ascii) : bool :=
  let n := nat_of_ascii c in (n =? 32)%nat || ((9 <=? n)%nat && (n <=? 13)%nat).

Definition digit_value (c : ascii) : Z := Z.of_nat (nat_of_ascii c) - 48.

(** One call of [std::getline(stream, buf, delim)] on a stream whose unread
    part is [s]: characters are extracted up to the delimiter, which is
    consumed and not stored, or up to the end of the stream. *)
Fixpoint read_until (delim : ascii) (s : string) : string * string :=
  match s with
  | EmptyString => (EmptyString, EmptyString)
  | String c s' =>
      if Ascii.eqb c delim then (EmptyString, s')
      else let '(buf, rest) := read_until delim s' in (String c buf, rest)
  end.

(** The call fails (the stream converts to false) exactly when nothing is
    left to extract. *)
Definition getline (delim : ascii) (s : string) : option (string * string) :=
  match s with
  | EmptyString => None
  | _ => Some (read_until delim s)
  end.

(** [while (std::getline(stream, buf, delim)) ...]: the successive values of
    [buf]. *)
Fixpoint getlines (delim : ascii) (s : string) : list string :=
  match s with
  | EmptyString => []
  | String c s' =>
      if Ascii.eqb c delim then EmptyString :: getlines delim s'
      else match getlines delim s' with
           | [] => [String c EmptyString]
           | buf :: bufs => String c buf :: bufs
           end
  end.

(** [split]: the non-empty substrings between delimiters. *)
Definition split (s : string) (delim : ascii) : list string :=
  filter (λ buf, buf ≠ EmptyString) (getlines delim s).

(** ** Machine integers *)

Definition INT_MAX : Z := 2147483647.
Definition LLONG_MAX : Z := 9223372036854775807.
Definition LLONG_MIN : Z := -9223372036854775808.
Definition SIZE_MOD : Z := 18446744073709551616.

Definition wrap_int (z : Z) : Z := (z + 2147483648) mod 4294967296 - 2147483648.
Definition wrap_ll (z : Z) : Z :=
  (z + 9223372036854775808) mod 18446744073709551616 - 9223372036854775808.
Definition wrap_size (z : Z) : Z := z mod SIZE_MOD.

Definition in_ll (z : Z) : Prop := (LLONG_MIN ≤ z ≤ LLONG_MAX)%Z.

(** ** Abnormal termination *)

Inductive exn :=
  | invalid_argument   (* thrown by [std::stoll]: no digits *)
  | out_of_range       (* thrown by [std::stoll]: value does not fit *)
  | bad_index          (* [operator[]] or an iterator outside its vector *)
  | division_by_zero.

Inductive res (A : Type) :=
  | Ok (a : A)
  | Throw (e : exn).
Arguments Ok {A} a.
Arguments Throw {A} e.

Global Instance res_ret : MRet res := λ A a, Ok a.
Global Instance res_bind : MBind res := λ A B k m,
  match m with
  | Ok a => k a
  | Throw e => Throw e
  end.

Definition at_index {A} (l : list A) (i : nat) : res A :=
  match l !! i with
  | Some a => Ok a
  | None => Throw bad_index
  end.

(** ** [std::stoll] *)

Fixpoint skip_space (s : string) : string :=
  match s with
  | String c s' => if isspace c then skip_space s' else s
  | EmptyString => EmptyString
  end.

Fixpoint digits_value (s : string) (acc : Z) : Z :=
  match s with
  | String c s' => if isdigit c then digits_value s' (acc * 10 + digit_value c)%Z else acc
  | EmptyString => acc
  end.

Definition starts_with_digit (s : string) : bool :=
  match s with
  | String c _ => isdigit c
  | EmptyString => false
  end.

(** Leading white space, an optional sign, then the longest run of decimal
    digits; what follows the digits is ignored. *)
Definition stoll (s : string) : res Z :=
  let s1 := skip_space s in
  let '(neg, s2) :=
    match s1 with
    | String "-"%char r => (true, r)
    | String "+"%char r => (false, r)
    | _ => (false, s1)
    end in
  if starts_with_digit s2 then
    let v := digits_value s2 0 in
    let v := if neg : bool then (- v)%Z else v in
    if (LLONG_MIN <=? v)%Z && (v <=? LLONG_MAX)%Z then Ok v else Throw out_of_range
  else Throw invalid_argument.

(** ** The data model *)

Module Rec.
Record t := mk {
  id : string;
  tags : gset string;
  views : Z;
  likes : Z;
  comments : Z
}.
End Rec.

Module Node.
Record t := mk {
  dist : spec_float;
  idx : nat
}.
End Node.

(** ** 1) Load dataset *)

(** The body of the row loop for one line with at least five columns. *)
Definition parse_row (cols : list string) : res Rec.t :=
  c0 ← at_index cols 0;
  c1 ← at_index cols 1;
  c2 ← at_index cols 2;
  c3 ← at_index cols 3;
  c4 ← at_index cols 4;
  v ← stoll c2;
  l ← stoll c3;
  c ← stoll c4;
  Ok (Rec.mk c0 (list_to_set (split c1 ";"%char)) v l c).

(** A line takes part in the dataset when it is not empty and splits into at
    least five columns. *)
Definition usable (line : string) : bool :=
  negb (String.eqb line EmptyString) && (5 <=? length (split line ","%char))%nat.

(** The row loop over the lines still to be read; the records are listed in
    the order of [push_back]. *)
Fixpoint parse_rows (lines : list string) : res (list Rec.t) :=
  match lines with
  | [] => Ok []
  | line :: rest =>
      if String.eqb line EmptyString then parse_rows rest
      else
        let cols := split line ","%char in
        if (length cols <? 5)%nat then parse_rows rest
        else
          r ← parse_row cols;
          videos ← parse_rows rest;
          Ok (r :: videos)
  end.

Definition newline : ascii := "010"%char.

(** The header test of line 65 on the first line read. *)
Definition is_header (line : string) : bool :=
  match line with
  | EmptyString => false
  | String c _ => negb (isdigit c)
  end.

(** What the row loop reads: the rest of the stream after a header, the whole
    stream again after [seekg(0)] otherwise. A first [getline] that fails
    leaves [line] empty and nothing to read. *)
Definition data_part (content : string) : string :=
  match getline newline content with
  | Some (line, rest) => if is_header line then rest else content
  | None => content
  end.

Definition header_skipped (content : string) : bool :=
  match getline newline content with
  | Some (line, _) => is_header line
  | None => false
  end.

Definition first_line (content : string) : string :=
  match getline newline content with
  | Some (line, _) => line
  | None => EmptyString
  end.

Inductive failure :=
  | usage                  (* line 41 *)
  | K_must_be_positive     (* line 48 *)
  | cannot_open_dataset    (* line 56 *)
  | dataset_empty          (* line 86 *)
  | no_query_tag.          (* line 95 *)

(** The error taxonomy of the specification. *)
Inductive error_kind := InvalidArgument | LoadError.

Definition kind_of (f : failure) : error_kind :=
  match f with
  | usage | K_must_be_positive | no_query_tag => InvalidArgument
  | cannot_open_dataset | dataset_empty => LoadError
  end.

Inductive load_result :=
  | Loaded (videos : list Rec.t)
  | LoadFailed (f : failure)
  | LoadThrew (e : exn).

(** Lines 54-88; [None] is a source that cannot be opened. *)
Definition load_dataset (file : option string) : load_result :=
  match file with
  | None => LoadFailed cannot_open_dataset
  | Some content =>
      match parse_rows (getlines newline (data_part content)) with
      | Throw e => LoadThrew e
      | Ok [] => LoadFailed dataset_empty
      | Ok videos => Loaded videos
      end
  end.

(** ** 2) and 3): the Jaccard distance *)

Definition prec : Z := 24.
Definition emax : Z := 128.

Definition f_zero : spec_float := S754_zero false.            (* [0.f] *)
Definition f_one : spec_float := S754_finite false 8388608 (-23).  (* [1.f] *)

(** [static_cast<float>] of a [size_t]. *)
Definition float_of_size (n : Z) : spec_float := binary_normalize prec emax n 0 false.

Definition fdiv : spec_float → spec_float → spec_float := SFdiv prec emax.
Definition fsub : spec_float → spec_float → spec_float := SFsub prec emax.

(** [B.count(t)] *)
Definition count (B : gset string) (t : string) : Z :=
  if decide (t ∈ B) then 1%Z else 0%Z.

(** The loop of line 33, over the elements of [A] in iteration order. *)
Definition intersection_size (A B : gset string) : Z :=
  foldl (λ inter t, if decide (count B t ≠ 0%Z) then wrap_size (inter + 1) else inter)
        0%Z (elements A).

Definition jaccard_value (inter uni : Z) : spec_float :=
  fsub f_one (fdiv (float_of_size inter) (float_of_size uni)).

Definition jaccard (A B : gset string) : spec_float :=
  if decide (A = ∅ ∧ B = ∅) then f_zero
  else
    let inter := intersection_size A B in
    let uni := wrap_size (Z.of_nat (size A) + Z.of_nat (size B) - inter) in
    jaccard_value inter uni.

Definition computeNeighbors (videos : list Rec.t) (qTags : gset string) : list Node.t :=
  imap (λ i v, Node.mk (jaccard qTags (Rec.tags v)) i) videos.

(** ** Selection of the K nearest *)

(** The comparison passed to both algorithms. *)
Definition cmp (a b : Node.t) : bool := SFltb (Node.dist a) (Node.dist b).

(** [a.dist < b.dist] is a strict weak ordering, as both algorithms require,
    on vectors without NaN. *)
Definition no_nan (v : list Node.t) : Prop :=
  Forall (λ n, Node.dist n ≠ S754_nan) v.

(** [std::nth_element(v.begin(), v.begin() + k, v.end(), cmp)] and
    [std::sort(v.begin(), v.begin() + k, cmp)] with the effects the C++
    standard gives them; the order among equivalent elements is left to the
    implementation. *)
Record StdAlgorithm := {
  std_nth_element : nat → list Node.t → list Node.t;
  std_sort : nat → list Node.t → list Node.t;
  nth_element_Permutation k v :
    no_nan v → (k ≤ length v)%nat → std_nth_element k v ≡ₚ v;
  nth_element_partition k v i j a b :
    no_nan v → (k < length v)%nat → (i < k)%nat → (k ≤ j)%nat →
    std_nth_element k v !! i = Some a → std_nth_element k v !! j = Some b →
    cmp b a = false;
  sort_Permutation k v :
    no_nan (take k v) → (k ≤ length v)%nat → take k (std_sort k v) ≡ₚ take k v;
  sort_rest k v :
    no_nan (take k v) → (k ≤ length v)%nat → drop k (std_sort k v) = drop k v;
  sort_sorted k v i j a b :
    no_nan (take k v) → (k ≤ length v)%nat → (i < j)%nat → (j < k)%nat →
    std_sort k v !! i = Some a → std_sort k v !! j = Some b →
    cmp b a = false
}.

(** Line 109. *)
Definition clamp (K : Z) (size : nat) : Z :=
  let n := wrap_int (Z.of_nat size) in
  if (K >? n)%Z then n else K.

(** Lines 109-116: the clamped K and the vector after both algorithms.
    [begin() + K] outside the vector is undefined. *)
Definition select (alg : StdAlgorithm) (K : Z) (nbrs : list Node.t)
  : res (Z * list Node.t) :=
  let K := clamp K (length nbrs) in
  if (K <? 0)%Z || (Z.of_nat (length nbrs) <? K)%Z then Throw bad_index
  else
    let k := Z.to_nat K in
    Ok (K, std_sort alg k (std_nth_element alg k nbrs)).

(** [selectTopK] of the specification: the first K neighbours. *)
Definition selectTopK (alg : StdAlgorithm) (K : Z) (nbrs : list Node.t)
  : res (list Node.t) :=
  '(K, nbrs) ← select alg K nbrs;
  Ok (take (Z.to_nat K) nbrs).

(** ** 4) Aggregation *)

(** The loop of lines 121-126, [todo] iterations from index [i]. *)
Fixpoint sum_loop (videos : list Rec.t) (nbrs : list Node.t) (todo i : nat)
    (sums : Z * Z * Z) : res (Z * Z * Z) :=
  match todo with
  | O => Ok sums
  | S todo =>
      n ← at_index nbrs i;
      v ← at_index videos (Node.idx n);
      let '(sumViews, sumLikes, sumComments) := sums in
      sum_loop videos nbrs todo (S i)
        (wrap_ll (sumViews + Rec.views v),
         wrap_ll (sumLikes + Rec.likes v),
         wrap_ll (sumComments + Rec.comments v))
  end.

(** [long long / int]: truncating division. *)
Definition ll_div (a K : Z) : res Z :=
  if (K =? 0)%Z then Throw division_by_zero else Ok (wrap_ll (a ÷ K)).

Definition aggregate (videos : list Rec.t) (nbrs : list Node.t) (K : Z)
  : res (Z * Z * Z) :=
  '(sumViews, sumLikes, sumComments) ← sum_loop videos nbrs (Z.to_nat K) 0 (0, 0, 0)%Z;
  pViews ← ll_div sumViews K;
  pLikes ← ll_div sumLikes K;
  pComments ← ll_div sumComments K;
  Ok (pViews, pLikes, pComments).

(** ** 5) Output *)

Inductive out_item :=
  | Predicted (pViews pLikes pComments : Z)
  | TopHeader (K : Z)
  | Neighbour (rank : Z) (id : string) (dist : spec_float) (views likes comments : Z).

Inductive ending :=
  | Returned (status : Z)
  | Terminated (e : exn).

Record run := {
  ended : ending;
  stdout : list out_item;
  stderr : option failure
}.

Definition fail (f : failure) : run := Build_run (Returned 1) [] (Some f).

(** The loop of lines 138-145; what was written stays written when an access
    faults. *)
Fixpoint report_loop (videos : list Rec.t) (nbrs : list Node.t) (todo i : nat)
  : list out_item * option exn :=
  match todo with
  | O => ([], None)
  | S todo =>
      match (n ← at_index nbrs i; v ← at_index videos (Node.idx n); Ok (n, v)) with
      | Throw e => ([], Some e)
      | Ok (n, v) =>
          let '(out, e) := report_loop videos nbrs todo (S i) in
          (Neighbour (Z.of_nat i + 1) (Rec.id v) (Node.dist n)
                     (Rec.views v) (Rec.likes v) (Rec.comments v) :: out, e)
      end
  end.

(** Steps 3 to 5 on a loaded dataset and a parsed query. *)
Definition knn (alg : StdAlgorithm) (K : Z) (videos : list Rec.t) (qTags : gset string)
  : run :=
  let nbrs := computeNeighbors videos qTags in
  match select alg K nbrs with
  | Throw e => Build_run (Terminated e) [] None
  | Ok (K, nbrs) =>
      match aggregate videos nbrs K with
      | Throw e => Build_run (Terminated e) [] None
      | Ok (pViews, pLikes, pComments) =>
          let '(lines, e) := report_loop videos nbrs (Z.to_nat K) 0 in
          Build_run (match e with Some e => Terminated e | None => Returned 0 end)
                    (Predicted pViews pLikes pComments :: TopHeader K :: lines)
                    None
      end
  end.

(** [std::atoi]: [strtol] narrowed to [int]; no digits give 0. *)
Definition atoi (s : string) : Z :=
  let s1 := skip_space s in
  let '(neg, s2) :=
    match s1 with
    | String "-"%char r => (true, r)
    | String "+"%char r => (false, r)
    | _ => (false, s1)
    end in
  let v := digits_value s2 0 in
  let v := if neg : bool then (- v)%Z else v in
  wrap_int (Z.max LLONG_MIN (Z.min v LLONG_MAX)).

(** [main]: [fs] maps a path to the content of the file, [None] when it
    cannot be opened. *)
Definition main (alg : StdAlgorithm) (fs : string → option string) (argv : list string)
  : run :=
  match argv with
  | [_; arg1; arg2; arg3] =>
      let K := atoi arg1 in
      if (K <=? 0)%Z then fail K_must_be_positive
      else
        match load_dataset (fs arg2) with
        | LoadFailed f => fail f
        | LoadThrew e => Build_run (Terminated e) [] None
        | Loaded videos =>
            let qTags : gset string := list_to_set (split arg3 ";"%char) in
            if decide (qTags = ∅) then fail no_query_tag
            else knn alg K videos qTags
        end
  | _ => fail usage
  end.

(** ** A reference implementation of the two algorithms *)

Fixpoint insert_sorted (a : Node.t) (v : list Node.t) : list Node.t :=
  match v with
  | [] => [a]
  | b :: v' => if cmp a b then a :: v else b :: insert_sorted a v'
  end.

Definition insertion_sort (v : list Node.t) : list Node.t := foldr insert_sorted [] v.

Definition ref_nth_element (k : nat) (v : list Node.t) : list Node.t :=
  if (k =? length v)%nat then v else insertion_sort v.

Definition ref_sort (k : nat) (v : list Node.t) : list Node.t :=
  insertion_sort (take k v) ++ drop k v.

(** * Vocabulary of the properties *)

(** The rows of a file that pass the filter of the row loop. *)
Definition usable_rows (content : string) : list string :=
  filter (λ line, usable line = true) (getlines newline (data_part content)).

(** [contains delim s]: the delimiter occurs in [s]. *)
Fixpoint contains (delim : ascii) (s : string) : bool :=
  match s with
  | EmptyString => false
  | String c s' => Ascii.eqb c delim || contains delim s'
  end.

(** [dist_le a b]: [b] is not before [a] in the order of the comparison. *)
Definition dist_le (a b : Node.t) : Prop := cmp b a = false.

(** Ascending order of the distances. *)
Definition ascending (v : list Node.t) : Prop :=
  StronglySorted (λ a b, SFleb (Node.dist a) (Node.dist b) = true) v.

(** A float with the sign of zero dropped: equal numbers, equal terms. *)
Definition canon (x : spec_float) : spec_float :=
  match x with
  | S754_zero _ => S754_zero false
  | _ => x
  end.

(** All the distances of a vector, in ascending order. *)
Definition ascending_distances (v : list Node.t) : list spec_float :=
  Node.dist <$> insertion_sort v.

(** [x] is the normal binary32 number of value [n]. *)
Definition represents (x : spec_float) (n : Z) : Prop :=
  ∃ m e, x = S754_finite false m e ∧ Zdigits2 (Z.pos m) = 24%Z ∧ (-23 ≤ e ≤ 1)%Z
         ∧ (Z.pos m * 2 ^ (e + 23) = n * 2 ^ 23)%Z.

(** [rne m N]: the integer [m] without its [N] low digits, rounded to the
    nearest, ties to even. *)
Definition rne (m N : Z) : Z :=
  let m1 := (m / 2 ^ N)%Z in
  let rem := (m mod 2 ^ N)%Z in
  if (2 * rem <? 2 ^ N)%Z then m1
  else if (2 ^ N <? 2 * rem)%Z then (m1 + 1)%Z
  else if Z.even m1 then m1 else (m1 + 1)%Z.

(** The sizes of the sets at hand are [size_t] values. *)
Definition sizes_fit (videos : list Rec.t) (qTags : gset string) : Prop :=
  Forall (λ v, (Z.of_nat (size (qTags ∪ Rec.tags v)) < SIZE_MOD)%Z) videos.

(** The sum of one metric over a list of records. *)
Definition total (f : Rec.t → Z) (rs : list Rec.t) : Z :=
  foldr (λ r acc, (f r + acc)%Z) 0%Z rs.

Definition non_negative (r : Rec.t) : Prop :=
  (0 ≤ Rec.views r)%Z ∧ (0 ≤ Rec.likes r)%Z ∧ (0 ≤ Rec.comments r)%Z.

(** ** Inputs of the examples *)

Definition f_half : spec_float := S754_finite false 8388608 (-24).   (* 0.5 *)

(** The dataset of the scenario of the specification. *)
Definition scenario : list Rec.t :=
  [ Rec.mk "A" {[ "cat"; "dance" ]} 100 10 1;
    Rec.mk "B" {[ "cat" ]} 200 20 2;
    Rec.mk "C" {[ "dog" ]} 50 5 0 ]%string%Z.

(** Its neighbours for the query [{cat}]. *)
Definition three_neighbours : list Node.t :=
  [Node.mk f_half 0; Node.mk f_zero 1; Node.mk f_one 2].

(** A vector of [n] neighbours at distance 0. *)
Definition uniform_neighbours (n : nat) : list Node.t := replicate n (Node.mk f_zero 0).

(** Tags "t", "xt", "xxt", ... and the set of the first [n] of them. *)
Fixpoint tag (k : nat) : string :=
  match k with
  | O => "t"
  | S k => String "x" (tag k)
  end.

Definition tag_set (n : nat) : gset string := list_to_set (tag <$> seq 0 n).

(** Two records of 2^62 views each, and their neighbours. *)
Definition two_popular : list Rec.t :=
  [ Rec.mk "1" {[ "cat" ]} 4611686018427387904 0 0;
    Rec.mk "2" {[ "cat" ]} 4611686018427387904 0 0 ]%string%Z.

Definition two_neighbours : list Node.t := [Node.mk f_zero 0; Node.mk f_zero 1].

(** A row with an empty second field, and the record it loads as. *)
Definition shifted_row : string := "7,,a;b,10,20,30".

Definition shifted_record : Rec.t :=
  Rec.mk "7" (list_to_set ["a"; "b"]%string) 10 20 30.

(** ** Vocabulary of the further properties *)

(** The fields of [s] between delimiters, the empty ones and the last one
    included. *)
Fixpoint fields (delim : ascii) (s : string) : list string :=
  match s with
  | EmptyString => [EmptyString]
  | String c s' =>
      if Ascii.eqb c delim then EmptyString :: fields delim s'
      else match fields delim s' with
           | [] => [String c EmptyString]
           | f :: fs => String c f :: fs
           end
  end.

(** [s] with every occurrence of the delimiter removed. *)
Fixpoint without (delim : ascii) (s : string) : string :=
  match s with
  | EmptyString => EmptyString
  | String c s' =>
      if Ascii.eqb c delim then without delim s' else String c (without delim s')
  end.

(** A row to be written to a dataset file: the tags in the order they are
    written. *)
Module Entry.
Record t := mk {
  id : string;
  tags : list string;
  views : Z;
  likes : Z;
  comments : Z
}.
End Entry.

(** The row of the file: [id,tag1;tag2;...,views,likes,comments]. *)
Definition csv_row (x : Entry.t) : string :=
  String.concat ","
    [ Entry.id x; String.concat ";" (Entry.tags x);
      pretty (Entry.views x); pretty (Entry.likes x); pretty (Entry.comments x) ].

(** A file: a header line and one line per row. *)
Definition csv_file (header : string) (xs : list Entry.t) : string :=
  header +:+ String newline (String.concat (String newline EmptyString) (csv_row <$> xs)).

Definition record_of (x : Entry.t) : Rec.t :=
  Rec.mk (Entry.id x) (list_to_set (Entry.tags x))
         (Entry.views x) (Entry.likes x) (Entry.comments x).

(** What can be written and read back: an identifier and at least one tag,
    none of them empty or holding a separator, and metrics in [long long]. *)
Definition writable (x : Entry.t) : Prop :=
  Entry.id x ≠ EmptyString
  ∧ contains "," (Entry.id x) = false ∧ contains newline (Entry.id x) = false
  ∧ Entry.tags x ≠ []
  ∧ Forall (λ t, t ≠ EmptyString ∧ contains "," t = false ∧ contains ";" t = false
                 ∧ contains newline t = false) (Entry.tags x)
  ∧ in_ll (Entry.views x) ∧ in_ll (Entry.likes x) ∧ in_ll (Entry.comments x).

(** A dataset of two rows. *)
Definition two_rows : list Entry.t :=
  [ Entry.mk "1" ["cat"; "dance"] 100 10 1; Entry.mk "2" ["dog"] (-5) 0 7 ]%string%Z.

(** No two neighbours of the vector are at the same distance. *)
Definition no_ties (v : list Node.t) : Prop :=
  ∀ i j a b, v !! i = Some a → v !! j = Some b → i ≠ j →
             SFeqb (Node.dist a) (Node.dist b) = false.

(** A second implementation of [std::nth_element]: the reference one on the
    vector read backwards. *)
Definition alt_nth_element (k : nat) (v : list Node.t) : list Node.t :=
  ref_nth_element k (reverse v).

(** The records that the neighbours of [l] point to. *)
Definition records_of (videos : list Rec.t) (l : list Node.t) : list Rec.t :=
  omap (λ n, videos !! Node.idx n) l.

(** Two records, one of them with a negative metric. *)
Definition two_mixed : list Rec.t :=
  [ Rec.mk "1" {[ "cat" ]} (-3) 7 0; Rec.mk "2" {[ "cat" ]} 0 2 0 ]%string%Z.

(** The line of the report for the neighbour [n] at position [i], which
    points to the record [r]. *)
Definition report_line (i : nat) (n : Node.t) (r : Rec.t) : out_item :=
  Neighbour (Z.of_nat i + 1) (Rec.id r) (Node.dist n)
            (Rec.views r) (Rec.likes r) (Rec.comments r).

(** The carriage return that ends a line of a file with CRLF line ends. *)
Definition carriage_return : string := String "013" EmptyString.

(** [rne_ratio N D]: the quotient [N / D] rounded to the nearest integer,
    ties to even. *)
Definition rne_ratio (N D : Z) : Z :=
  let q := (N / D)%Z in
  let rem := (N mod D)%Z in
  if (2 * rem <? D)%Z then q
  else if (D <? 2 * rem)%Z then (q + 1)%Z
  else if Z.even q then q else (q + 1)%Z.

(** The float of mantissa [mr], a 24-digit one or [2^24], at the exponent
    [b]. *)
Definition float_at (b mr : Z) : spec_float :=
  if (mr =? 2 ^ 24)%Z then S754_finite false (2 ^ 23)%positive (b + 1)
  else S754_finite false (Z.to_pos mr) b.

(** [x] is the positive rational [p / q] rounded to the nearest float, ties
    to even. *)
Definition rounding_of (x : spec_float) (p q : Z) : Prop :=
  ∃ b N D,
    (-200 ≤ b ≤ 100)%Z ∧ (0 < D)%Z ∧ (2 ^ 23 * D ≤ N < 2 ^ 24 * D)%Z
    ∧ (N * 2 ^ (b + 200) * q = D * p * 2 ^ 200)%Z
    ∧ x = float_at b (rne_ratio N D).


(** * Properties *)

(** ** The model on small inputs *)

Example split_drops_empty :
  split "1,,a;b,10,20,30" ","%char = ["1"; "a;b"; "10"; "20"; "30"]%string.
Proof. vm_compute. reflexivity. Qed.

Example getlines_trailing_delimiter :
  getlines ";"%char ";a;;b;" = [""; "a"; ""; "b"]%string.
Proof. vm_compute. reflexivity. Qed.

Example stoll_examples :
  stoll "  -42abc" = Ok (-42)%Z ∧ stoll "abc" = Throw invalid_argument
  ∧ stoll "9223372036854775808" = Throw out_of_range.
Proof. vm_compute. auto. Qed.

Example atoi_examples :
  atoi "12" = 12%Z ∧ atoi "2x" = 2%Z ∧ atoi "x2" = 0%Z ∧ atoi " -7" = (-7)%Z.
Proof. vm_compute. auto. Qed.

(** 1 - 1/3 and 1 - 2/3 in binary32: 0.6666666269 and 0.3333333135. *)
Example jaccard_value_thirds :
  jaccard_value 1 3 = S754_finite false 11184810 (-24)
  ∧ jaccard_value 2 3 = S754_finite false 11184810 (-25).
Proof. vm_compute. auto. Qed.

(** ** The loader *)

Lemma getlines_unfold delim s :
  getlines delim s =
  match getline delim s with
  | None => []
  | Some (buf, rest) => buf :: getlines delim rest
  end.
Proof.
  induction s as [|c s IH]; [done|].
  cbn [getlines getline read_until].
  destruct (Ascii.eqb c delim); [done|].
  rewrite IH. destruct s as [|c' s']; [done|].
  cbn [getline]. by destruct (read_until delim (String c' s')).
Qed.

Lemma split_nonempty s delim : Forall (λ buf, buf ≠ EmptyString) (split s delim).
Proof. unfold split. apply Forall_forall. intros x Hx. by apply list_elem_of_filter in Hx as [? _]. Qed.

Lemma usable_spec line :
  usable line = true ↔ line ≠ EmptyString ∧ (5 ≤ length (split line ","%char))%nat.
Proof.
  unfold usable. rewrite andb_true_iff, negb_true_iff, Nat.leb_le.
  destruct (String.eqb_spec line EmptyString) as [->|Hne]; split; intros [? ?]; done.
Qed.

Lemma parse_rows_usable lines :
  parse_rows lines = parse_rows (filter (λ line, usable line = true) lines).
Proof.
  induction lines as [|line lines IH]; [done|].
  rewrite filter_cons. destruct (decide (usable line = true)) as [Hu|Hu].
  - apply usable_spec in Hu as [Hne Hlen]. cbn [parse_rows].
    destruct (String.eqb_spec line EmptyString); [done|].
    destruct (Nat.ltb_spec (length (split line ","%char)) 5); [lia|].
    by rewrite IH.
  - cbn [parse_rows]. destruct (String.eqb_spec line EmptyString); [done|].
    destruct (Nat.ltb_spec (length (split line ","%char)) 5); [done|].
    exfalso. apply Hu, usable_spec. split; [done|lia].
Qed.

(** On usable rows alone the loop either throws or yields one record per
    row. *)
Lemma parse_rows_all_usable lines videos :
  Forall (λ line, usable line = true) lines →
  parse_rows lines = Ok videos →
  Forall2 (λ line r, parse_row (split line ","%char) = Ok r) lines videos.
Proof.
  revert videos. induction lines as [|line lines IH]; intros videos Hall Hp.
  { cbn in Hp. injection Hp as <-. constructor. }
  apply Forall_cons in Hall as [Hu Hall]. apply usable_spec in Hu as [Hne Hlen].
  cbn [parse_rows] in Hp.
  destruct (String.eqb_spec line EmptyString); [done|].
  destruct (Nat.ltb_spec (length (split line ","%char)) 5); [lia|].
  destruct (parse_row (split line ","%char)) as [r|e] eqn:Hr; [|done].
  cbn in Hp. destruct (parse_rows lines) as [vs|e] eqn:Hvs; [|done].
  cbn in Hp. injection Hp as <-. constructor; [done|]. by apply IH.
Qed.

Lemma parse_rows_records content videos :
  parse_rows (getlines newline (data_part content)) = Ok videos →
  Forall2 (λ line r, parse_row (split line ","%char) = Ok r) (usable_rows content) videos.
Proof.
  rewrite parse_rows_usable. apply parse_rows_all_usable.
  apply Forall_forall. intros x Hx. by apply list_elem_of_filter in Hx as [? _].
Qed.

Lemma parse_rows_throw lines e :
  parse_rows lines = Throw e →
  ∃ line, line ∈ filter (λ line, usable line = true) lines
          ∧ parse_row (split line ","%char) = Throw e.
Proof.
  induction lines as [|line lines IH]; [done|]. cbn [parse_rows]. rewrite filter_cons.
  destruct (String.eqb_spec line EmptyString) as [->|Hne].
  { intros Hp. destruct (IH Hp) as (l & Hl & Hrow). exists l. split; [|done].
    by rewrite decide_False by done. }
  destruct (Nat.ltb_spec (length (split line ","%char)) 5) as [Hlen|Hlen].
  { intros Hp. destruct (IH Hp) as (l & Hl & Hrow). exists l. split; [|done].
    rewrite decide_False; [done|]. intros [_ ?]%usable_spec. lia. }
  rewrite decide_True by (apply usable_spec; split; [done|lia]).
  destruct (parse_row (split line ","%char)) as [r|e'] eqn:Hrow; cbn.
  - destruct (parse_rows lines) as [vs|e'] eqn:Hvs; [done|]. cbn. intros [= ->].
    destruct (IH eq_refl) as (l & Hl & Hl'). exists l. split; [by right|done].
  - intros [= ->]. exists line. split; [by left|done].
Qed.

Lemma parse_row_fields cols r :
  parse_row cols = Ok r →
  ∃ c0 c1 c2 c3 c4 rest,
    cols = c0 :: c1 :: c2 :: c3 :: c4 :: rest
    ∧ Rec.id r = c0
    ∧ Rec.tags r = list_to_set (split c1 ";"%char)
    ∧ stoll c2 = Ok (Rec.views r)
    ∧ stoll c3 = Ok (Rec.likes r)
    ∧ stoll c4 = Ok (Rec.comments r).
Proof.
  unfold parse_row, at_index.
  destruct cols as [|c0 [|c1 [|c2 [|c3 [|c4 cols]]]]]; try done.
  cbn. destruct (stoll c2) eqn:?; [|done]. destruct (stoll c3) eqn:?; [|done].
  destruct (stoll c4) eqn:?; [|done]. cbn. intros [= <-]. cbn.
  by exists c0, c1, c2, c3, c4, cols.
Qed.

Lemma getlines_field delim field :
  contains delim field = false →
  getlines delim field = if decide (field = EmptyString) then [] else [field].
Proof.
  induction field as [|c f IH]; [done|]. cbn [contains getlines].
  intros [Hc Hf]%orb_false_iff. rewrite Hc, (IH Hf).
  by destruct (decide (f = EmptyString)) as [->|].
Qed.

Lemma getlines_field_delim delim field rest :
  contains delim field = false →
  getlines delim (field +:+ String delim rest) = field :: getlines delim rest.
Proof.
  induction field as [|c f IH]; cbn [contains].
  - intros _. change (EmptyString +:+ String delim rest) with (String delim rest).
    cbn [getlines]. by rewrite Ascii.eqb_refl.
  - intros [Hc Hf]%orb_false_iff.
    change (String c f +:+ String delim rest) with (String c (f +:+ String delim rest)).
    cbn [getlines]. by rewrite Hc, (IH Hf).
Qed.

Lemma split_join delim fields :
  Forall (λ field, contains delim field = false) fields →
  split (String.concat (String delim EmptyString) fields) delim
  = filter (λ field, field ≠ EmptyString) fields.
Proof.
  unfold split. induction 1 as [|f fields Hf Hfs IH]; [done|].
  destruct fields as [|g fields].
  - cbn [String.concat]. rewrite (getlines_field _ _ Hf).
    destruct (decide (f = EmptyString)) as [->|Hne]; [done|].
    by rewrite !filter_cons, !decide_True.
  - change (String.concat (String delim EmptyString) (f :: g :: fields))
      with (f +:+ String delim (String.concat (String delim EmptyString) (g :: fields))).
    rewrite (getlines_field_delim _ _ _ Hf), !(filter_cons _ f), IH. done.
Qed.

Lemma first_line_head content :
  content ≠ EmptyString → head (getlines newline content) = Some (first_line content).
Proof.
  intros Hne. rewrite getlines_unfold. unfold first_line.
  destruct content; [done|]. cbn [getline].
  by destruct (read_until newline (String a content)).
Qed.

Lemma data_part_lines content :
  getlines newline (data_part content)
  = if header_skipped content then tail (getlines newline content)
    else getlines newline content.
Proof.
  unfold data_part, header_skipped. rewrite (getlines_unfold _ content).
  destruct (getline newline content) as [[line rest]|] eqn:Hg;
    [|by rewrite getlines_unfold, Hg].
  destruct (is_header line); [done|]. by rewrite getlines_unfold, Hg.
Qed.

Lemma is_header_spec line :
  is_header line = true ↔ ∃ c s, line = String c s ∧ isdigit c = false.
Proof.
  destruct line as [|c s]; cbn.
  - split; [done|]. by intros (? & ? & ? & ?).
  - rewrite negb_true_iff. split; [by exists c, s|]. by intros (? & ? & [= <- <-] & ?).
Qed.

(** C8. The loader skips the first line exactly when that line has a first
    character and it is not a digit; otherwise the row loop reads every line
    of the file, the first one included, so a first line that starts with a
    digit is never lost to header detection. *)
Theorem header_detection (content : string) :
  (header_skipped content = true ↔
     ∃ c s, first_line content = String c s ∧ isdigit c = false)
  ∧ getlines newline (data_part content)
    = (if header_skipped content then tail (getlines newline content)
       else getlines newline content)
  ∧ (content ≠ EmptyString →
     head (getlines newline content) = Some (first_line content))
  ∧ (∀ c s, first_line content = String c s → isdigit c = true →
     load_dataset (Some content)
     = match parse_rows (getlines newline content) with
       | Throw e => LoadThrew e
       | Ok [] => LoadFailed dataset_empty
       | Ok videos => Loaded videos
       end).
Proof.
  assert (Hskip : header_skipped content = is_header (first_line content)).
  { unfold header_skipped, first_line.
    by destruct (getline newline content) as [[line rest]|]. }
  split_and!.
  - rewrite Hskip. apply is_header_spec.
  - apply data_part_lines.
  - apply first_line_head.
  - intros c s Hfirst Hdigit. unfold load_dataset.
    rewrite data_part_lines, Hskip, Hfirst. cbn. by rewrite Hdigit.
Qed.

(** C7. Loading fails with a load error exactly when the source cannot be
    opened or no row of it is usable; every failure the loader reports is a
    load error; rows that are empty or have fewer than five columns do not
    change the result of the row loop, and the loaded records are one per
    usable row. The one other way out of the loader is the exception of
    [std::stoll] on a metric of a usable row, which no handler catches. A
    load error ends the run with status 1 and an empty report. *)
Theorem load_error_iff :
  (∀ file, (∃ f, load_dataset file = LoadFailed f) ↔
           (file = None ∨ ∃ content, file = Some content ∧ usable_rows content = []))
  ∧ (∀ file f, load_dataset file = LoadFailed f → kind_of f = LoadError)
  ∧ (∀ lines, parse_rows lines = parse_rows (filter (λ line, usable line = true) lines))
  ∧ (∀ content videos, load_dataset (Some content) = Loaded videos →
       Forall2 (λ line r, parse_row (split line ","%char) = Ok r)
               (usable_rows content) videos)
  ∧ (∀ file e, load_dataset file = LoadThrew e →
       ∃ content line, file = Some content ∧ line ∈ usable_rows content
                       ∧ parse_row (split line ","%char) = Throw e)
  ∧ (∀ alg fs prog arg1 arg2 arg3 f,
       (0 < atoi arg1)%Z → load_dataset (fs arg2) = LoadFailed f →
       main alg fs [prog; arg1; arg2; arg3] = Build_run (Returned 1) [] (Some f)).
Proof.
  split_and!.
  - intros [content|]; cbn [load_dataset]; [|by split; eauto].
    destruct (parse_rows (getlines newline (data_part content))) as [videos|e] eqn:Hp.
    + apply parse_rows_records in Hp. destruct videos as [|r videos].
      * apply Forall2_nil_inv_r in Hp. split; [|by eauto].
        intros _. right. by exists content.
      * split; [by intros [? ?]|]. intros [?|(c & [= <-] & Hnil)]; [done|].
        rewrite Hnil in Hp. by apply Forall2_nil_inv_l in Hp.
    + split; [by intros [? ?]|]. intros [?|(c & [= <-] & Hnil)]; [done|].
      rewrite parse_rows_usable in Hp. unfold usable_rows in Hnil.
      by rewrite Hnil in Hp.
  - intros [content|] f; cbn [load_dataset]; [|by intros [= <-]].
    destruct (parse_rows _) as [[|r videos]|e]; [|done..]. by intros [= <-].
  - apply parse_rows_usable.
  - intros content videos. cbn [load_dataset].
    destruct (parse_rows _) as [[|r vs]|e] eqn:Hp; [done| |done].
    intros [= <-]. by apply parse_rows_records.
  - intros [content|] e; cbn [load_dataset]; [|done].
    destruct (parse_rows _) as [[|r vs]|e'] eqn:Hp; [done..|].
    intros [= ->]. apply parse_rows_throw in Hp as (line & Hline & Hrow).
    by exists content, line.
  - intros alg fs prog arg1 arg2 arg3 f HK Hload. cbn [main]. rewrite Hload.
    by destruct (Z.leb_spec (atoi arg1) 0); [lia|].
Qed.

(** C10. Every loaded record comes from a line that splits into at least
    five columns, all of them non-empty, the first of which is its
    identifier: no loaded record has an empty identifier. The columns of a
    line are its non-empty fields in order, so that an empty field moves the
    later ones into earlier positions. *)
Theorem loaded_record_fields (file : option string) (videos : list Rec.t) (r : Rec.t) :
  load_dataset file = Loaded videos →
  r ∈ videos →
  Rec.id r ≠ EmptyString
  ∧ (∃ content line c0 c1 c2 c3 c4 rest,
       file = Some content
       ∧ line ∈ getlines newline (data_part content)
       ∧ split line ","%char = c0 :: c1 :: c2 :: c3 :: c4 :: rest
       ∧ Forall (λ col, col ≠ EmptyString) (c0 :: c1 :: c2 :: c3 :: c4 :: rest)
       ∧ Rec.id r = c0
       ∧ Rec.tags r = list_to_set (split c1 ";"%char)
       ∧ stoll c2 = Ok (Rec.views r)
       ∧ stoll c3 = Ok (Rec.likes r)
       ∧ stoll c4 = Ok (Rec.comments r))
  ∧ (∀ fields, Forall (λ field, contains ","%char field = false) fields →
       split (String.concat "," fields) ","%char
       = filter (λ field, field ≠ EmptyString) fields).
Proof.
  intros Hload Hr.
  assert (Hsrc : ∃ content line c0 c1 c2 c3 c4 rest,
       file = Some content
       ∧ line ∈ getlines newline (data_part content)
       ∧ split line ","%char = c0 :: c1 :: c2 :: c3 :: c4 :: rest
       ∧ Forall (λ col, col ≠ EmptyString) (c0 :: c1 :: c2 :: c3 :: c4 :: rest)
       ∧ Rec.id r = c0
       ∧ Rec.tags r = list_to_set (split c1 ";"%char)
       ∧ stoll c2 = Ok (Rec.views r)
       ∧ stoll c3 = Ok (Rec.likes r)
       ∧ stoll c4 = Ok (Rec.comments r)).
  { destruct file as [content|]; [|done].
    assert (Hall : Forall2 (λ line r, parse_row (split line ","%char) = Ok r)
                           (usable_rows content) videos).
    { revert Hload. cbn [load_dataset].
      destruct (parse_rows _) as [[|r' vs]|e] eqn:Hp; [done| |done].
      intros [= <-]. by apply parse_rows_records. }
    apply list_elem_of_lookup in Hr as [i Hi].
    destruct (Forall2_lookup_r _ _ _ _ _ Hall Hi) as (line & Hline & Hrow).
    apply parse_row_fields in Hrow as (c0 & c1 & c2 & c3 & c4 & rest & Hcols & Hrest).
    exists content, line, c0, c1, c2, c3, c4, rest. split_and!; try tauto.
    - apply list_elem_of_lookup_2 in Hline.
      by apply list_elem_of_filter in Hline as [_ ?].
    - rewrite <-Hcols. apply split_nonempty. }
  split_and!; [|done|apply split_join].
  destruct Hsrc as (? & ? & c0 & ? & ? & ? & ? & ? & _ & _ & _ & Hne & -> & _).
  by apply Forall_cons in Hne as [? _].
Qed.

(** ** The Jaccard distance: the integer part *)

Lemma count_loop (B : gset string) (l : list string) (acc : Z) :
  (0 ≤ acc < SIZE_MOD)%Z →
  foldl (λ inter t, if decide (count B t ≠ 0%Z) then wrap_size (inter + 1) else inter) acc l
  = wrap_size (acc + Z.of_nat (length (filter (λ t, t ∈ B) l))).
Proof.
  revert acc. induction l as [|t l IH]; intros acc Hacc; cbn [foldl].
  - cbn. unfold wrap_size. rewrite Z.add_0_r, Z.mod_small; lia.
  - rewrite filter_cons.
    assert (Hcount : count B t = if decide (t ∈ B) then 1%Z else 0%Z) by done.
    destruct (decide (t ∈ B)) as [Ht|Ht]; rewrite Hcount.
    + rewrite decide_True by done. rewrite IH.
      * unfold wrap_size. cbn [length]. rewrite Zplus_mod_idemp_l. f_equal. lia.
      * unfold wrap_size. apply Z.mod_pos_bound. done.
    + rewrite decide_False by (intros ?; done). by apply IH.
Qed.

Lemma intersection_size_spec (A B : gset string) :
  intersection_size A B = wrap_size (Z.of_nat (size (A ∩ B))).
Proof.
  unfold intersection_size. rewrite count_loop by (unfold SIZE_MOD; lia).
  f_equal. rewrite Z.add_0_l. f_equal.
  assert (A ∩ B = filter (λ t, t ∈ B) A) as -> by set_solver.
  unfold filter at 2, set_filter. rewrite size_list_to_set; [done|].
  apply NoDup_filter, NoDup_elements.
Qed.

(** C3. The Jaccard distance is symmetric in its two arguments. *)
Theorem jaccard_symmetric (A B : gset string) : jaccard A B = jaccard B A.
Proof.
  unfold jaccard. rewrite !intersection_size_spec, (comm_L (∩) B A).
  rewrite (Z.add_comm (Z.of_nat (size B))).
  destruct (decide (A = ∅ ∧ B = ∅)) as [[-> ->]|Hne].
  - by rewrite decide_True.
  - rewrite decide_False; [done|]. intros [? ?]. by apply Hne.
Qed.

(** ** The comparison of distances *)

Ltac compare_cases :=
  repeat match goal with
  | H : context [Pos.compare_cont Eq ?a ?b] |- _ =>
      change (Pos.compare_cont Eq a b) with (Pos.compare a b) in H
  | |- context [Pos.compare_cont Eq ?a ?b] =>
      change (Pos.compare_cont Eq a b) with (Pos.compare a b)
  end;
  repeat match goal with
  | H : context [Z.compare ?a ?b] |- _ => destruct (Z.compare_spec a b); cbn in H
  | |- context [Z.compare ?a ?b] => destruct (Z.compare_spec a b); cbn
  | H : context [Pos.compare ?a ?b] |- _ => destruct (Pos.compare_spec a b); cbn in H
  | |- context [Pos.compare ?a ?b] => destruct (Pos.compare_spec a b); cbn
  end;
  try done; try lia.

Lemma SFltb_irrefl x : SFltb x x = false.
Proof. unfold SFltb. destruct x as [[]|[]| |[] m e]; cbn; compare_cases. Qed.

Lemma SFltb_asym x y : SFltb x y = true → SFltb y x = false.
Proof.
  unfold SFltb.
  destruct x as [[]|[]| |[] mx ex], y as [[]|[]| |[] my ey]; cbn; try done;
    intros H; compare_cases.
Qed.

Lemma SFltb_trans x y z : SFltb x y = true → SFltb y z = true → SFltb x z = true.
Proof.
  unfold SFltb.
  destruct x as [[]|[]| |[] mx ex], y as [[]|[]| |[] my ey], z as [[]|[]| |[] mz ez];
    cbn; try done; intros H1 H2; compare_cases.
Qed.

Lemma SFltb_neg_trans x y z :
  y ≠ S754_nan → SFltb x y = false → SFltb y z = false → SFltb x z = false.
Proof.
  unfold SFltb.
  destruct x as [[]|[]| |[] mx ex], y as [[]|[]| |[] my ey], z as [[]|[]| |[] mz ez];
    cbn; try done; intros Hy H1 H2; compare_cases.
Qed.

Lemma SFleb_SFltb x y :
  x ≠ S754_nan → y ≠ S754_nan → SFleb x y = true ↔ SFltb y x = false.
Proof.
  unfold SFleb, SFltb.
  destruct x as [[]|[]| |[] mx ex], y as [[]|[]| |[] my ey];
    cbn; try done; intros Hx Hy; split; intros H; compare_cases.
Qed.

Lemma dist_le_SFleb a b :
  Node.dist a ≠ S754_nan → Node.dist b ≠ S754_nan →
  dist_le a b ↔ SFleb (Node.dist a) (Node.dist b) = true.
Proof. intros Ha Hb. unfold dist_le, cmp. by rewrite SFleb_SFltb. Qed.

Lemma dist_le_trans a b c :
  Node.dist b ≠ S754_nan → dist_le a b → dist_le b c → dist_le a c.
Proof. unfold dist_le, cmp. intros Hb Hab Hbc. by apply (SFltb_neg_trans _ (Node.dist b)). Qed.

Lemma no_nan_Permutation v w : v ≡ₚ w → no_nan v → no_nan w.
Proof. unfold no_nan. by intros ->. Qed.

Lemma sorted_lookup (v : list Node.t) i j a b :
  StronglySorted dist_le v → (i < j)%nat → v !! i = Some a → v !! j = Some b → dist_le a b.
Proof.
  intros Hs. revert i j. induction Hs as [|x v Hs IH Hx]; intros i j Hij Hi Hj; [done|].
  destruct j as [|j]; [lia|]. destruct i as [|i].
  - cbn in Hi, Hj. injection Hi as ->. rewrite Forall_forall in Hx.
    apply Hx. by eapply list_elem_of_lookup_2.
  - apply (IH i j); [lia|done..].
Qed.

Lemma sorted_of_lookup (v : list Node.t) :
  (∀ i j a b, (i < j)%nat → v !! i = Some a → v !! j = Some b → dist_le a b) →
  StronglySorted dist_le v.
Proof.
  induction v as [|x v IH]; intros H; constructor.
  - apply IH. intros i j a b Hij Hi Hj. apply (H (S i) (S j)); [lia|done..].
  - apply Forall_forall. intros b [j Hj]%list_elem_of_lookup.
    by apply (H 0%nat (S j)); [lia|..].
Qed.

(** *** The reference implementation meets the contract *)

Lemma insert_sorted_Permutation a v : insert_sorted a v ≡ₚ a :: v.
Proof.
  induction v as [|b v IH]; [done|]. cbn. destruct (cmp a b); [done|].
  by rewrite IH, Permutation_swap.
Qed.

Lemma insertion_sort_Permutation v : insertion_sort v ≡ₚ v.
Proof.
  induction v as [|a v IH]; [done|]. cbn.
  by rewrite insert_sorted_Permutation, IH.
Qed.

Lemma insert_sorted_sorted a v :
  no_nan v → StronglySorted dist_le v → StronglySorted dist_le (insert_sorted a v).
Proof.
  intros Hnan Hs. induction Hs as [|b v Hs IH Hb]; cbn.
  - repeat constructor.
  - apply Forall_cons in Hnan as [Hbn Hnan].
    destruct (cmp a b) eqn:Hab.
    + assert (Hba : dist_le a b) by (by apply SFltb_asym).
      constructor; [by constructor|]. constructor; [done|].
      eapply Forall_impl; [exact Hb|]. intros c Hbc. by apply (dist_le_trans a b c).
    + constructor; [by apply IH|].
      rewrite insert_sorted_Permutation. by constructor.
Qed.

Lemma insertion_sort_sorted v : no_nan v → StronglySorted dist_le (insertion_sort v).
Proof.
  induction v as [|a v IH]; intros Hnan; cbn; [constructor|].
  apply Forall_cons in Hnan as [Ha Hnan]. apply insert_sorted_sorted; [|by apply IH].
  by eapply no_nan_Permutation; [symmetry; apply insertion_sort_Permutation|].
Qed.

Lemma ref_nth_element_Permutation k v :
  no_nan v → (k ≤ length v)%nat → ref_nth_element k v ≡ₚ v.
Proof.
  intros _ _. unfold ref_nth_element.
  destruct (k =? length v)%nat; [done|apply insertion_sort_Permutation].
Qed.

Lemma ref_nth_element_partition k v i j a b :
  no_nan v → (k < length v)%nat → (i < k)%nat → (k ≤ j)%nat →
  ref_nth_element k v !! i = Some a → ref_nth_element k v !! j = Some b →
  cmp b a = false.
Proof.
  intros Hnan Hk Hi Hj. unfold ref_nth_element.
  destruct (Nat.eqb_spec k (length v)); [lia|].
  apply sorted_lookup; [by apply insertion_sort_sorted|lia].
Qed.

Lemma ref_sort_take k v : (k ≤ length v)%nat → take k (ref_sort k v) = insertion_sort (take k v).
Proof.
  intros Hk. unfold ref_sort. apply take_app_length'.
  rewrite (Permutation_length (insertion_sort_Permutation _)), length_take. lia.
Qed.

Lemma ref_sort_Permutation k v :
  no_nan (take k v) → (k ≤ length v)%nat → take k (ref_sort k v) ≡ₚ take k v.
Proof. intros _ Hk. rewrite ref_sort_take by done. apply insertion_sort_Permutation. Qed.

Lemma ref_sort_rest k v :
  no_nan (take k v) → (k ≤ length v)%nat → drop k (ref_sort k v) = drop k v.
Proof.
  intros _ Hk. unfold ref_sort. apply drop_app_length'.
  rewrite (Permutation_length (insertion_sort_Permutation _)), length_take. lia.
Qed.

Lemma ref_sort_sorted k v i j a b :
  no_nan (take k v) → (k ≤ length v)%nat → (i < j)%nat → (j < k)%nat →
  ref_sort k v !! i = Some a → ref_sort k v !! j = Some b →
  cmp b a = false.
Proof.
  intros Hnan Hk Hij Hj Hi Hjb.
  rewrite <-(lookup_take_lt _ k) in Hi, Hjb by lia.
  rewrite ref_sort_take in Hi, Hjb by done.
  by apply (sorted_lookup _ i j a b (insertion_sort_sorted _ Hnan)).
Qed.

Definition ref_alg : StdAlgorithm := {|
  std_nth_element := ref_nth_element;
  std_sort := ref_sort;
  nth_element_Permutation := ref_nth_element_Permutation;
  nth_element_partition := ref_nth_element_partition;
  sort_Permutation := ref_sort_Permutation;
  sort_rest := ref_sort_rest;
  sort_sorted := ref_sort_sorted
|}.

(** ** Binary32 arithmetic

    What rounding to nearest does to the three operations of the distance:
    the conversion of a size, the division and the subtraction from one. *)

Section binary32.
Local Open Scope Z_scope.

Lemma digits2_log2 p : Zpos (digits2_pos p) = Z.log2 (Zpos p) + 1.
Proof.
  induction p as [p IH|p IH|]; cbn [digits2_pos]; [| |done].
  - rewrite Pos2Z.inj_succ, IH.
    change (Z.pos p~1) with (2 * Z.pos p + 1). rewrite Z.log2_succ_double by lia. lia.
  - rewrite Pos2Z.inj_succ, IH.
    change (Z.pos p~0) with (2 * Z.pos p). rewrite Z.log2_double by lia. lia.
Qed.

Lemma Zdigits2_bounds m : 0 < m → 2 ^ (Zdigits2 m - 1) ≤ m < 2 ^ Zdigits2 m.
Proof.
  destruct m as [|p|p]; try lia. intros _. cbn [Zdigits2].
  rewrite digits2_log2. pose proof (Z.log2_spec (Z.pos p) ltac:(lia)) as H.
  replace (Z.log2 (Z.pos p) + 1 - 1) with (Z.log2 (Z.pos p)) by lia.
  replace (Z.log2 (Z.pos p) + 1) with (Z.succ (Z.log2 (Z.pos p))) by lia. done.
Qed.

Lemma Zdigits2_unique m d : 2 ^ (d - 1) ≤ m < 2 ^ d → 0 < m → Zdigits2 m = d.
Proof.
  intros Hb Hm. destruct m as [|p|p]; try lia. cbn [Zdigits2]. rewrite digits2_log2.
  assert (0 < d). { destruct (Z.lt_trichotomy d 0) as [?|[->|?]]; [|lia|done].
    rewrite (Z.pow_neg_r 2 d) in Hb by lia. lia. }
  pose proof (Z.log2_unique (Z.pos p) (d - 1) ltac:(lia)) as H1.
  replace (Z.succ (d - 1)) with d in H1 by lia. rewrite H1; [lia|done].
Qed.

Lemma iter_pos_nat {A} (f : A → A) p x : SpecFloat.iter_pos f p x = Nat.iter (Pos.to_nat p) f x.
Proof.
  revert x. induction p as [p IH|p IH|]; intros x; cbn [SpecFloat.iter_pos].
  - rewrite !IH, Pos2Nat.inj_xI, Nat.iter_succ_r.
    replace (2 * Pos.to_nat p)%nat with (Pos.to_nat p + Pos.to_nat p)%nat by lia.
    by rewrite Nat.iter_add.
  - rewrite !IH, Pos2Nat.inj_xO.
    replace (2 * Pos.to_nat p)%nat with (Pos.to_nat p + Pos.to_nat p)%nat by lia.
    by rewrite Nat.iter_add.
  - done.
Qed.

Lemma shr_1_spec m r s :
  0 ≤ m → shr_1 (Build_shr_record m r s) = Build_shr_record (m / 2) (Z.odd m) (r || s).
Proof.
  intros Hm. destruct m as [|[p|p|]|p]; try lia; cbn [shr_1]; try done.
  - f_equal. change (Z.pos p~1) with (2 * Z.pos p + 1). 
    rewrite Z.mul_comm, Z.div_add_l by lia. done.
  - f_equal. change (Z.pos p~0) with (2 * Z.pos p). 
    rewrite Z.mul_comm, Z.div_mul by lia. done.
Qed.

Lemma shr_iter n m r s :
  0 ≤ m →
  ∃ m' r' s',
    Nat.iter n shr_1 (Build_shr_record m r s) = Build_shr_record m' r' s'
    ∧ m' = m / 2 ^ Z.of_nat n
    ∧ (r' || s' = true → m mod 2 ^ Z.of_nat n ≠ 0 ∨ r || s = true).
Proof.
  intros Hm. induction n as [|n (m' & r' & s' & E & IHm & IHs)].
  - exists m, r, s. cbn. split_and!; [done|by rewrite Z.div_1_r|auto].
  - rewrite Nat.iter_succ, E, shr_1_spec by (subst m'; apply Z.div_pos; lia).
    eexists _, _, _. split; [done|].
    rewrite Nat2Z.inj_succ, Z.pow_succ_r by lia.
    split.
    + subst m'. rewrite Z.div_div by lia. f_equal. lia.
    + intros H. apply orb_true_iff in H as [Hodd|H].
      * left. intros H0. apply Z.mod_divide in H0; [|lia]. destruct H0 as [k Hk].
        subst m'. rewrite Hk in Hodd.
        replace (k * (2 * 2 ^ Z.of_nat n)) with ((2 * k) * 2 ^ Z.of_nat n) in Hodd by lia.
        rewrite Z.div_mul in Hodd by lia. by rewrite Z.odd_mul in Hodd.
      * destruct (IHs H) as [H0|?]; [left|by right].
        intros H1. apply H0. apply Z.mod_divide in H1; [|lia]. destruct H1 as [k Hk].
        apply Z.mod_divide; [lia|]. exists (2 * k). lia.
Qed.

Lemma shr_spec m l e n :
  0 ≤ m → 0 ≤ n →
  ∃ m' r' s',
    shr (shr_record_of_loc m l) e n = (Build_shr_record m' r' s', e + n)
    ∧ m' = m / 2 ^ n
    ∧ (r' || s' = true → m mod 2 ^ n ≠ 0 ∨ l ≠ loc_Exact).
Proof.
  intros Hm Hn.
  assert (Hl : ∃ r s, shr_record_of_loc m l = Build_shr_record m r s
                      ∧ (r || s = true → l ≠ loc_Exact)).
  { destruct l as [|[]]; cbn; eexists _, _; (split; [done|]); done. }
  destruct Hl as (r & s & -> & Hl).
  destruct n as [|p|p]; [| |lia].
  - exists m, r, s. cbn. rewrite Z.add_0_r, Z.div_1_r. auto.
  - cbn [shr]. rewrite iter_pos_nat.
    destruct (shr_iter (Pos.to_nat p) m r s Hm) as (m' & r' & s' & -> & Hm' & Hs').
    rewrite positive_nat_Z in Hm', Hs'. exists m', r', s'. split_and!; [done..|].
    intros H. destruct (Hs' H); auto.
Qed.

Lemma round_nearest_even_spec m r s :
  let mr := round_nearest_even m (loc_of_shr_record (Build_shr_record m r s)) in
  m ≤ mr ≤ m + 1 ∧ (mr = m + 1 → r || s = true).
Proof.
  destruct r, s; cbn; try destruct (Z.even m); split; try lia; try done.
Qed.

Lemma binary_round_aux_spec sx mx ex lx :
  0 < mx → 24 ≤ Zdigits2 mx → -149 ≤ Zdigits2 mx + ex - 24 ≤ 103 →
  ∃ mr,
    2 ^ 23 ≤ mx / 2 ^ (Zdigits2 mx - 24) < 2 ^ 24
    ∧ mx / 2 ^ (Zdigits2 mx - 24) ≤ mr ≤ mx / 2 ^ (Zdigits2 mx - 24) + 1
    ∧ (mr = mx / 2 ^ (Zdigits2 mx - 24) + 1 →
       mx mod 2 ^ (Zdigits2 mx - 24) ≠ 0 ∨ lx ≠ loc_Exact)
    ∧ binary_round_aux prec emax sx mx ex lx
      = if mr =? 2 ^ 24
        then S754_finite sx (2 ^ 23)%positive (ex + (Zdigits2 mx - 24) + 1)
        else S754_finite sx (Z.to_pos mr) (ex + (Zdigits2 mx - 24)).
Proof.
  intros Hm Hd He. set (n := Zdigits2 mx - 24) in *.
  pose proof (Zdigits2_bounds mx Hm) as Hb.
  assert (Hq : 2 ^ 23 ≤ mx / 2 ^ n < 2 ^ 24).
  { replace (Zdigits2 mx - 1) with (23 + n) in Hb by lia.
    replace (Zdigits2 mx) with (24 + n) in Hb by lia.
    rewrite !Z.pow_add_r in Hb by lia.
    assert (0 < 2 ^ n) by (apply Z.pow_pos_nonneg; lia).
    split; [apply Z.div_le_lower_bound; lia|apply Z.div_lt_upper_bound; lia]. }
  unfold binary_round_aux, shr_fexp, fexp, emin, prec, emax.
  replace (Z.max (Zdigits2 mx + ex - 24) (3 - 128 - 24) - ex) with n by lia.
  destruct (shr_spec mx lx ex n) as (m' & r' & s' & -> & Hm' & Hs'); [lia..|].
  cbn [shr_m]. pose proof (round_nearest_even_spec m' r' s') as [Hr1 Hr2].
  set (mr := round_nearest_even m' _) in *. exists mr. subst m'.
  split_and!; [lia..| |].
  - intros H. apply Hs'. apply Hr2. lia.
  - destruct (Z.eqb_spec mr (2 ^ 24)) as [->|Hne].
    + change (Zdigits2 (2 ^ 24)) with 25.
      replace (Z.max (25 + (ex + n) - 24) (3 - 128 - 24) - (ex + n)) with 1 by lia.
      cbn. destruct (Z.leb_spec (ex + n + 1) (128 - 24)); [done|lia].
    + assert (Zdigits2 mr = 24) as -> by (apply Zdigits2_unique; lia).
      replace (Z.max (24 + (ex + n) - 24) (3 - 128 - 24) - (ex + n)) with 0 by lia.
      cbn. destruct mr as [|p|p]; try lia. cbn.
      destruct (Z.leb_spec (ex + n) (128 - 24)); [done|lia].
Qed.

(** *** Rounding to nearest, ties to even *)

Ltac rne_cases :=
  repeat match goal with |- context [Z.ltb ?a ?b] => destruct (Z.ltb_spec a b) end;
  repeat match goal with |- context [Z.even ?a] => destruct (Z.even a) end.

Lemma rne_mono m m' N : 0 ≤ N → 0 ≤ m ≤ m' → rne m N ≤ rne m' N.
Proof.
  intros HN Hm. unfold rne.
  assert (HP : 0 < 2 ^ N) by (apply Z.pow_pos_nonneg; lia).
  pose proof (Z.div_mod m (2 ^ N) ltac:(lia)) as E1.
  pose proof (Z.div_mod m' (2 ^ N) ltac:(lia)) as E2.
  pose proof (Z.mod_pos_bound m (2 ^ N) HP) as B1.
  pose proof (Z.mod_pos_bound m' (2 ^ N) HP) as B2.
  assert (Hq : m / 2 ^ N ≤ m' / 2 ^ N) by (apply Z.div_le_mono; lia).
  destruct (decide (m / 2 ^ N = m' / 2 ^ N)) as [Heq|Hne].
  - rewrite <-Heq in *. assert (m mod 2 ^ N ≤ m' mod 2 ^ N) by lia.
    rne_cases; lia.
  - rne_cases; lia.
Qed.

Lemma rne_bounds m N : m / 2 ^ N ≤ rne m N ≤ m / 2 ^ N + 1.
Proof. unfold rne. rne_cases; lia. Qed.

Lemma shr_iter_exact n m :
  0 ≤ m →
  Nat.iter (S n) shr_1 (Build_shr_record m false false)
  = Build_shr_record (m / 2 ^ (Z.of_nat n + 1)) (Z.odd (m / 2 ^ Z.of_nat n))
                     (negb (m mod 2 ^ Z.of_nat n =? 0)).
Proof.
  intros Hm. induction n as [|n IH].
  - cbn [Nat.iter]. rewrite shr_1_spec by done.
    change (Z.of_nat 0) with 0. by rewrite Z.pow_0_r, Z.div_1_r, Z.mod_1_r.
  - rewrite Nat.iter_succ, IH, shr_1_spec
      by (apply Z.div_pos; [lia|apply Z.pow_pos_nonneg; lia]).
    rewrite Nat2Z.inj_succ.
    assert (HP : 0 < 2 ^ Z.of_nat n) by (apply Z.pow_pos_nonneg; lia).
    replace (Z.succ (Z.of_nat n) + 1) with (Z.of_nat n + 1 + 1) by lia.
    rewrite (Z.pow_add_r 2 (Z.of_nat n + 1) 1), Z.pow_1_r by lia.
    rewrite <-Z.div_div by (try apply Z.pow_pos_nonneg; lia).
    replace (Z.succ (Z.of_nat n)) with (Z.of_nat n + 1) by lia.
    f_equal.
    rewrite (Z.pow_add_r 2 (Z.of_nat n) 1), Z.pow_1_r by lia.
    rewrite Z.rem_mul_r by lia.
    pose proof (Z.mod_pos_bound m (2 ^ Z.of_nat n) HP).
    pose proof (Z.mod_pos_bound (m / 2 ^ Z.of_nat n) 2 ltac:(lia)).
    rewrite (Zodd_mod (m / 2 ^ Z.of_nat n)).
    destruct (Z.eqb_spec ((m / 2 ^ Z.of_nat n) mod 2) 1) as [E|E];
      destruct (Z.eqb_spec (m mod 2 ^ Z.of_nat n) 0) as [E0|E0];
      match goal with |- context [Z.eqb ?a 0] => destruct (Z.eqb_spec a 0) end;
      cbn; try done; nia.
Qed.

Lemma round_nearest_even_rne m N :
  0 ≤ m → 1 ≤ N →
  round_nearest_even (m / 2 ^ N)
    (loc_of_shr_record
       (Build_shr_record (m / 2 ^ N) (Z.odd (m / 2 ^ (N - 1)))
                         (negb (m mod 2 ^ (N - 1) =? 0))))
  = rne m N.
Proof.
  intros Hm HN. unfold rne.
  assert (HP : 0 < 2 ^ (N - 1)) by (apply Z.pow_pos_nonneg; lia).
  assert (HN2 : 2 ^ N = 2 ^ (N - 1) * 2).
  { rewrite <-(Z.pow_1_r 2) at 3. rewrite <-Z.pow_add_r by lia. f_equal. lia. }
  rewrite HN2, <-Z.div_div, Z.rem_mul_r by lia.
  pose proof (Z.mod_pos_bound m (2 ^ (N - 1)) HP).
  pose proof (Z.mod_pos_bound (m / 2 ^ (N - 1)) 2 ltac:(lia)).
  rewrite (Zodd_mod (m / 2 ^ (N - 1))).
  destruct (Z.eqb_spec ((m / 2 ^ (N - 1)) mod 2) 1) as [E|E];
    destruct (Z.eqb_spec (m mod 2 ^ (N - 1)) 0) as [E0|E0]; cbn;
    rne_cases; lia.
Qed.

(** Rounding without a remainder carried in: the mantissa is rounded to the
    nearest 24-digit one, ties to even. *)
Lemma binary_round_aux_exact sx mx ex :
  0 < mx → 25 ≤ Zdigits2 mx → -149 ≤ Zdigits2 mx + ex - 24 ≤ 103 →
  binary_round_aux prec emax sx mx ex loc_Exact
  = if rne mx (Zdigits2 mx - 24) =? 2 ^ 24
    then S754_finite sx (2 ^ 23)%positive (ex + (Zdigits2 mx - 24) + 1)
    else S754_finite sx (Z.to_pos (rne mx (Zdigits2 mx - 24))) (ex + (Zdigits2 mx - 24)).
Proof.
  intros Hm Hd He. set (n := Zdigits2 mx - 24) in *.
  pose proof (Zdigits2_bounds mx Hm) as Hb.
  assert (Hq : 2 ^ 23 ≤ mx / 2 ^ n < 2 ^ 24).
  { replace (Zdigits2 mx - 1) with (23 + n) in Hb by lia.
    replace (Zdigits2 mx) with (24 + n) in Hb by lia.
    rewrite !Z.pow_add_r in Hb by lia.
    assert (0 < 2 ^ n) by (apply Z.pow_pos_nonneg; lia).
    split; [apply Z.div_le_lower_bound; lia|apply Z.div_lt_upper_bound; lia]. }
  pose proof (rne_bounds mx n) as Hr.
  unfold binary_round_aux, shr_fexp, fexp, emin, prec, emax.
  replace (Z.max (Zdigits2 mx + ex - 24) (3 - 128 - 24) - ex) with n by lia.
  assert (Hshr : shr (shr_record_of_loc mx loc_Exact) ex n
                 = (Build_shr_record (mx / 2 ^ n) (Z.odd (mx / 2 ^ (n - 1)))
                                     (negb (mx mod 2 ^ (n - 1) =? 0)), ex + n)).
  { destruct n as [|p|p] eqn:En; try lia. cbn [shr shr_record_of_loc].
    rewrite iter_pos_nat. destruct (Pos.to_nat p) as [|k] eqn:Ek; [lia|].
    rewrite shr_iter_exact by lia.
    replace (Z.of_nat k) with (Z.pos p - 1) by lia.
    by replace (Z.pos p - 1 + 1) with (Z.pos p) by lia. }
  rewrite Hshr. cbn [shr_m]. rewrite round_nearest_even_rne by lia.
  remember (rne mx n) as mr eqn:Emr. clear Emr Hshr.
  destruct (Z.eqb_spec mr (2 ^ 24)) as [->|Hne].
  - change (Zdigits2 (2 ^ 24)) with 25.
    replace (Z.max (25 + (ex + n) - 24) (3 - 128 - 24) - (ex + n)) with 1 by lia.
    cbn. destruct (Z.leb_spec (ex + n + 1) (128 - 24)); [done|lia].
  - assert (Zdigits2 mr = 24) as -> by (apply Zdigits2_unique; lia).
    replace (Z.max (24 + (ex + n) - 24) (3 - 128 - 24) - (ex + n)) with 0 by lia.
    cbn. destruct mr as [|p|p]; try lia. cbn.
    destruct (Z.leb_spec (ex + n) (128 - 24)); [done|lia].
Qed.

Lemma Pos_iter_xO m d : Z.pos (Pos.iter xO m d) = Z.pos m * 2 ^ Z.pos d.
Proof.
  induction d as [|d IH] using Pos.peano_ind.
  - cbn. lia.
  - rewrite Pos.iter_succ, Pos2Z.inj_succ, Z.pow_succ_r by lia.
    rewrite Pos2Z.inj_xO, IH. lia.
Qed.

Lemma shl_align_spec mx ex ex' :
  ∃ m', shl_align mx ex ex' = (m', Z.min ex ex')
        ∧ Z.pos m' = Z.pos mx * 2 ^ (ex - Z.min ex ex').
Proof.
  unfold shl_align. destruct (ex' - ex) as [|d|d] eqn:E.
  - exists mx. replace (Z.min ex ex') with ex by lia. rewrite Z.sub_diag. split; [done|lia].
  - exists mx. replace (Z.min ex ex') with ex by lia. rewrite Z.sub_diag. split; [done|lia].
  - exists (Pos.iter xO mx d). replace (Z.min ex ex') with ex' by lia.
    split; [done|]. rewrite Pos_iter_xO. f_equal. f_equal. lia.
Qed.

Lemma Zdigits2_shift m k : 0 < m → 0 ≤ k → Zdigits2 (m * 2 ^ k) = Zdigits2 m + k.
Proof.
  intros Hm Hk. pose proof (Zdigits2_bounds m Hm) as Hb.
  assert (0 < 2 ^ k) by (apply Z.pow_pos_nonneg; lia).
  assert (1 ≤ Zdigits2 m) by (destruct m; cbn; lia).
  apply Zdigits2_unique; [|lia].
  replace (Zdigits2 m + k - 1) with (Zdigits2 m - 1 + k) by lia.
  rewrite !Z.pow_add_r by lia. nia.
Qed.

(** Rounding a positive integer mantissa [mx] at exponent [ex], as
    [static_cast<float>] and the subtraction do. *)
Lemma binary_round_spec sx mx ex :
  -149 ≤ Zdigits2 (Z.pos mx) + ex - 24 ≤ 103 →
  (Zdigits2 (Z.pos mx) ≤ 24 →
     binary_round prec emax sx mx ex
     = S754_finite sx (Z.to_pos (Z.pos mx * 2 ^ (24 - Zdigits2 (Z.pos mx))))
                   (Zdigits2 (Z.pos mx) + ex - 24))
  ∧ (24 ≤ Zdigits2 (Z.pos mx) →
     binary_round prec emax sx mx ex
     = binary_round_aux prec emax sx (Z.pos mx) ex loc_Exact).
Proof.
  intros He. set (d := Zdigits2 (Z.pos mx)) in *.
  assert (1 ≤ d) by (subst d; cbn; lia).
  unfold binary_round, fexp, emin, prec, emax.
  change (Z.pos (digits2_pos mx)) with d.
  replace (Z.max (d + ex - 24) (3 - 128 - 24)) with (d + ex - 24) by lia.
  destruct (shl_align_spec mx ex (d + ex - 24)) as (m' & -> & Hm').
  split; intros Hd.
  - replace (Z.min ex (d + ex - 24)) with (d + ex - 24) in * by lia.
    replace (ex - (d + ex - 24)) with (24 - d) in Hm' by lia.
    assert (Hd' : Zdigits2 (Z.pos m') = 24).
    { rewrite Hm', Zdigits2_shift by lia. fold d. lia. }
    destruct (binary_round_aux_spec sx (Z.pos m') (d + ex - 24) loc_Exact)
      as (mr & Hq & Hmr & Hup & Hbra); [lia..|].
    unfold prec, emax in Hbra. rewrite Hbra. clear Hbra.
    rewrite Hd', Z.sub_diag, Z.pow_0_r, Z.div_1_r, Z.mod_1_r in *.
    assert (mr = Z.pos m') as ->.
    { destruct (decide (mr = Z.pos m' + 1)) as [E|]; [|lia]. by destruct (Hup E). }
    destruct (Z.eqb_spec (Z.pos m') (2 ^ 24)); [lia|].
    rewrite <-Hm', Z.add_0_r. done.
  - replace (Z.min ex (d + ex - 24)) with ex in * by lia.
    rewrite Z.sub_diag, Z.pow_0_r, Z.mul_1_r in Hm'. by injection Hm' as ->.
Qed.

Lemma float_of_size_exact n : 1 ≤ n ≤ 2 ^ 24 → represents (float_of_size n) n.
Proof.
  intros Hn. destruct (decide (n = 2 ^ 24)) as [->|Hne].
  { exists (2 ^ 23)%positive, 1. by vm_compute. }
  destruct n as [|p|p]; try lia. unfold float_of_size. cbn [binary_normalize].
  pose proof (Zdigits2_bounds (Z.pos p) ltac:(lia)) as Hb.
  set (d := Zdigits2 (Z.pos p)) in *.
  assert (1 ≤ d) by (subst d; cbn; lia).
  assert (d ≤ 24).
  { destruct (decide (d ≤ 24)); [done|].
    assert (2 ^ 24 ≤ 2 ^ (d - 1)) by (apply Z.pow_le_mono_r; lia). lia. }
  destruct (binary_round_spec false p 0) as [Hsmall _]; [fold d; lia|].
  rewrite Hsmall by (fold d; lia). fold d.
  assert (0 < 2 ^ (24 - d)) by (apply Z.pow_pos_nonneg; lia).
  eexists _, _. split; [done|]. rewrite Z2Pos.id by lia.
  split_and!; [|lia..|].
  - rewrite Zdigits2_shift by lia. fold d. lia.
  - rewrite <-Z.mul_assoc, <-Z.pow_add_r by lia. do 2 f_equal. lia.
Qed.

Lemma new_location_exact m : new_location m 0 = loc_Exact.
Proof. unfold new_location. by destruct (Z.even m). Qed.

Lemma pow2_le a b : a ≤ b → 0 ≤ a → 2 ^ a ≤ 2 ^ b.
Proof. intros. apply Z.pow_le_mono_r; lia. Qed.

Lemma pow2_double_le a b : a < b → 0 ≤ a → 2 * 2 ^ a ≤ 2 ^ b.
Proof.
  intros. rewrite <-Z.pow_succ_r by lia. apply Z.pow_le_mono_r; lia.
Qed.

Lemma SFdiv_finite mi ei mu eu :
  Zdigits2 (Z.pos mi) = 24 → Zdigits2 (Z.pos mu) = 24 → -125 ≤ ei - eu →
  fdiv (S754_finite false mi ei) (S754_finite false mu eu)
  = binary_round_aux prec emax false (Z.pos mi * 2 ^ 24 / Z.pos mu) (ei - eu - 24)
      (new_location (Z.pos mu) ((Z.pos mi * 2 ^ 24) mod Z.pos mu)).
Proof.
  intros Hi Hu He. unfold fdiv, SFdiv, SFdiv_core_binary. rewrite Hi, Hu.
  unfold fexp, emin, prec, emax.
  replace (Z.min (Z.max (24 + ei - (24 + eu) - 24) (3 - 128 - 24)) (ei - eu))
    with (ei - eu - 24) by lia.
  replace (ei - eu - (ei - eu - 24)) with 24 by lia.
  rewrite Z.shiftl_mul_pow2 by lia.
  unfold Z.div, Z.modulo. cbn [xorb].
  by destruct (Z.div_eucl (Z.pos mi * 2 ^ 24) (Z.pos mu)).
Qed.

Lemma fdiv_self m e :
  Zdigits2 (Z.pos m) = 24 → fdiv (S754_finite false m e) (S754_finite false m e) = f_one.
Proof.
  intros Hd. rewrite SFdiv_finite by (done || lia).
  rewrite (Z.mul_comm (Z.pos m)), Z.div_mul, Z.mod_mul, new_location_exact by lia.
  destruct (binary_round_aux_spec false (2 ^ 24) (e - e - 24) loc_Exact)
    as (mr & Hq & Hmr & Hup & ->);
    [lia|change (Zdigits2 (2 ^ 24)) with 25; lia..|].
  change (Zdigits2 (2 ^ 24) - 24) with 1 in *.
  change (2 ^ 24 / 2 ^ 1) with (2 ^ 23) in *. change (2 ^ 24 mod 2 ^ 1) with 0 in *.
  assert (mr = 2 ^ 23) as ->.
  { destruct (decide (mr = 2 ^ 23 + 1)) as [E|]; [|lia]. by destruct (Hup E). }
  cbn. unfold f_one. f_equal. lia.
Qed.

Lemma fdiv_same x n : represents x n → fdiv x x = f_one.
Proof. intros (m & e & -> & Hd & _). by apply fdiv_self. Qed.

Lemma fdiv_unit x y i u :
  represents x i → represents y u → 1 ≤ i < u → u ≤ 2 ^ 24 →
  ∃ m e, fdiv x y = S754_finite false m e ∧ Zdigits2 (Z.pos m) = 24 ∧ -47 ≤ e ≤ -24.
Proof.
  intros (mi & ei & -> & Hdi & Hei & Hi) (mu & eu & -> & Hdu & Heu & Hu) Hiu Hu24.
  rewrite SFdiv_finite by (done || lia).
  pose proof (Zdigits2_bounds (Z.pos mi) ltac:(lia)) as Hbi.
  pose proof (Zdigits2_bounds (Z.pos mu) ltac:(lia)) as Hbu.
  rewrite Hdi in Hbi. rewrite Hdu in Hbu.
  change (2 ^ (24 - 1)) with 8388608 in *. change (2 ^ 24) with 16777216 in *.
  change (2 ^ 23) with 8388608 in *.
  set (Ei := 2 ^ (ei + 23)) in *. set (Eu := 2 ^ (eu + 23)) in *.
  assert (HEi : 0 < Ei) by (apply Z.pow_pos_nonneg; lia).
  assert (HEu : 0 < Eu) by (apply Z.pow_pos_nonneg; lia).
  (* the exponents are ordered as the values are *)
  assert (Hle : ei ≤ eu).
  { destruct (decide (ei ≤ eu)); [done|].
    assert (2 * Eu ≤ Ei) by (apply pow2_double_le; lia). nia. }
  assert (Hlt : Z.pos mu ≤ Z.pos mi → ei < eu).
  { intros ?. destruct (decide (ei < eu)); [done|].
    assert (ei = eu) by lia. subst ei. nia. }
  set (q := Z.pos mi * 16777216 / Z.pos mu).
  set (r := (Z.pos mi * 16777216) mod Z.pos mu).
  assert (Hqr : Z.pos mi * 16777216 = Z.pos mu * q + r ∧ 0 ≤ r < Z.pos mu).
  { split; [apply Z.div_mod; lia|apply Z.mod_pos_bound; lia]. }
  assert (Hq : 8388608 ≤ q < 33554432) by nia.
  destruct (decide (Z.pos mi < Z.pos mu)) as [Hcmp|Hcmp].
  - (* the quotient has 24 digits *)
    assert (Hq' : q ≤ 16777214) by nia.
    assert (Hdq : Zdigits2 q = 24) by (apply Zdigits2_unique; [cbn|]; lia).
    destruct (binary_round_aux_spec false q (ei - eu - 24) (new_location (Z.pos mu) r))
      as (mr & _ & Hmr & _ & ->); [lia|lia|lia|].
    rewrite Hdq, Z.sub_diag, Z.pow_0_r, Z.div_1_r in *.
    destruct (Z.eqb_spec mr (2 ^ 24)) as [E|_]; [cbn in E; lia|].
    exists (Z.to_pos mr), (ei - eu - 24 + 0). split; [done|]. rewrite Z2Pos.id by lia.
    split; [apply Zdigits2_unique; [cbn|]; lia|].
    split; [|lia].
    destruct (decide (ei - eu = -24)); [|lia].
    assert (ei = -23 ∧ eu = 1) as [-> ->] by lia. subst Ei Eu. cbn in *. lia.
  - (* the quotient has 25 digits *)
    assert (Hq' : 16777216 ≤ q) by nia.
    assert (Hdq : Zdigits2 q = 25) by (apply Zdigits2_unique; [cbn|]; lia).
    specialize (Hlt ltac:(lia)).
    destruct (binary_round_aux_spec false q (ei - eu - 24) (new_location (Z.pos mu) r))
      as (mr & Hm1 & Hmr & Hup & ->); [lia|lia|lia|].
    rewrite Hdq in *. change (2 ^ (25 - 24)) with 2 in *.
    pose proof (Z.div_mod q 2 ltac:(lia)) as Hq2.
    pose proof (Z.mod_pos_bound q 2 ltac:(lia)) as Hq2'.
    destruct (Z.eqb_spec mr (2 ^ 24)) as [E|E].
    + (* a carry, which needs two binades between the operands *)
      eexists _, _. split; [done|]. split; [done|].
      destruct (decide (ei = eu - 1)) as [->|]; [|lia]. exfalso.
      change (2 ^ 24) with 16777216 in E.
      assert (Eu = 2 * Ei).
      { subst Eu Ei. rewrite <-Z.pow_succ_r by lia. f_equal. lia. }
      assert (Hval : Z.pos mi * u = 2 * Z.pos mu * i) by nia.
      assert (Hq3 : 33554430 ≤ q) by lia.
      assert (Z.pos mi * 8388608 = 16777215 * Z.pos mu) by nia.
      assert (r = 0) by nia. assert (q = 33554430) by nia.
      destruct Hup as [Hup|Hup]; [lia| |].
      * subst q. rewrite H2 in Hup. by apply Hup.
      * apply Hup. rewrite H1. apply new_location_exact.
    + exists (Z.to_pos mr), (ei - eu - 24 + 1). split; [done|]. rewrite Z2Pos.id by lia.
      change (2 ^ 24) with 16777216 in E.
      split; [apply Zdigits2_unique; [cbn|]; lia|]. lia.
Qed.

Lemma fsub_one_unit m e :
  Zdigits2 (Z.pos m) = 24 → -47 ≤ e ≤ -24 →
  ∃ m' e', fsub f_one (S754_finite false m e) = S754_finite false m' e' ∧ e' ≤ -24.
Proof.
  intros Hd He. unfold fsub, SFsub, f_one.
  replace (Z.min (-23) e) with e by lia.
  destruct (shl_align_spec 8388608 (-23) e) as (m1 & -> & Hm1).
  destruct (shl_align_spec m e e) as (m2 & -> & Hm2).
  replace (Z.min (-23) e) with e in * by lia.
  rewrite Z.min_id, Z.sub_diag, Z.pow_0_r, Z.mul_1_r in Hm2.
  cbn [fst cond_Zopp]. rewrite Hm1, Hm2.
  change (Z.pos 8388608) with (2 ^ 23). rewrite <-Z.pow_add_r by lia.
  replace (23 + (-23 - e)) with (- e) by lia.
  pose proof (Zdigits2_bounds (Z.pos m) ltac:(lia)) as Hb. rewrite Hd in Hb.
  change (2 ^ (24 - 1)) with (2 ^ 23) in Hb.
  assert (2 ^ 24 ≤ 2 ^ (- e)) by (apply pow2_le; lia).
  set (M := 2 ^ (- e) - Z.pos m).
  assert (HM : 0 < M < 2 ^ (- e)) by lia.
  destruct M as [|p|p] eqn:EM; try lia. cbn [binary_normalize].
  pose proof (Zdigits2_bounds (Z.pos p) ltac:(lia)) as Hbp.
  set (d := Zdigits2 (Z.pos p)) in *.
  assert (1 ≤ d) by (subst d; cbn; lia).
  assert (Hde : d ≤ - e).
  { destruct (decide (d ≤ - e)); [done|].
    assert (2 ^ (- e) ≤ 2 ^ (d - 1)) by (apply pow2_le; lia). lia. }
  destruct (binary_round_spec false p e) as [Hsmall Hlarge]; [fold d; lia|].
  destruct (decide (d ≤ 24)) as [Hd24|Hd24].
  - rewrite Hsmall by done. fold d. eexists _, _. split; [done|]. lia.
  - rewrite Hlarge by (fold d; lia).
    destruct (binary_round_aux_spec false (Z.pos p) e loc_Exact)
      as (mr & Hm & Hmr & Hup & ->); [lia|fold d; lia..|].
    fold d in Hm, Hmr, Hup |- *.
    destruct (Z.eqb_spec mr (2 ^ 24)) as [E|E]; eexists _, _; (split; [done|]); [|lia].
    destruct (decide (d = - e)) as [Hd'|]; [|lia]. exfalso.
    (* no carry into 1.0: the mantissa of the subtrahend is at least 2^23 *)
    set (n := d - 24) in *.
    assert (0 < 2 ^ n) by (apply Z.pow_pos_nonneg; lia).
    assert (2 ^ n ≤ 2 ^ 23) by (apply pow2_le; lia).
    assert (Hpow : 2 ^ (- e) = 2 ^ 24 * 2 ^ n).
    { rewrite <-Z.pow_add_r by lia. f_equal. lia. }
    pose proof (Z.div_mod (Z.pos p) (2 ^ n) ltac:(lia)) as Hdm.
    pose proof (Z.mod_pos_bound (Z.pos p) (2 ^ n) ltac:(lia)) as Hmod.
    change (2 ^ 24) with 16777216 in *. change (2 ^ 23) with 8388608 in *.
    assert (Z.pos p / 2 ^ n = 16777215) by nia.
    assert (Z.pos p mod 2 ^ n = 0) by nia.
    destruct Hup as [Hup|Hup]; [lia|done..].
Qed.

(** *** Sizes beyond 2^24 *)

Lemma Zdigits2_mono a b : 0 < a ≤ b → Zdigits2 a ≤ Zdigits2 b.
Proof.
  intros H. pose proof (Zdigits2_bounds a ltac:(lia)) as Ha.
  pose proof (Zdigits2_bounds b ltac:(lia)) as Hb.
  destruct (decide (Zdigits2 a ≤ Zdigits2 b)); [done|].
  assert (1 ≤ Zdigits2 b) by (destruct b; cbn; lia).
  assert (2 ^ Zdigits2 b ≤ 2 ^ (Zdigits2 a - 1)) by (apply pow2_le; lia). lia.
Qed.

(** [static_cast<float>] of a size: exact up to 24 digits, rounded to the
    nearest float, ties to even, above. *)
Lemma float_of_size_round n :
  1 ≤ n < 2 ^ 64 →
  ∃ m e,
    float_of_size n = S754_finite false m e ∧ Zdigits2 (Z.pos m) = 24
    ∧ ((Zdigits2 n ≤ 24 ∧ e = Zdigits2 n - 24 ∧ Z.pos m = n * 2 ^ (24 - Zdigits2 n))
       ∨ (24 < Zdigits2 n ∧ rne n (Zdigits2 n - 24) < 2 ^ 24
          ∧ Z.pos m = rne n (Zdigits2 n - 24) ∧ e = Zdigits2 n - 24)
       ∨ (24 < Zdigits2 n ∧ rne n (Zdigits2 n - 24) = 2 ^ 24
          ∧ Z.pos m = 2 ^ 23 ∧ e = Zdigits2 n - 23)).
Proof.
  intros Hn. destruct n as [|p|p]; try lia. unfold float_of_size. cbn [binary_normalize].
  pose proof (Zdigits2_bounds (Z.pos p) ltac:(lia)) as Hb.
  set (d := Zdigits2 (Z.pos p)) in *.
  assert (1 ≤ d) by (subst d; cbn; lia).
  assert (d ≤ 64).
  { destruct (decide (d ≤ 64)); [done|].
    assert (2 ^ 64 ≤ 2 ^ (d - 1)) by (apply pow2_le; lia). lia. }
  destruct (binary_round_spec false p 0) as [Hsmall Hlarge]; [fold d; lia|].
  destruct (decide (d ≤ 24)).
  - rewrite Hsmall by done. fold d.
    assert (0 < 2 ^ (24 - d)) by (apply Z.pow_pos_nonneg; lia).
    eexists _, _. split; [done|]. rewrite Z2Pos.id by lia.
    split; [rewrite Zdigits2_shift by lia; fold d; lia|]. left. lia.
  - rewrite Hlarge, binary_round_aux_exact by (fold d; lia). fold d.
    pose proof (rne_bounds (Z.pos p) (d - 24)) as Hr.
    assert (Hq : 2 ^ 23 ≤ Z.pos p / 2 ^ (d - 24) < 2 ^ 24).
    { assert (2 ^ 23 * 2 ^ (d - 24) ≤ Z.pos p < 2 ^ 24 * 2 ^ (d - 24)).
      { rewrite <-!Z.pow_add_r by lia.
        replace (23 + (d - 24)) with (d - 1) by lia.
        by replace (24 + (d - 24)) with d by lia. }
      assert (0 < 2 ^ (d - 24)) by (apply Z.pow_pos_nonneg; lia).
      split; [apply Z.div_le_lower_bound; lia|apply Z.div_lt_upper_bound; lia]. }
    destruct (Z.eqb_spec (rne (Z.pos p) (d - 24)) (2 ^ 24)) as [E|E];
      eexists _, _; (split; [done|]).
    + split; [done|]. right. right. lia.
    + rewrite Z2Pos.id by lia. split; [apply Zdigits2_unique; lia|].
      right. left. lia.
Qed.

Lemma float_of_size_mono i u :
  1 ≤ i ≤ u → u < 2 ^ 64 →
  ∃ mi ei mu eu,
    float_of_size i = S754_finite false mi ei
    ∧ float_of_size u = S754_finite false mu eu
    ∧ Zdigits2 (Z.pos mi) = 24 ∧ Zdigits2 (Z.pos mu) = 24
    ∧ -23 ≤ ei ∧ eu ≤ 41
    ∧ (ei < eu ∨ ei = eu ∧ Z.pos mi ≤ Z.pos mu).
Proof.
  intros Hi Hu.
  destruct (float_of_size_round i) as (mi & ei & Ei & Hdi & Ci); [lia|].
  destruct (float_of_size_round u) as (mu & eu & Eu & Hdu & Cu); [lia|].
  exists mi, ei, mu, eu. split_and!; [done..| | |].
  - assert (1 ≤ Zdigits2 i) by (destruct i; cbn; lia). lia.
  - pose proof (Zdigits2_bounds u ltac:(lia)) as Hb.
    assert (Zdigits2 u ≤ 64); [|lia].
    destruct (decide (Zdigits2 u ≤ 64)); [done|].
    assert (2 ^ 64 ≤ 2 ^ (Zdigits2 u - 1)) by (apply pow2_le; lia). lia.
  - pose proof (Zdigits2_mono i u ltac:(lia)) as Hmono.
    pose proof (Zdigits2_bounds (Z.pos mi) ltac:(lia)) as Hbi.
    pose proof (Zdigits2_bounds (Z.pos mu) ltac:(lia)) as Hbu.
    rewrite Hdi in Hbi. rewrite Hdu in Hbu.
    change (2 ^ (24 - 1)) with (2 ^ 23) in *.
    destruct (decide (Zdigits2 i = Zdigits2 u)) as [Hd|Hd].
    + rewrite <-Hd in Cu.
      pose proof (rne_mono i u (Zdigits2 i - 24)) as Hr.
      assert (0 < 2 ^ (24 - Zdigits2 i) ∨ 24 < Zdigits2 i) as [HP|HP].
      { destruct (decide (24 < Zdigits2 i)); [by right|left].
        apply Z.pow_pos_nonneg; lia. }
      * destruct Ci as [Ci|[Ci|Ci]], Cu as [Cu|[Cu|Cu]]; try lia.
        right. split; [lia|]. nia.
      * specialize (Hr ltac:(lia) ltac:(lia)).
        destruct Ci as [Ci|[Ci|Ci]], Cu as [Cu|[Cu|Cu]]; lia.
    + destruct Ci as [Ci|[Ci|Ci]], Cu as [Cu|[Cu|Cu]]; lia.
Qed.


(** The quotient of two floats of sizes, the smaller by the larger, is at
    most 1. *)
Lemma fdiv_le_one mi ei mu eu :
  Zdigits2 (Z.pos mi) = 24 → Zdigits2 (Z.pos mu) = 24 → -23 ≤ ei → eu ≤ 41 →
  ei < eu ∨ ei = eu ∧ Z.pos mi ≤ Z.pos mu →
  fdiv (S754_finite false mi ei) (S754_finite false mu eu) = f_one
  ∨ ∃ m e, fdiv (S754_finite false mi ei) (S754_finite false mu eu) = S754_finite false m e
           ∧ Zdigits2 (Z.pos m) = 24 ∧ -88 ≤ e ≤ -24.
Proof.
  intros Hdi Hdu Hei Heu Hle.
  destruct (decide (ei = eu ∧ mi = mu)) as [[-> ->]|Hne].
  { left. by apply fdiv_self. }
  rewrite SFdiv_finite by (done || lia).
  pose proof (Zdigits2_bounds (Z.pos mi) ltac:(lia)) as Hbi.
  pose proof (Zdigits2_bounds (Z.pos mu) ltac:(lia)) as Hbu.
  rewrite Hdi in Hbi. rewrite Hdu in Hbu.
  change (2 ^ (24 - 1)) with 8388608 in *. change (2 ^ 24) with 16777216 in *.
  set (q := Z.pos mi * 16777216 / Z.pos mu).
  set (r := (Z.pos mi * 16777216) mod Z.pos mu).
  assert (Hqr : Z.pos mi * 16777216 = Z.pos mu * q + r ∧ 0 ≤ r < Z.pos mu).
  { split; [apply Z.div_mod; lia|apply Z.mod_pos_bound; lia]. }
  assert (Hq : 8388608 ≤ q < 33554432) by nia.
  destruct (decide (Z.pos mi < Z.pos mu)) as [Hcmp|Hcmp].
  - assert (Hq' : q ≤ 16777214) by nia.
    assert (Hdq : Zdigits2 q = 24) by (apply Zdigits2_unique; [cbn|]; lia).
    destruct (binary_round_aux_spec false q (ei - eu - 24) (new_location (Z.pos mu) r))
      as (mr & _ & Hmr & _ & ->); [lia|lia|lia|].
    rewrite Hdq, Z.sub_diag, Z.pow_0_r, Z.div_1_r in *.
    destruct (Z.eqb_spec mr (2 ^ 24)) as [E|_]; [cbn in E; lia|].
    right. exists (Z.to_pos mr), (ei - eu - 24 + 0). split; [done|].
    rewrite Z2Pos.id by lia.
    split; [apply Zdigits2_unique; [cbn|]; lia|]. lia.
  - assert (Hlt : ei < eu).
    { destruct Hle as [?|[-> ?]]; [done|]. destruct Hne. split; [done|lia]. }
    assert (Hq' : 16777216 ≤ q) by nia.
    assert (Hdq : Zdigits2 q = 25) by (apply Zdigits2_unique; [cbn|]; lia).
    destruct (binary_round_aux_spec false q (ei - eu - 24) (new_location (Z.pos mu) r))
      as (mr & Hm1 & Hmr & Hup & ->); [lia|lia|lia|].
    rewrite Hdq in *. change (2 ^ (25 - 24)) with 2 in *.
    destruct (Z.eqb_spec mr (2 ^ 24)) as [E|E].
    + destruct (decide (ei = eu - 1)) as [->|].
      * left. unfold f_one. f_equal. lia.
      * right. eexists _, _. split; [done|]. split; [done|]. lia.
    + right. exists (Z.to_pos mr), (ei - eu - 24 + 1). split; [done|].
      rewrite Z2Pos.id by lia. change (2 ^ 24) with 16777216 in E.
      split; [apply Zdigits2_unique; [cbn|]; lia|]. lia.
Qed.

(** One minus a float that is below one is at most one. *)
Lemma fsub_one_le m e :
  Zdigits2 (Z.pos m) = 24 → -88 ≤ e ≤ -24 →
  fsub f_one (S754_finite false m e) = f_one
  ∨ ∃ m' e', fsub f_one (S754_finite false m e) = S754_finite false m' e' ∧ e' ≤ -24.
Proof.
  intros Hd He. unfold fsub, SFsub, f_one.
  replace (Z.min (-23) e) with e by lia.
  destruct (shl_align_spec 8388608 (-23) e) as (m1 & -> & Hm1).
  destruct (shl_align_spec m e e) as (m2 & -> & Hm2).
  replace (Z.min (-23) e) with e in * by lia.
  rewrite Z.min_id, Z.sub_diag, Z.pow_0_r, Z.mul_1_r in Hm2.
  cbn [fst cond_Zopp]. rewrite Hm1, Hm2.
  change (Z.pos 8388608) with (2 ^ 23). rewrite <-Z.pow_add_r by lia.
  replace (23 + (-23 - e)) with (- e) by lia.
  pose proof (Zdigits2_bounds (Z.pos m) ltac:(lia)) as Hb. rewrite Hd in Hb.
  change (2 ^ (24 - 1)) with (2 ^ 23) in Hb.
  assert (2 ^ 24 ≤ 2 ^ (- e)) by (apply pow2_le; lia).
  set (M := 2 ^ (- e) - Z.pos m).
  assert (HM : 0 < M < 2 ^ (- e)) by lia.
  destruct M as [|p|p] eqn:EM; try lia. cbn [binary_normalize].
  pose proof (Zdigits2_bounds (Z.pos p) ltac:(lia)) as Hbp.
  set (d := Zdigits2 (Z.pos p)) in *.
  assert (1 ≤ d) by (subst d; cbn; lia).
  assert (Hde : d ≤ - e).
  { destruct (decide (d ≤ - e)); [done|].
    assert (2 ^ (- e) ≤ 2 ^ (d - 1)) by (apply pow2_le; lia). lia. }
  destruct (binary_round_spec false p e) as [Hsmall Hlarge]; [fold d; lia|].
  destruct (decide (d ≤ 24)) as [Hd24|Hd24].
  - rewrite Hsmall by done. fold d. right. eexists _, _. split; [done|]. lia.
  - rewrite Hlarge by (fold d; lia).
    destruct (binary_round_aux_spec false (Z.pos p) e loc_Exact)
      as (mr & Hm & Hmr & Hup & ->); [lia|fold d; lia..|].
    fold d in Hm, Hmr, Hup |- *.
    destruct (Z.eqb_spec mr (2 ^ 24)) as [E|E].
    + destruct (decide (d = - e)) as [Hd'|].
      * left. f_equal. lia.
      * right. eexists _, _. split; [done|]. lia.
    + right. eexists _, _. split; [done|]. lia.
Qed.

(** *** No operation of the distance yields NaN *)

Lemma shr_m_nonneg mrs e n : 0 ≤ shr_m mrs → 0 ≤ shr_m (fst (shr mrs e n)).
Proof.
  intros Hm. destruct n as [|p|p]; [done| |done]. cbn [shr fst].
  rewrite iter_pos_nat. induction (Pos.to_nat p) as [|k IH]; [done|].
  rewrite Nat.iter_succ. destruct (Nat.iter k shr_1 mrs) as [m r s].
  cbn [shr_m] in IH. rewrite shr_1_spec by done. cbn [shr_m].
  apply Z.div_pos; lia.
Qed.

Lemma shr_record_of_loc_m m l : shr_m (shr_record_of_loc m l) = m.
Proof. by destruct l as [|[]]. Qed.

Lemma round_nearest_even_nonneg m l : 0 ≤ m → 0 ≤ round_nearest_even m l.
Proof. intros. destruct l as [|[]]; cbn; try destruct (Z.even m); lia. Qed.

Lemma binary_round_aux_not_nan sx mx ex lx :
  0 ≤ mx → binary_round_aux prec emax sx mx ex lx ≠ S754_nan.
Proof.
  intros Hm. unfold binary_round_aux, shr_fexp.
  pose proof (shr_m_nonneg (shr_record_of_loc mx lx) ex
    (fexp prec emax (Zdigits2 mx + ex) - ex)) as H1.
  rewrite shr_record_of_loc_m in H1. specialize (H1 Hm).
  destruct (shr _ ex _) as [mrs' e']. cbn [fst] in H1.
  set (mr := round_nearest_even _ _).
  assert (Hmr : 0 ≤ mr) by (by apply round_nearest_even_nonneg).
  pose proof (shr_m_nonneg (shr_record_of_loc mr loc_Exact) e'
    (fexp prec emax (Zdigits2 mr + e') - e')) as H2.
  rewrite shr_record_of_loc_m in H2. specialize (H2 Hmr).
  destruct (shr _ e' _) as [mrs'' e'']. cbn [fst] in H2.
  destruct (shr_m mrs'') as [|p|p]; [done| |lia].
  by destruct (e'' <=? emax - prec).
Qed.

Lemma binary_normalize_not_nan m e : binary_normalize prec emax m e false ≠ S754_nan.
Proof.
  destruct m as [|p|p]; [done|..]; cbn [binary_normalize]; unfold binary_round;
    destruct (shl_align _ _ _); by apply binary_round_aux_not_nan.
Qed.

Lemma float_of_size_finite n :
  1 ≤ n < 2 ^ 64 → ∃ m e, float_of_size n = S754_finite false m e.
Proof.
  intros Hn. destruct n as [|p|p]; try lia. unfold float_of_size. cbn [binary_normalize].
  pose proof (Zdigits2_bounds (Z.pos p) ltac:(lia)) as Hb.
  set (d := Zdigits2 (Z.pos p)) in *.
  assert (1 ≤ d) by (subst d; cbn; lia).
  assert (d ≤ 64).
  { destruct (decide (d ≤ 64)); [done|].
    assert (2 ^ 64 ≤ 2 ^ (d - 1)) by (apply pow2_le; lia). lia. }
  destruct (binary_round_spec false p 0) as [Hsmall Hlarge]; [fold d; lia|].
  destruct (decide (d ≤ 24)).
  - rewrite Hsmall by done. by eexists _, _.
  - rewrite Hlarge by (fold d; lia).
    destruct (binary_round_aux_spec false (Z.pos p) 0 loc_Exact)
      as (mr & _ & _ & _ & ->); [lia|fold d; lia..|].
    destruct (mr =? 2 ^ 24); by eexists _, _.
Qed.

Lemma fdiv_not_nan x m e :
  x ≠ S754_nan → fdiv x (S754_finite false m e) ≠ S754_nan.
Proof.
  intros Hx. destruct x as [s|s| |s mx ex]; [done..|].
  unfold fdiv, SFdiv, SFdiv_core_binary.
  set (m' := match _ with Z0 => Z.pos mx | Z.pos _ => _ | Z.neg _ => 0 end).
  assert (0 ≤ m').
  { subst m'. destruct (_ - _ - _) as [|p|p]; [lia| |lia]. apply Z.shiftl_nonneg. lia. }
  pose proof (Z_div_pos m' (Z.pos m) ltac:(lia) ltac:(lia)) as Hq.
  unfold Z.div in Hq. destruct (Z.div_eucl m' (Z.pos m)) as [q r]. cbn [fst] in Hq.
  by apply binary_round_aux_not_nan.
Qed.

Lemma fsub_one_not_nan x : x ≠ S754_nan → fsub f_one x ≠ S754_nan.
Proof.
  intros Hx. destruct x as [s|s| |s mx ex]; [done..|].
  unfold fsub, SFsub, f_one. apply binary_normalize_not_nan.
Qed.

Lemma jaccard_value_not_nan inter uni :
  1 ≤ uni < 2 ^ 64 → jaccard_value inter uni ≠ S754_nan.
Proof.
  intros Hu. unfold jaccard_value.
  destruct (float_of_size_finite uni Hu) as (m & e & ->).
  apply fsub_one_not_nan, fdiv_not_nan, binary_normalize_not_nan.
Qed.

(** The distance computed from the two sizes is 0, 1 or a float between. *)
Lemma jaccard_value_range inter uni :
  0 ≤ inter ≤ uni → 1 ≤ uni < 2 ^ 64 →
  jaccard_value inter uni = f_zero ∨ jaccard_value inter uni = f_one
  ∨ ∃ m e, jaccard_value inter uni = S754_finite false m e ∧ e ≤ -24.
Proof.
  intros Hi Hu. unfold jaccard_value.
  destruct (decide (inter = 0)) as [->|Hne].
  { destruct (float_of_size_finite uni Hu) as (m & e & ->). right. by left. }
  destruct (float_of_size_mono inter uni) as (mi & ei & mu & eu & -> & -> & Hmono);
    [lia..|].
  destruct Hmono as (Hdi & Hdu & Hei & Heu & Hle).
  destruct (fdiv_le_one mi ei mu eu) as [->|(m & e & -> & Hd & He)]; [done..| |].
  - by left.
  - right. destruct (fsub_one_le m e) as [->|?]; [done..|by left|by right].
Qed.

Lemma jaccard_value_unit inter uni :
  0 ≤ inter ≤ uni → 1 ≤ uni < 2 ^ 64 →
  SFleb f_zero (jaccard_value inter uni) = true
  ∧ SFleb (jaccard_value inter uni) f_one = true.
Proof.
  intros Hi Hu.
  destruct (jaccard_value_range inter uni) as [->|[->|(m & e & -> & He)]]; [done..| | |].
  - done.
  - done.
  - split; [done|]. unfold SFleb, f_one, SFcompare.
    by destruct (Z.compare_spec e (-23)); [lia| |lia].
Qed.

End binary32.

(** ** The Jaccard distance: values *)

Lemma union_size_nat (A B : gset string) :
  size (A ∪ B) + size (A ∩ B) = size A + size B.
Proof.
  rewrite size_union_alt, size_difference_alt, (comm_L (∩) B A).
  assert (A ∩ B ⊆ B) as Hs%subseteq_size by set_solver. lia.
Qed.

Lemma union_size (A B : gset string) :
  (Z.of_nat (size A) + Z.of_nat (size B) - Z.of_nat (size (A ∩ B)))%Z
  = Z.of_nat (size (A ∪ B)).
Proof. pose proof (union_size_nat A B). lia. Qed.

Lemma jaccard_unfold (A B : gset string) :
  (Z.of_nat (size (A ∪ B)) < SIZE_MOD)%Z → ¬ (A = ∅ ∧ B = ∅) →
  jaccard A B = jaccard_value (Z.of_nat (size (A ∩ B))) (Z.of_nat (size (A ∪ B))).
Proof.
  intros Hfit Hne. unfold jaccard. rewrite decide_False by done.
  rewrite intersection_size_spec.
  assert (A ∩ B ⊆ A ∪ B) as Hs%subseteq_size by (clear; set_solver).
  assert (wrap_size (Z.of_nat (size (A ∩ B))) = Z.of_nat (size (A ∩ B))) as ->.
  { unfold wrap_size. apply Z.mod_small. lia. }
  rewrite union_size. unfold wrap_size. rewrite Z.mod_small by lia. done.
Qed.

Lemma jaccard_not_nan (A B : gset string) :
  (Z.of_nat (size (A ∪ B)) < SIZE_MOD)%Z → jaccard A B ≠ S754_nan.
Proof.
  intros Hfit. destruct (decide (A = ∅ ∧ B = ∅)) as [He|Hne].
  - unfold jaccard. by rewrite decide_True.
  - rewrite jaccard_unfold by done. apply jaccard_value_not_nan.
    split; [|done].
    assert (size (A ∪ B) ≠ 0%nat); [|lia].
    rewrite size_non_empty_iff. intros Hu. apply Hne. set_solver.
Qed.

Lemma jaccard_value_disjoint uni :
  (1 ≤ uni ≤ 2 ^ 24)%Z → jaccard_value 0 uni = f_one.
Proof.
  intros Hu. destruct (float_of_size_exact uni Hu) as (m & e & Hy & _).
  unfold jaccard_value. by rewrite Hy.
Qed.

Lemma jaccard_value_same n :
  (1 ≤ n ≤ 2 ^ 24)%Z → jaccard_value n n = f_zero.
Proof.
  intros Hn. unfold jaccard_value.
  by rewrite (fdiv_same _ n (float_of_size_exact n Hn)).
Qed.

Lemma jaccard_value_between inter uni :
  (1 ≤ inter < uni)%Z → (uni ≤ 2 ^ 24)%Z →
  ∃ m e, jaccard_value inter uni = S754_finite false m e ∧ (e ≤ -24)%Z.
Proof.
  intros Hi Hu. unfold jaccard_value.
  destruct (fdiv_unit (float_of_size inter) (float_of_size uni) inter uni)
    as (m & e & -> & Hd & He); [apply float_of_size_exact; lia..|done|done|].
  by apply fsub_one_unit.
Qed.

Lemma SFcompare_below_one m e :
  (e ≤ -24)%Z → SFcompare (S754_finite false m e) f_one = Some Lt.
Proof.
  intros He. unfold f_one, SFcompare.
  by destruct (Z.compare_spec e (-23)); [lia| |lia].
Qed.

(** C2, amended. The distance of two tag sets lies in [0, 1]. When their
    union has at most 2^24 tags, it is 0 exactly when the two sets are equal
    and 1 exactly when they share no tag and one of them is not empty. The
    distance of two empty sets is 0. *)
Theorem jaccard_bounds (A B : gset string) :
  (Z.of_nat (size (A ∪ B)) < SIZE_MOD)%Z →
  SFleb f_zero (jaccard A B) = true
  ∧ SFleb (jaccard A B) f_one = true
  ∧ ((Z.of_nat (size (A ∪ B)) ≤ 16777216)%Z →
     (SFeqb (jaccard A B) f_zero = true ↔ A = B)
     ∧ (SFeqb (jaccard A B) f_one = true ↔ A ∩ B = ∅ ∧ (A ≠ ∅ ∨ B ≠ ∅)))
  ∧ jaccard ∅ ∅ = f_zero.
Proof.
  intros Hfit.
  cut (SFleb f_zero (jaccard A B) = true
       ∧ SFleb (jaccard A B) f_one = true
       ∧ ((Z.of_nat (size (A ∪ B)) ≤ 16777216)%Z →
          (SFeqb (jaccard A B) f_zero = true ↔ A = B)
          ∧ (SFeqb (jaccard A B) f_one = true ↔ A ∩ B = ∅ ∧ (A ≠ ∅ ∨ B ≠ ∅)))).
  { intros (? & ? & ?). by split_and!. }
  destruct (decide (A = ∅ ∧ B = ∅)) as [[-> ->]|Hne].
  { unfold jaccard. rewrite decide_True by done.
    split_and!; [done|done|]. intros _.
    split; [done|]. split; [done|]. intros [_ [?|?]]; done. }
  rewrite jaccard_unfold by done.
  assert (Hsub : A ∩ B ⊆ A ∪ B) by set_solver.
  pose proof (subseteq_size _ _ Hsub) as Hle.
  assert (Hu : size (A ∪ B) ≠ 0%nat).
  { rewrite size_non_empty_iff. intros Hu. apply Hne. set_solver. }
  destruct (jaccard_value_unit (Z.of_nat (size (A ∩ B))) (Z.of_nat (size (A ∪ B))))
    as [Hlow Hhigh]; [lia|split; [lia|done]|].
  split_and!; [done|done|]. intros Hsize.
  assert (Heq : A = B ↔ size (A ∩ B) = size (A ∪ B)).
  { split; [intros ->; f_equal; set_solver|].
    intros Hs. assert (A ∩ B = A ∪ B) by (apply set_subseteq_size_eq; [done|lia]).
    set_solver. }
  assert (Hdis : A ∩ B = ∅ ↔ size (A ∩ B) = 0%nat).
  { rewrite size_empty_iff. by unfold_leibniz. }
  clear Hlow Hhigh.
  destruct (decide (size (A ∩ B) = 0%nat)) as [H0|H0].
  - rewrite H0. change (Z.of_nat 0) with 0%Z.
    rewrite jaccard_value_disjoint by (change (2 ^ 24)%Z with 16777216%Z; lia).
    split.
    + split; [done|]. rewrite Heq. lia.
    + split; [intros _|done]. split; [by apply Hdis|].
      destruct (decide (A = ∅)) as [->|]; [|by left]. right. intros ->. by apply Hne.
  - destruct (decide (size (A ∩ B) = size (A ∪ B))) as [Hs|Hs].
    + rewrite Hs, jaccard_value_same by (change (2 ^ 24)%Z with 16777216%Z; lia).
      split.
      * split; [intros _; by apply Heq|done].
      * split; [done|]. intros [Hd _]. by apply Hdis in Hd.
    + destruct (jaccard_value_between (Z.of_nat (size (A ∩ B))) (Z.of_nat (size (A ∪ B))))
        as (m & e & -> & He); [lia|change (2 ^ 24)%Z with 16777216%Z; lia|].
      unfold SFeqb. rewrite SFcompare_below_one by done.
      split.
      * split; [done|]. by intros ?%Heq.
      * split; [done|]. intros [Hd _]. by apply Hdis in Hd.
Qed.

(** ** Selection *)

Lemma wrap_int_small z : (0 ≤ z ≤ INT_MAX)%Z → wrap_int z = z.
Proof. unfold wrap_int, INT_MAX. intros Hz. rewrite Z.mod_small; lia. Qed.

Lemma wrap_int_le z : (0 ≤ z)%Z → (wrap_int z ≤ z)%Z.
Proof.
  intros Hz. unfold wrap_int.
  pose proof (Z.mod_le (z + 2147483648) 4294967296 ltac:(lia) ltac:(lia)). lia.
Qed.

Lemma clamp_le K size : (clamp K size ≤ Z.of_nat size)%Z ∧ (clamp K size ≤ K)%Z.
Proof.
  unfold clamp. pose proof (wrap_int_le (Z.of_nat size) ltac:(lia)).
  destruct (Z.gtb_spec K (wrap_int (Z.of_nat size))); lia.
Qed.

Lemma clamp_min K size :
  (Z.of_nat size ≤ INT_MAX)%Z → clamp K size = Z.min K (Z.of_nat size).
Proof.
  intros Hs. unfold clamp. rewrite wrap_int_small by lia.
  destruct (Z.gtb_spec K (Z.of_nat size)); lia.
Qed.

Lemma std_nth_element_length alg k v :
  no_nan v → (k ≤ length v)%nat → length (std_nth_element alg k v) = length v.
Proof. intros Hn Hk. by rewrite (nth_element_Permutation alg k v). Qed.

Lemma std_sort_length alg k v :
  no_nan (take k v) → (k ≤ length v)%nat → length (std_sort alg k v) = length v.
Proof.
  intros Hn Hk. rewrite <-(take_drop k (std_sort alg k v)), length_app.
  rewrite (sort_Permutation alg k v), (sort_rest alg k v) by done.
  by rewrite <-length_app, take_drop.
Qed.

Lemma std_sort_Permutation alg k v :
  no_nan (take k v) → (k ≤ length v)%nat → std_sort alg k v ≡ₚ v.
Proof.
  intros Hn Hk. rewrite <-(take_drop k (std_sort alg k v)).
  rewrite (sort_Permutation alg k v), (sort_rest alg k v) by done.
  by rewrite take_drop.
Qed.

(** What both algorithms leave behind: the vector permuted, its first [K]
    elements in order and none of them after any of the others. *)
Lemma select_spec alg K nbrs K' v :
  no_nan nbrs →
  select alg K nbrs = Ok (K', v) →
  K' = clamp K (length nbrs)
  ∧ (0 ≤ K' ≤ Z.of_nat (length nbrs))%Z
  ∧ v ≡ₚ nbrs
  ∧ StronglySorted dist_le (take (Z.to_nat K') v)
  ∧ (∀ a b, a ∈ take (Z.to_nat K') v → b ∈ drop (Z.to_nat K') v → dist_le a b).
Proof.
  intros Hnan. unfold select.
  set (Kc := clamp K (length nbrs)). set (k := Z.to_nat Kc).
  destruct (Z.ltb_spec Kc 0) as [|H0]; [done|].
  destruct (Z.ltb_spec (Z.of_nat (length nbrs)) Kc) as [|Hn]; [done|].
  cbn [orb]. intros [= <- <-]. fold k.
  assert (Hk : (k ≤ length nbrs)%nat) by lia.
  set (v1 := std_nth_element alg k nbrs).
  assert (Hp1 : v1 ≡ₚ nbrs) by (by apply nth_element_Permutation).
  assert (Hn1 : no_nan v1) by (by eapply no_nan_Permutation).
  assert (Hl1 : length v1 = length nbrs) by (by rewrite Hp1).
  assert (Hnt : no_nan (take k v1)) by (by apply Forall_take).
  split_and!; [done|lia|lia| | |].
  - by rewrite std_sort_Permutation by (done || lia).
  - apply sorted_of_lookup. intros i j a b Hij Hi Hj.
    assert (j < k)%nat.
    { apply lookup_lt_Some in Hj. rewrite length_take in Hj. lia. }
    rewrite lookup_take_lt in Hi, Hj by lia.
    by apply (sort_sorted alg k v1 i j a b); [|lia|..].
  - intros a b Ha Hb.
    rewrite (sort_Permutation alg k v1) in Ha by (done || lia).
    rewrite (sort_rest alg k v1) in Hb by (done || lia).
    apply list_elem_of_lookup in Ha as [i Hi]. apply list_elem_of_lookup in Hb as [j Hj].
    assert (i < k)%nat.
    { apply lookup_lt_Some in Hi. rewrite length_take in Hi. lia. }
    rewrite lookup_take_lt in Hi by lia. rewrite lookup_drop in Hj.
    assert (k + j < length v1)%nat by (by eapply lookup_lt_Some).
    by apply (nth_element_partition alg k nbrs i (k + j) a b); [|lia..| |].
Qed.

Lemma select_ok alg K nbrs :
  (0 ≤ clamp K (length nbrs))%Z →
  select alg K nbrs
  = Ok (clamp K (length nbrs),
        std_sort alg (Z.to_nat (clamp K (length nbrs)))
          (std_nth_element alg (Z.to_nat (clamp K (length nbrs))) nbrs)).
Proof.
  intros H0. unfold select. pose proof (clamp_le K (length nbrs)) as [Hn _].
  destruct (Z.ltb_spec (clamp K (length nbrs)) 0); [lia|].
  by destruct (Z.ltb_spec (Z.of_nat (length nbrs)) (clamp K (length nbrs))); [lia|].
Qed.

Lemma sorted_ascending v : no_nan v → StronglySorted dist_le v → ascending v.
Proof.
  intros Hn Hs. induction Hs as [|a v Hs IH Ha]; constructor.
  - apply IH. by apply Forall_cons in Hn as [_ ?].
  - apply Forall_cons in Hn as [Hna Hn]. unfold no_nan in Hn.
    rewrite Forall_forall in Ha, Hn |- *. intros b Hb.
    apply dist_le_SFleb; auto.
Qed.

Lemma SFleb_canon x y : SFleb (canon x) (canon y) = SFleb x y.
Proof. by destruct x as [[]|[]| |[] mx ex], y as [[]|[]| |[] my ey]. Qed.

Lemma canon_idemp x : canon (canon x) = canon x.
Proof. by destruct x. Qed.

Lemma SFleb_antisym x y : SFleb x y = true → SFleb y x = true → canon x = canon y.
Proof.
  unfold SFleb.
  destruct x as [[]|[]| |[] mx ex], y as [[]|[]| |[] my ey];
    cbn; try done; intros H1 H2; compare_cases; by subst.
Qed.

Lemma canon_SFeqb x y : x ≠ S754_nan → canon x = canon y → SFeqb x y = true.
Proof.
  unfold SFeqb.
  destruct x as [[]|[]| |[] mx ex], y as [[]|[]| |[] my ey];
    cbn; try done; intros _ [= -> ->];
    by rewrite Z.compare_refl, Pos.compare_cont_refl.
Qed.

Lemma canon_eq_Forall2 l k :
  Forall (λ x, x ≠ S754_nan) l → canon <$> l = canon <$> k →
  Forall2 (λ x y, SFeqb x y = true) l k.
Proof.
  intros Hl. revert k. induction Hl as [|x l Hx Hl IH]; intros [|y k] Hk; try done.
  injection Hk as Hxy Hk. constructor; [by apply canon_SFeqb|by apply IH].
Qed.

(** Two sorted arrangements of the same neighbours show the same
    distances. *)
Lemma sorted_distances_unique v w :
  no_nan v → v ≡ₚ w → StronglySorted dist_le v → StronglySorted dist_le w →
  canon <$> (Node.dist <$> v) = canon <$> (Node.dist <$> w).
Proof.
  intros Hv Hp Hsv Hsw.
  assert (Hw : no_nan w) by (by eapply no_nan_Permutation).
  rewrite <-!list_fmap_compose.
  apply (StronglySorted_unique_strong (λ x y, SFleb x y = true)).
  - intros x y (a & -> & _)%list_elem_of_fmap (b & -> & _)%list_elem_of_fmap Hxy Hyx.
    pose proof (SFleb_antisym _ _ Hxy Hyx) as Heq. cbn in Heq |- *.
    by rewrite !canon_idemp in Heq.
  - apply (StronglySorted_fmap _ (λ a b, SFleb (Node.dist a) (Node.dist b) = true)).
    + intros a b Hab. cbn. by rewrite SFleb_canon.
    + by apply sorted_ascending.
  - apply (StronglySorted_fmap _ (λ a b, SFleb (Node.dist a) (Node.dist b) = true)).
    + intros a b Hab. cbn. by rewrite SFleb_canon.
    + by apply sorted_ascending.
  - by rewrite Hp.
Qed.

(** The distances of a sorted prefix that nothing left out undercuts are the
    first of all the distances in ascending order. *)
Lemma prefix_distances v k nbrs :
  no_nan nbrs → v ≡ₚ nbrs → (k ≤ length v)%nat →
  StronglySorted dist_le (take k v) →
  (∀ a b, a ∈ take k v → b ∈ drop k v → dist_le a b) →
  Forall2 (λ x y, SFeqb x y = true)
          (Node.dist <$> take k v) (take k (ascending_distances nbrs)).
Proof.
  intros Hnan Hp Hk Hs Hpart.
  assert (Hv : no_nan v) by (eapply no_nan_Permutation; [symmetry; exact Hp|done]).
  assert (Hrest : no_nan (drop k v)) by (by apply Forall_drop).
  set (w := take k v ++ insertion_sort (drop k v)).
  assert (Hw : w ≡ₚ insertion_sort nbrs).
  { unfold w. by rewrite !insertion_sort_Permutation, take_drop. }
  assert (Hsw : StronglySorted dist_le w).
  { apply StronglySorted_app_2; [|done|by apply insertion_sort_sorted].
    intros a b Ha Hb. apply Hpart; [done|]. by rewrite insertion_sort_Permutation in Hb. }
  assert (Hwn : no_nan w).
  { eapply no_nan_Permutation; [symmetry; exact Hw|].
    eapply no_nan_Permutation; [symmetry; apply insertion_sort_Permutation|done]. }
  pose proof (sorted_distances_unique w (insertion_sort nbrs) Hwn Hw Hsw
                (insertion_sort_sorted nbrs Hnan)) as Heq.
  apply canon_eq_Forall2.
  { apply Forall_fmap, Forall_take. exact Hv. }
  unfold ascending_distances.
  rewrite (fmap_take canon k (Node.dist <$> insertion_sort nbrs)), <-Heq.
  unfold w. rewrite !fmap_app. symmetry. apply take_app_length'.
  rewrite !length_fmap, length_take. lia.
Qed.

(** C1, amended. For a sequence of at most [INT_MAX] neighbours whose
    distances are numbers, and a requested K of at least 1, the selection
    returns [min K N] neighbours in ascending order of distance which,
    together with the ones left out, are the whole input, and none of the
    neighbours left out is nearer than a returned one: their distances are
    the first [min K N] of all the distances in ascending order. K beyond N
    is clamped and is not an error. *)
Theorem selectTopK_smallest (alg : StdAlgorithm) (K : Z) (nbrs : list Node.t) :
  no_nan nbrs →
  (1 ≤ K)%Z →
  (Z.of_nat (length nbrs) ≤ INT_MAX)%Z →
  ∃ top rest,
    selectTopK alg K nbrs = Ok top
    ∧ length top = Nat.min (Z.to_nat K) (length nbrs)
    ∧ ascending top
    ∧ top ++ rest ≡ₚ nbrs
    ∧ (∀ a b, a ∈ top → b ∈ rest →
       SFleb (Node.dist a) (Node.dist b) = true)
    ∧ Forall2 (λ x y, SFeqb x y = true)
              (Node.dist <$> top) (take (length top) (ascending_distances nbrs)).
Proof.
  intros Hnan HK HN. unfold selectTopK.
  pose proof (clamp_min K (length nbrs) HN) as Hc.
  rewrite select_ok by lia. cbn.
  set (k := Z.to_nat (clamp K (length nbrs))).
  set (v := std_sort alg k (std_nth_element alg k nbrs)).
  destruct (select_spec alg K nbrs (clamp K (length nbrs)) v Hnan)
    as (_ & Hk & Hp & Hs & Hpart); [by rewrite select_ok by lia|].
  fold k in Hs, Hpart.
  assert (Hvn : no_nan v) by (eapply no_nan_Permutation; [symmetry; exact Hp|done]).
  assert (Hin : ∀ a, a ∈ v → Node.dist a ≠ S754_nan).
  { intros a Ha. unfold no_nan in Hvn. rewrite Forall_forall in Hvn. by apply Hvn. }
  exists (take k v), (drop k v). split_and!.
  - done.
  - rewrite length_take, (Permutation_length Hp). lia.
  - apply sorted_ascending; [by apply Forall_take|done].
  - by rewrite take_drop.
  - intros a b Ha Hb. apply dist_le_SFleb; [apply Hin..|by apply Hpart].
    + by apply (subseteq_take k v).
    + by apply (subseteq_drop k v).
  - assert (Hkv : (k ≤ length v)%nat) by (rewrite (Permutation_length Hp); lia).
    rewrite length_take, Nat.min_l by done.
    by apply prefix_distances.
Qed.

Lemma selectTopK_smallest_witness :
  ∃ top rest,
    selectTopK ref_alg 2 three_neighbours = Ok top
    ∧ length top = Nat.min (Z.to_nat 2) (length three_neighbours)
    ∧ ascending top
    ∧ top ++ rest ≡ₚ three_neighbours
    ∧ (∀ a b, a ∈ top → b ∈ rest →
       SFleb (Node.dist a) (Node.dist b) = true)
    ∧ Forall2 (λ x y, SFeqb x y = true)
              (Node.dist <$> top)
              (take (length top) (ascending_distances three_neighbours)).
Proof.
  apply (selectTopK_smallest ref_alg 2 three_neighbours).
  - repeat constructor; discriminate.
  - lia.
  - vm_compute. discriminate.
Defined.

Lemma uniform_neighbours_no_nan n : no_nan (uniform_neighbours n).
Proof. apply Forall_replicate. discriminate. Qed.

Lemma selectTopK_wrapped_size alg n :
  Z.of_nat n = 4294967301%Z →
  ∃ top, selectTopK alg 10 (uniform_neighbours n) = Ok top
         ∧ length top = 5%nat
         ∧ Nat.min (Z.to_nat 10) (length (uniform_neighbours n)) = 10%nat.
Proof.
  intros Hn.
  assert (Hlen : length (uniform_neighbours n) = n) by apply length_replicate.
  assert (Hc : clamp 10 (length (uniform_neighbours n)) = 5%Z).
  { unfold clamp. by rewrite Hlen, Hn. }
  unfold selectTopK. rewrite select_ok by (rewrite Hc; lia). rewrite Hc.
  eexists. split; [done|].
  pose proof (uniform_neighbours_no_nan n) as Hnan.
  change (Z.to_nat 5) with 5%nat. split; [|lia].
  rewrite length_take, std_sort_length, std_nth_element_length; try lia; try done.
  - apply Forall_take. eapply no_nan_Permutation; [|exact Hnan].
    symmetry. apply nth_element_Permutation; [done|lia].
  - rewrite std_nth_element_length; [lia|done|lia].
Qed.

(** C1 as stated fails for vectors beyond [INT_MAX]: with N = 2^32 + 5 and
    K = 10 the size narrows to 5 and 5 neighbours are returned, not 10. *)
Lemma selectTopK_clamp_wraps :
  ∃ top,
    selectTopK ref_alg 10 (uniform_neighbours (Z.to_nat 4294967301)) = Ok top
    ∧ length top = 5%nat
    ∧ Nat.min (Z.to_nat 10) (length (uniform_neighbours (Z.to_nat 4294967301))) = 10%nat.
Proof.
  apply (selectTopK_wrapped_size ref_alg (Z.to_nat 4294967301)).
  apply Z2Nat.id. lia.
Qed.

Lemma jaccard_bounds_witness :
  SFleb f_zero (jaccard {["cat"%string]} {["cat"%string; "dance"%string]}) = true
  ∧ SFleb (jaccard {["cat"%string]} {["cat"%string; "dance"%string]}) f_one = true
  ∧ (SFeqb (jaccard {["cat"%string]} {["cat"%string; "dance"%string]}) f_zero = true
     ↔ ({["cat"%string]} : gset string) = {["cat"%string; "dance"%string]})
  ∧ (SFeqb (jaccard {["cat"%string]} {["cat"%string; "dance"%string]}) f_one = true
     ↔ ({["cat"%string]} : gset string) ∩ {["cat"%string; "dance"%string]} = ∅
       ∧ (({["cat"%string]} : gset string) ≠ ∅
          ∨ ({["cat"%string; "dance"%string]} : gset string) ≠ ∅))
  ∧ jaccard ∅ ∅ = f_zero.
Proof.
  destruct (jaccard_bounds {["cat"%string]} {["cat"%string; "dance"%string]})
    as (Hlow & Hhigh & Hends & Hempty); [by vm_compute|].
  destruct Hends as [Hzero Hone]; [vm_compute; discriminate|].
  exact (conj Hlow (conj Hhigh (conj Hzero (conj Hone Hempty)))).
Defined.

Lemma tag_length k : String.length (tag k) = S k.
Proof. induction k as [|k IH]; [done|]. cbn. by rewrite IH. Qed.

Global Instance tag_inj : Inj (=) (=) tag.
Proof.
  intros j k Hjk. apply (f_equal String.length) in Hjk.
  rewrite !tag_length in Hjk. lia.
Qed.

Lemma elem_of_tag_set s n : s ∈ tag_set n ↔ ∃ k, s = tag k ∧ (k < n)%nat.
Proof.
  unfold tag_set. rewrite elem_of_list_to_set, list_elem_of_fmap.
  split; intros (k & -> & Hk); exists k; (split; [done|]); apply elem_of_seq in Hk || apply elem_of_seq; lia.
Qed.

Lemma size_tag_set n : size (tag_set n) = n.
Proof.
  unfold tag_set. rewrite size_list_to_set, length_fmap, length_seq; [done|].
  apply NoDup_fmap_2; [apply _|apply NoDup_seq].
Qed.

Lemma jaccard_tag_sets n :
  Z.of_nat n = 16777216%Z →
  tag_set (S n) ≠ tag_set n ∧ SFeqb (jaccard (tag_set (S n)) (tag_set n)) f_zero = true.
Proof.
  intros Hn.
  assert (Hsub : tag_set n ⊆ tag_set (S n)).
  { intros s (k & -> & Hk)%elem_of_tag_set. apply elem_of_tag_set. exists k. split; [done|lia]. }
  assert (Hu : tag_set (S n) ∪ tag_set n = tag_set (S n)) by set_solver.
  assert (Hi : tag_set (S n) ∩ tag_set n = tag_set n) by set_solver.
  assert (Hne : tag_set (S n) ≠ tag_set n).
  { intros E. pose proof (size_tag_set (S n)) as H1. rewrite E, size_tag_set in H1. lia. }
  split; [done|].
  rewrite jaccard_unfold.
  - rewrite Hu, Hi, !size_tag_set, Nat2Z.inj_succ, Hn. done.
  - rewrite Hu, size_tag_set, Nat2Z.inj_succ, Hn. done.
  - intros [E1 E2]. apply Hne. by rewrite E1, E2.
Qed.

(** C2 as stated fails for very large sets: the 2^24 + 1 tags ["t"], ["xt"],
    ... and the first 2^24 of them are different sets at distance 0, both
    sizes converting to the same [float]. *)
Lemma jaccard_zero_not_identical :
  tag_set (S (Z.to_nat 16777216)) ≠ tag_set (Z.to_nat 16777216)
  ∧ SFeqb (jaccard (tag_set (S (Z.to_nat 16777216))) (tag_set (Z.to_nat 16777216))) f_zero
    = true.
Proof. apply (jaccard_tag_sets (Z.to_nat 16777216)). apply Z2Nat.id. lia. Qed.

(** ** Aggregation *)

Lemma total_nonneg f rs : Forall (λ r, (0 ≤ f r)%Z) rs → (0 ≤ total f rs)%Z.
Proof. unfold total. induction 1; cbn; lia. Qed.

Lemma wrap_ll_small z : (0 ≤ z ≤ LLONG_MAX)%Z → wrap_ll z = z.
Proof. unfold wrap_ll, LLONG_MAX. intros Hz. rewrite Z.mod_small; lia. Qed.

Lemma sum_loop_spec videos nbrs todo i sv sl sc rs :
  Forall2 (λ n r, videos !! Node.idx n = Some r) (take todo (drop i nbrs)) rs →
  length rs = todo →
  Forall non_negative rs →
  (0 ≤ sv)%Z → (0 ≤ sl)%Z → (0 ≤ sc)%Z →
  (sv + total Rec.views rs ≤ LLONG_MAX)%Z →
  (sl + total Rec.likes rs ≤ LLONG_MAX)%Z →
  (sc + total Rec.comments rs ≤ LLONG_MAX)%Z →
  sum_loop videos nbrs todo i (sv, sl, sc)
  = Ok (sv + total Rec.views rs, sl + total Rec.likes rs, sc + total Rec.comments rs)%Z.
Proof.
  revert i sv sl sc rs. induction todo as [|todo IH]; intros i sv sl sc rs Hsel Hlen Hpos.
  { destruct rs; [|done]. intros. cbn. by rewrite !Z.add_0_r. }
  destruct rs as [|r rs]; [done|]. apply Forall_cons in Hpos as [(Hv & Hl & Hc) Hpos].
  intros Hsv Hsl Hsc Hmv Hml Hmc. cbn [total foldr] in *.
  fold (total Rec.views rs) in *. fold (total Rec.likes rs) in *.
  fold (total Rec.comments rs) in *.
  pose proof (total_nonneg Rec.views rs) as Tv.
  pose proof (total_nonneg Rec.likes rs) as Tl.
  pose proof (total_nonneg Rec.comments rs) as Tc.
  specialize (Tv ltac:(eapply Forall_impl; [exact Hpos|by intros ? (? & ? & ?)])).
  specialize (Tl ltac:(eapply Forall_impl; [exact Hpos|by intros ? (? & ? & ?)])).
  specialize (Tc ltac:(eapply Forall_impl; [exact Hpos|by intros ? (? & ? & ?)])).
  destruct (nbrs !! i) as [n|] eqn:Hi.
  - rewrite (drop_S _ _ _ Hi) in Hsel. cbn [take] in Hsel.
    apply Forall2_cons in Hsel as [Hr Hsel].
    cbn [sum_loop]. unfold at_index. rewrite Hi. cbn. rewrite Hr. cbn.
    rewrite !wrap_ll_small by lia.
    rewrite (IH (S i) _ _ _ rs); [|done|by injection Hlen|done|lia..].
    f_equal. f_equal; [f_equal|]; lia.
  - apply lookup_ge_None in Hi. rewrite drop_ge in Hsel by done.
    by apply Forall2_nil_inv_l in Hsel.
Qed.

Lemma ll_div_spec a K :
  (1 ≤ K)%Z → (0 ≤ a ≤ LLONG_MAX)%Z → ll_div a K = Ok (a `div` K)%Z.
Proof.
  intros HK Ha. unfold ll_div. destruct (Z.eqb_spec K 0); [lia|].
  rewrite Z.quot_div_nonneg by lia. f_equal. apply wrap_ll_small.
  split; [apply Z.div_pos; lia|].
  assert (a `div` K ≤ a)%Z; [|lia]. apply Z.div_le_upper_bound; nia.
Qed.

(** C4, amended. For K >= 1 selected records with non-negative metrics whose
    three sums fit a [long long], the aggregation returns for each metric
    the floor of its sum divided by K; for K = 1 these are the three metrics
    of the selected record. *)
Theorem aggregate_floor_average
    (videos : list Rec.t) (nbrs : list Node.t) (K : Z) (selected : list Rec.t) :
  (1 ≤ K)%Z →
  Forall2 (λ n r, videos !! Node.idx n = Some r) (take (Z.to_nat K) nbrs) selected →
  length selected = Z.to_nat K →
  Forall non_negative selected →
  (total Rec.views selected ≤ LLONG_MAX)%Z →
  (total Rec.likes selected ≤ LLONG_MAX)%Z →
  (total Rec.comments selected ≤ LLONG_MAX)%Z →
  aggregate videos nbrs K
  = Ok (total Rec.views selected `div` K,
        total Rec.likes selected `div` K,
        total Rec.comments selected `div` K)%Z
  ∧ (K = 1%Z → ∀ r, selected = [r] →
     aggregate videos nbrs K = Ok (Rec.views r, Rec.likes r, Rec.comments r)).
Proof.
  intros HK Hsel Hlen Hpos Hv Hl Hc.
  assert (Hagg : aggregate videos nbrs K
    = Ok (total Rec.views selected `div` K,
          total Rec.likes selected `div` K,
          total Rec.comments selected `div` K)%Z).
  { unfold aggregate.
    rewrite (sum_loop_spec videos nbrs (Z.to_nat K) 0 0 0 0 selected);
      [|done|done|done|lia..].
    cbn. rewrite !Z.add_0_l.
    pose proof (total_nonneg Rec.views selected) as Tv.
    pose proof (total_nonneg Rec.likes selected) as Tl.
    pose proof (total_nonneg Rec.comments selected) as Tc.
    specialize (Tv ltac:(eapply Forall_impl; [exact Hpos|by intros ? (? & ? & ?)])).
    specialize (Tl ltac:(eapply Forall_impl; [exact Hpos|by intros ? (? & ? & ?)])).
    specialize (Tc ltac:(eapply Forall_impl; [exact Hpos|by intros ? (? & ? & ?)])).
    rewrite !ll_div_spec by lia. done. }
  split; [done|]. intros -> r ->. rewrite Hagg. cbn.
  by rewrite !Z.add_0_r, !Z.div_1_r.
Qed.

Lemma aggregate_floor_average_witness :
  aggregate scenario [Node.mk f_zero 1; Node.mk f_half 0; Node.mk f_one 2] 2
  = Ok (150, 15, 1)%Z.
Proof.
  apply (aggregate_floor_average scenario
           [Node.mk f_zero 1; Node.mk f_half 0; Node.mk f_one 2] 2
           [Rec.mk "B" {[ "cat" ]} 200 20 2; Rec.mk "A" {[ "cat"; "dance" ]} 100 10 1]%string%Z).
  - lia.
  - repeat constructor.
  - reflexivity.
  - repeat constructor; cbn; lia.
  - vm_compute. discriminate.
  - vm_compute. discriminate.
  - vm_compute. discriminate.
Defined.

(** C4 as stated fails when a sum leaves the range of [long long]: two
    records of 2^62 views each average to -2^62, not to 2^62. *)
Lemma aggregate_overflows :
  Forall non_negative two_popular
  ∧ Forall (λ r, in_ll (Rec.views r) ∧ in_ll (Rec.likes r) ∧ in_ll (Rec.comments r)) two_popular
  ∧ aggregate two_popular two_neighbours 2 = Ok (-4611686018427387904, 0, 0)%Z
  ∧ (total Rec.views two_popular `div` 2 = 4611686018427387904)%Z.
Proof.
  split_and!; [| |by vm_compute..].
  - repeat constructor; cbn; lia.
  - repeat constructor; vm_compute; discriminate.
Qed.

(** ** The neighbours of a query *)

Lemma computeNeighbors_lookup videos qTags i :
  computeNeighbors videos qTags !! i
  = (λ v, Node.mk (jaccard qTags (Rec.tags v)) i) <$> videos !! i.
Proof. unfold computeNeighbors. by rewrite list_lookup_imap. Qed.

Lemma computeNeighbors_length videos qTags :
  length (computeNeighbors videos qTags) = length videos.
Proof. apply length_imap. Qed.

Lemma computeNeighbors_elem videos qTags n :
  n ∈ computeNeighbors videos qTags →
  ∃ v, videos !! Node.idx n = Some v ∧ Node.dist n = jaccard qTags (Rec.tags v).
Proof.
  intros [i Hi]%list_elem_of_lookup. rewrite computeNeighbors_lookup in Hi.
  destruct (videos !! i) as [v|] eqn:Hv; [|done]. injection Hi as <-. by exists v.
Qed.

Lemma computeNeighbors_no_nan videos qTags :
  sizes_fit videos qTags → no_nan (computeNeighbors videos qTags).
Proof.
  intros Hfit. apply Forall_forall. intros n (v & Hv & ->)%computeNeighbors_elem.
  apply jaccard_not_nan. unfold sizes_fit in Hfit. rewrite Forall_forall in Hfit.
  apply Hfit. by eapply list_elem_of_lookup_2.
Qed.

Lemma sum_loop_in_bounds videos nbrs todo i sums :
  (∀ j, (i ≤ j < i + todo)%nat →
        ∃ n r, nbrs !! j = Some n ∧ videos !! Node.idx n = Some r) →
  ∃ sums', sum_loop videos nbrs todo i sums = Ok sums'.
Proof.
  revert i sums. induction todo as [|todo IH]; intros i [[sv sl] sc] Hin; [by eexists|].
  destruct (Hin i ltac:(lia)) as (n & r & Hn & Hr).
  cbn [sum_loop]. unfold at_index. rewrite Hn. cbn. rewrite Hr. cbn.
  apply IH. intros j Hj. apply Hin. lia.
Qed.

Lemma report_loop_in_bounds videos nbrs todo i :
  (∀ j, (i ≤ j < i + todo)%nat →
        ∃ n r, nbrs !! j = Some n ∧ videos !! Node.idx n = Some r) →
  snd (report_loop videos nbrs todo i) = None.
Proof.
  revert i. induction todo as [|todo IH]; intros i Hin; [done|].
  destruct (Hin i ltac:(lia)) as (n & r & Hn & Hr).
  cbn [report_loop]. unfold at_index. rewrite Hn. cbn. rewrite Hr. cbn.
  specialize (IH (S i) ltac:(intros j Hj; apply Hin; lia)).
  by destruct (report_loop videos nbrs todo (S i)).
Qed.

(** The report loop reads what the summation loop has read. *)
Lemma sum_loop_report_loop videos nbrs todo i sums sums' :
  sum_loop videos nbrs todo i sums = Ok sums' →
  snd (report_loop videos nbrs todo i) = None.
Proof.
  revert i sums. induction todo as [|todo IH]; intros i [[sv sl] sc]; [done|].
  cbn [sum_loop report_loop]. unfold at_index.
  destruct (nbrs !! i) as [n|]; [|done]. cbn.
  destruct (videos !! Node.idx n) as [r|]; [|done]. cbn.
  intros Hs. specialize (IH _ _ Hs).
  by destruct (report_loop videos nbrs todo (S i)).
Qed.

(** C9. Every neighbour of the distance step holds an index below the
    number of records; the selection keeps a K of at most [min K N], and the
    two loops over the first K neighbours find every neighbour and every
    record they ask for. For K >= 1 and at most [INT_MAX] records the kept K
    is [min K N]. *)
Theorem lookups_in_bounds
    (alg : StdAlgorithm) (K : Z) (videos : list Rec.t) (qTags : gset string) :
  sizes_fit videos qTags →
  (∀ n, n ∈ computeNeighbors videos qTags → (Node.idx n < length videos)%nat)
  ∧ (∀ K' v, select alg K (computeNeighbors videos qTags) = Ok (K', v) →
       (K' ≤ Z.min K (Z.of_nat (length videos)))%Z
       ∧ (∀ i, (i < Z.to_nat K')%nat →
            ∃ n r, v !! i = Some n ∧ videos !! Node.idx n = Some r)
       ∧ (∃ sums, sum_loop videos v (Z.to_nat K') 0 (0, 0, 0)%Z = Ok sums)
       ∧ snd (report_loop videos v (Z.to_nat K') 0) = None)
  ∧ ((1 ≤ K)%Z → (Z.of_nat (length videos) ≤ INT_MAX)%Z →
     ∃ v, select alg K (computeNeighbors videos qTags)
          = Ok (Z.min K (Z.of_nat (length videos)), v)).
Proof.
  intros Hfit.
  assert (Hidx : ∀ n, n ∈ computeNeighbors videos qTags → (Node.idx n < length videos)%nat).
  { intros n (v & Hv & _)%computeNeighbors_elem. by eapply lookup_lt_Some. }
  split_and!; [done| |].
  - intros K' v Hsel.
    apply select_spec in Hsel as (-> & HK & Hp & _); [|by apply computeNeighbors_no_nan].
    rewrite computeNeighbors_length in HK |- *.
    pose proof (clamp_le K (length videos)) as [? ?].
    assert (Hin : ∀ i, (i < Z.to_nat (clamp K (length videos)))%nat →
              ∃ n r, v !! i = Some n ∧ videos !! Node.idx n = Some r).
    { intros i Hi.
      destruct (lookup_lt_is_Some_2 v i) as [n Hn].
      { rewrite (Permutation_length Hp), computeNeighbors_length. lia. }
      assert (Hn' : n ∈ computeNeighbors videos qTags).
      { rewrite <-Hp. by eapply list_elem_of_lookup_2. }
      destruct (lookup_lt_is_Some_2 videos (Node.idx n) (Hidx n Hn')) as [r Hr].
      by exists n, r. }
    split_and!; [lia|done| |].
    + apply sum_loop_in_bounds. intros j Hj. apply Hin. lia.
    + apply report_loop_in_bounds. intros j Hj. apply Hin. lia.
  - intros HK HN. eexists.
    rewrite select_ok; rewrite computeNeighbors_length, clamp_min by done; [done|lia].
Qed.

Lemma lookups_in_bounds_witness :
  (∀ n, n ∈ computeNeighbors scenario {["cat"%string]} → (Node.idx n < length scenario)%nat)
  ∧ (∀ K' v, select ref_alg 2 (computeNeighbors scenario {["cat"%string]}) = Ok (K', v) →
       (K' ≤ Z.min 2 (Z.of_nat (length scenario)))%Z
       ∧ (∀ i, (i < Z.to_nat K')%nat →
            ∃ n r, v !! i = Some n ∧ scenario !! Node.idx n = Some r)
       ∧ (∃ sums, sum_loop scenario v (Z.to_nat K') 0 (0, 0, 0)%Z = Ok sums)
       ∧ snd (report_loop scenario v (Z.to_nat K') 0) = None)
  ∧ ((1 ≤ 2)%Z → (Z.of_nat (length scenario) ≤ INT_MAX)%Z →
     ∃ v, select ref_alg 2 (computeNeighbors scenario {["cat"%string]})
          = Ok (Z.min 2 (Z.of_nat (length scenario)), v)).
Proof.
  apply (lookups_in_bounds ref_alg 2 scenario {["cat"%string]}).
  repeat constructor; vm_compute; reflexivity.
Defined.

(** ** The scenario of the specification *)

Lemma scenario_neighbours :
  computeNeighbors scenario {["cat"%string]} = three_neighbours.
Proof. vm_compute. reflexivity. Qed.

Lemma scenario_select alg :
  select alg 2 three_neighbours
  = Ok (2%Z, [Node.mk f_zero 1; Node.mk f_half 0; Node.mk f_one 2]).
Proof.
  assert (Hnan : no_nan three_neighbours) by (repeat constructor; discriminate).
  rewrite select_ok by (vm_compute; discriminate).
  change (clamp 2 (length three_neighbours)) with 2%Z.
  set (v := std_sort alg _ _). f_equal. f_equal.
  destruct (select_spec alg 2 three_neighbours 2 v Hnan)
    as (_ & _ & Hp & Hs & Hpart); [by rewrite select_ok by (vm_compute; discriminate)|].
  change (Z.to_nat 2) with 2%nat in *.
  assert (Hlen : length v = 3%nat) by (by rewrite (Permutation_length Hp)).
  apply (StronglySorted_unique_strong dist_le).
  - intros a b Ha Hb Hab Hba. rewrite Hp in Ha.
    unfold three_neighbours in Ha. set_unfold.
    destruct Ha as [->|[->|[->|[]]]]; destruct Hb as [->|[->|[->|[]]]];
      try done; by vm_compute in Hab, Hba.
  - rewrite <-(take_drop 2 v). apply StronglySorted_app_2; [done|done|].
    destruct (drop 2 v) as [|c [|d l]] eqn:Hd; [constructor|by repeat constructor|].
    apply (f_equal length) in Hd. rewrite length_drop, Hlen in Hd. done.
  - repeat constructor; by vm_compute.
  - rewrite Hp. unfold three_neighbours.
    by rewrite (Permutation_swap (Node.mk f_half 0) (Node.mk f_zero 1)).
Qed.

(** C5. On the three records A, B, C with the query [{cat}] and K = 2, the
    distances are 0.5, 0 and 1, the two nearest are B (0) then A (0.5), and
    the prediction is 150 views, 15 likes and 1 comment. *)
Theorem scenario_prediction (alg : StdAlgorithm) :
  Node.dist <$> computeNeighbors scenario {["cat"%string]} = [f_half; f_zero; f_one]
  ∧ selectTopK alg 2 (computeNeighbors scenario {["cat"%string]})
    = Ok [Node.mk f_zero 1; Node.mk f_half 0]
  ∧ knn alg 2 scenario {["cat"%string]}
    = Build_run (Returned 0)
        [ Predicted 150 15 1; TopHeader 2;
          Neighbour 1 "B" f_zero 200 20 2;
          Neighbour 2 "A" f_half 100 10 1 ]
        None.
Proof.
  split_and!.
  - by rewrite scenario_neighbours.
  - unfold selectTopK. by rewrite scenario_neighbours, scenario_select.
  - unfold knn. rewrite scenario_neighbours, scenario_select.
    vm_compute. reflexivity.
Qed.

(** ** The runs of [main] *)

Lemma knn_no_partial_output alg K videos qTags :
  ended (knn alg K videos qTags) ≠ Returned 0 → stdout (knn alg K videos qTags) = [].
Proof.
  unfold knn. destruct (select alg K _) as [[K' v]|e]; [|done].
  unfold aggregate.
  destruct (sum_loop videos v (Z.to_nat K') 0 (0, 0, 0)%Z) as [[[sv sl] sc]|e] eqn:Hs; [|done].
  cbn. destruct (ll_div sv K'); [|done]. cbn. destruct (ll_div sl K'); [|done].
  cbn. destruct (ll_div sc K'); [|done]. cbn.
  pose proof (sum_loop_report_loop _ _ _ _ _ _ Hs) as Hr.
  destruct (report_loop videos v (Z.to_nat K') 0) as [lines e]. cbn in Hr. subst e.
  cbn. done.
Qed.

Lemma main_no_partial_output alg fs argv :
  ended (main alg fs argv) ≠ Returned 0 → stdout (main alg fs argv) = [].
Proof.
  unfold main. destruct argv as [|prog [|arg1 [|arg2 [|arg3 [|extra argv]]]]]; try done.
  destruct (atoi arg1 <=? 0)%Z; [done|].
  destruct (load_dataset (fs arg2)) as [videos|f|e]; [|done..].
  case_decide; [done|]. apply knn_no_partial_output.
Qed.

(** C6, amended. When the K read by [atoi] is not positive, or the query has
    no tag left after splitting, the run does not return 0 and writes
    nothing to the report. It is an invalid-argument failure when K is not
    positive, and, for a positive K, when the dataset has been loaded;
    with a positive K the dataset is loaded before the query is looked at,
    and a dataset that fails to load ends the run first, with its own error.
    No run that fails has written any part of the report. *)
Theorem no_report_on_invalid_input
    (alg : StdAlgorithm) (fs : string → option string) (prog arg1 arg2 arg3 : string) :
  (atoi arg1 ≤ 0)%Z ∨ (list_to_set (split arg3 ";"%char) : gset string) = ∅ →
  stdout (main alg fs [prog; arg1; arg2; arg3]) = []
  ∧ ended (main alg fs [prog; arg1; arg2; arg3]) ≠ Returned 0
  ∧ ((atoi arg1 ≤ 0)%Z →
     ended (main alg fs [prog; arg1; arg2; arg3]) = Returned 1
     ∧ stderr (main alg fs [prog; arg1; arg2; arg3]) = Some K_must_be_positive
     ∧ kind_of K_must_be_positive = InvalidArgument)
  ∧ ((0 < atoi arg1)%Z →
     match load_dataset (fs arg2) with
     | Loaded _ =>
         ended (main alg fs [prog; arg1; arg2; arg3]) = Returned 1
         ∧ stderr (main alg fs [prog; arg1; arg2; arg3]) = Some no_query_tag
         ∧ kind_of no_query_tag = InvalidArgument
     | LoadFailed f =>
         ended (main alg fs [prog; arg1; arg2; arg3]) = Returned 1
         ∧ stderr (main alg fs [prog; arg1; arg2; arg3]) = Some f
         ∧ kind_of f = LoadError
     | LoadThrew e =>
         ended (main alg fs [prog; arg1; arg2; arg3]) = Terminated e
     end)
  ∧ (∀ alg' fs' argv',
       ended (main alg' fs' argv') ≠ Returned 0 → stdout (main alg' fs' argv') = []).
Proof.
  intros Hbad. cbn [main].
  destruct (Z.leb_spec (atoi arg1) 0) as [HK|HK].
  { split_and!; [done|done|done|lia|apply main_no_partial_output]. }
  destruct Hbad as [?|Hq]; [lia|].
  destruct (load_dataset (fs arg2)) as [videos|f|e] eqn:Hload.
  - rewrite decide_True by done.
    split_and!; [done|done|lia|done|apply main_no_partial_output].
  - split_and!; [done|done|lia| |apply main_no_partial_output].
    intros _. split_and!; [done|done|].
    destruct (fs arg2) as [content|]; cbn in Hload; [|by injection Hload as <-].
    destruct (parse_rows _) as [[|r vs]|e]; [|done..]. by injection Hload as <-.
  - split_and!; [done|done|lia|done|apply main_no_partial_output].
Qed.

Lemma no_report_on_invalid_input_witness :
  stdout (main ref_alg (λ _, Some "1,a;b,10,20,30"%string) ["knn"; "2"; "videos.csv"; ";;"]%string) = []
  ∧ ended (main ref_alg (λ _, Some "1,a;b,10,20,30"%string) ["knn"; "2"; "videos.csv"; ";;"]%string)
    ≠ Returned 0.
Proof.
  pose proof (no_report_on_invalid_input ref_alg (λ _, Some "1,a;b,10,20,30"%string)
                "knn" "2" "videos.csv" ";;") as H.
  destruct H as (H1 & H2 & _); [right; vm_compute; reflexivity|]. by split.
Defined.

(** C6 as stated fails in the order of the checks: with a positive K, an
    empty query and a dataset that cannot be opened, the run fails with the
    load error, not as an invalid argument. *)
Lemma empty_query_load_error :
  (0 < atoi "3")%Z
  ∧ (list_to_set (split ";;" ";"%char) : gset string) = ∅
  ∧ stderr (main ref_alg (λ _, None) ["knn"; "3"; "missing.csv"; ";;"]%string)
    = Some cannot_open_dataset
  ∧ kind_of cannot_open_dataset = LoadError.
Proof. by vm_compute. Qed.

Lemma loaded_record_fields_witness :
  load_dataset (Some shifted_row) = Loaded [shifted_record]
  ∧ Rec.id shifted_record ≠ EmptyString.
Proof.
  assert (Hload : load_dataset (Some shifted_row) = Loaded [shifted_record])
    by (vm_compute; reflexivity).
  split; [exact Hload|].
  apply (loaded_record_fields (Some shifted_row) [shifted_record] shifted_record Hload).
  apply list_elem_of_here.
Defined.

(** * Further properties of the code *)

(** ** [split]: further properties *)

Lemma fields_cons delim s : ∃ f fs, fields delim s = f :: fs.
Proof.
  induction s as [|c s (f & fs & IH)]; [by eexists _, _|]. cbn [fields].
  destruct (Ascii.eqb c delim); [by eexists _, _|]. rewrite IH. by eexists _, _.
Qed.

Lemma getlines_nil delim s : getlines delim s = [] → s = EmptyString.
Proof.
  destruct s as [|c s]; [done|]. cbn [getlines].
  destruct (Ascii.eqb c delim); [done|]. by destruct (getlines delim s).
Qed.

Lemma fields_getlines delim s :
  fields delim s = getlines delim s ∨ fields delim s = getlines delim s ++ [EmptyString].
Proof.
  induction s as [|c s IH]; [by right|]. cbn [getlines fields].
  destruct (Ascii.eqb c delim).
  { destruct IH as [->| ->]; [by left|by right]. }
  destruct (getlines delim s) as [|buf bufs] eqn:Hg.
  - apply getlines_nil in Hg as ->. by left.
  - destruct IH as [->| ->]; [by left|by right].
Qed.

Lemma split_fields s delim :
  split s delim = filter (λ buf, buf ≠ EmptyString) (fields delim s).
Proof.
  unfold split. destruct (fields_getlines delim s) as [->| ->]; [done|].
  rewrite filter_app, filter_cons, decide_False by (by intros []).
  by rewrite filter_nil, app_nil_r.
Qed.

Lemma fields_app delim s t :
  fields delim (s +:+ String delim t) = fields delim s ++ fields delim t.
Proof.
  induction s as [|c s IH].
  - change (EmptyString +:+ String delim t) with (String delim t).
    cbn [fields]. by rewrite Ascii.eqb_refl.
  - change (String c s +:+ String delim t) with (String c (s +:+ String delim t)).
    cbn [fields]. rewrite IH. destruct (Ascii.eqb c delim); [done|].
    by destruct (fields_cons delim s) as (f & fs & ->).
Qed.

Lemma fields_no_delim delim s : Forall (λ f, contains delim f = false) (fields delim s).
Proof.
  induction s as [|c s IH]; [by repeat constructor|]. cbn [fields].
  destruct (Ascii.eqb c delim) eqn:Hc; [by constructor|].
  destruct (fields_cons delim s) as (f & fs & Hf). rewrite Hf in IH |- *.
  apply Forall_cons in IH as [Hf' Hfs]. constructor; [|done]. cbn. by rewrite Hc.
Qed.

Lemma fields_concat delim s :
  foldr String.append EmptyString (fields delim s) = without delim s.
Proof.
  induction s as [|c s IH]; [done|]. cbn [fields without].
  destruct (Ascii.eqb c delim); [done|].
  destruct (fields_cons delim s) as (f & fs & Hf). rewrite Hf in IH |- *.
  by rewrite <-IH.
Qed.

Lemma concat_filter_nonempty l :
  foldr String.append EmptyString (filter (λ buf, buf ≠ EmptyString) l)
  = foldr String.append EmptyString l.
Proof.
  induction l as [|x l IH]; [done|]. rewrite filter_cons.
  destruct (decide (x ≠ EmptyString)) as [Hx|Hx]; cbn; rewrite IH; [done|].
  apply dec_stable in Hx. by subst x.
Qed.

(** X1. No piece that [split] returns is empty or holds the delimiter. *)
Theorem split_pieces (s : string) (delim : ascii) (piece : string) :
  piece ∈ split s delim → piece ≠ EmptyString ∧ contains delim piece = false.
Proof.
  rewrite split_fields. intros [Hne Hin]%list_elem_of_filter. split; [done|].
  pose proof (fields_no_delim delim s) as Hall. rewrite Forall_forall in Hall. auto.
Qed.

Lemma split_pieces_witness :
  "a;b"%string ≠ EmptyString ∧ contains ","%char "a;b" = false.
Proof.
  apply (split_pieces "1,,a;b,10" ","%char "a;b").
  vm_compute. apply list_elem_of_further, list_elem_of_here.
Defined.

Lemma split_append s t delim :
  split (s +:+ String delim t) delim = split s delim ++ split t delim.
Proof. by rewrite !split_fields, fields_app, filter_app. Qed.

(** X2. Splitting distributes over the delimiter: the pieces of [s], the
    delimiter, [t] are the pieces of [s] followed by the pieces of [t]. So a
    delimiter at either end, or repeated, adds no piece. *)
Theorem split_app (s t : string) (delim : ascii) :
  split (s +:+ String delim t) delim = split s delim ++ split t delim
  ∧ split (String delim s) delim = split s delim
  ∧ split (s +:+ String delim EmptyString) delim = split s delim.
Proof.
  split_and!; [apply split_append| |].
  - change (String delim s) with (EmptyString +:+ String delim s).
    by rewrite split_append.
  - by rewrite split_append, app_nil_r.
Qed.

(** X3. [split] loses nothing but delimiters: its pieces, put together, are
    the string without its delimiters; it returns no piece exactly when the
    string holds nothing but delimiters. *)
Theorem split_keeps_the_rest (s : string) (delim : ascii) :
  foldr String.append EmptyString (split s delim) = without delim s
  ∧ (split s delim = [] ↔ without delim s = EmptyString).
Proof.
  assert (Hcat : foldr String.append EmptyString (split s delim) = without delim s).
  { by rewrite split_fields, concat_filter_nonempty, fields_concat. }
  split; [done|]. rewrite <-Hcat. split; [by intros ->|].
  pose proof (split_nonempty s delim) as Hne.
  destruct (split s delim) as [|x l]; [done|].
  apply Forall_cons in Hne as [Hx _]. cbn. by destruct x.
Qed.

(** ** Numerals *)

Lemma pretty_N_char_digit d :
  (d < 10)%N → isdigit (pretty_N_char d) = true
               ∧ digit_value (pretty_N_char d) = Z.of_N d.
Proof.
  intros Hd.
  assert (d = 0 ∨ d = 1 ∨ d = 2 ∨ d = 3 ∨ d = 4 ∨ d = 5 ∨ d = 6 ∨ d = 7 ∨ d = 8 ∨ d = 9)%N
    as Hc by lia.
  repeat (destruct Hc as [->|Hc]; [done|]). by subst d.
Qed.

Lemma append_assoc (s t u : string) : s +:+ t +:+ u = (s +:+ t) +:+ u.
Proof.
  induction s as [|c s IH]; [done|].
  change (String c (s +:+ t +:+ u) = String c ((s +:+ t) +:+ u)). by rewrite IH.
Qed.

Lemma append_empty_r (s : string) : s +:+ EmptyString = s.
Proof.
  induction s as [|c s IH]; [done|].
  change (String c (s +:+ EmptyString) = String c s). by rewrite IH.
Qed.

Lemma pretty_N_go_app x s : pretty_N_go x s = pretty_N_go x EmptyString +:+ s.
Proof.
  revert s. induction (N.lt_wf_0 x) as [x _ IH]; intros s.
  assert (x = 0 ∨ 0 < x)%N as [->|Hx] by lia; [done|].
  rewrite (pretty_N_go_step x s), (pretty_N_go_step x EmptyString) by done.
  set (c := pretty_N_char (x `mod` 10)).
  rewrite (IH (x `div` 10)%N ltac:(by apply N.div_lt) (String c s)).
  rewrite (IH (x `div` 10)%N ltac:(by apply N.div_lt) (String c EmptyString)).
  by rewrite <-append_assoc.
Qed.

Lemma digits_value_stop s acc : starts_with_digit s = false → digits_value s acc = acc.
Proof. destruct s as [|c s]; [done|]. cbn. by intros ->. Qed.

Lemma digits_value_pretty_go x s :
  digits_value (pretty_N_go x s) 0 = digits_value s (Z.of_N x).
Proof.
  revert s. induction (N.lt_wf_0 x) as [x _ IH]; intros s.
  assert (x = 0 ∨ 0 < x)%N as [->|Hx] by lia; [done|].
  rewrite pretty_N_go_step, IH by (done || by apply N.div_lt).
  destruct (pretty_N_char_digit (x `mod` 10)%N) as [Hd Hv]; [by apply N.mod_lt|].
  cbn [digits_value]. rewrite Hd, Hv. f_equal.
  pose proof (N.div_mod x 10 ltac:(done)) as E.
  set (q := (x `div` 10)%N) in *. set (m := (x `mod` 10)%N) in *.
  clearbody q m. lia.
Qed.

Lemma pretty_N_go_head x s :
  (0 < x)%N → ∃ c r, pretty_N_go x s = String c r ∧ isdigit c = true.
Proof.
  revert s. induction (N.lt_wf_0 x) as [x _ IH]; intros s Hx.
  rewrite pretty_N_go_step by done.
  destruct (pretty_N_char_digit (x `mod` 10)%N) as [Hd _]; [by apply N.mod_lt|].
  destruct (N.eq_0_gt_0_cases (x `div` 10)) as [->|Hq].
  - rewrite pretty_N_go_0. by eexists _, _.
  - apply IH; [by apply N.div_lt|done].
Qed.

(** A numeral: the decimal digits of [z], after a minus sign when [z] is
    negative. *)
Lemma pretty_Z_shape z :
  ∃ c r, isdigit c = true
         ∧ digits_value (String c r) 0 = Z.abs z
         ∧ (∀ rest, digits_value (String c r +:+ rest) 0
                    = digits_value rest (Z.abs z))
         ∧ pretty z = if (z <? 0)%Z then String "-" (String c r) else String c r.
Proof.
  destruct z as [|p|p].
  - exists "0"%char, EmptyString. split_and!; try done.
  - destruct (pretty_N_go_head (N.pos p) EmptyString) as (c & r & Hp & Hc); [lia|].
    exists c, r. split_and!; [done| | |].
    + by rewrite <-Hp, digits_value_pretty_go.
    + intros rest. by rewrite <-Hp, <-pretty_N_go_app, digits_value_pretty_go.
    + done.
  - destruct (pretty_N_go_head (N.pos p) EmptyString) as (c & r & Hp & Hc); [lia|].
    exists c, r. split_and!; [done| | |].
    + by rewrite <-Hp, digits_value_pretty_go.
    + intros rest. by rewrite <-Hp, <-pretty_N_go_app, digits_value_pretty_go.
    + cbn. unfold pretty, pretty_Z, pretty, pretty_positive, pretty, pretty_N.
      rewrite decide_False by done. by rewrite Hp.
Qed.

Lemma isdigit_plain c :
  isdigit c = true → isspace c = false ∧ c ≠ "-"%char ∧ c ≠ "+"%char.
Proof. destruct c as [[] [] [] [] [] [] [] []]; done. Qed.

Lemma stoll_unsigned c r :
  isdigit c = true →
  stoll (String c r)
  = let v := digits_value (String c r) 0 in
    if (LLONG_MIN <=? v)%Z && (v <=? LLONG_MAX)%Z then Ok v else Throw out_of_range.
Proof. intros Hc. destruct c as [[] [] [] [] [] [] [] []]; try done. Qed.

Lemma stoll_negative c r :
  isdigit c = true →
  stoll (String "-" (String c r))
  = let v := (- digits_value (String c r) 0)%Z in
    if (LLONG_MIN <=? v)%Z && (v <=? LLONG_MAX)%Z then Ok v else Throw out_of_range.
Proof. intros Hc. destruct c as [[] [] [] [] [] [] [] []]; try done. Qed.

Lemma atoi_unsigned c r :
  isdigit c = true →
  atoi (String c r)
  = wrap_int (Z.max LLONG_MIN (Z.min (digits_value (String c r) 0) LLONG_MAX)).
Proof. intros Hc. destruct c as [[] [] [] [] [] [] [] []]; try done. Qed.

Lemma atoi_negative c r :
  isdigit c = true →
  atoi (String "-" (String c r))
  = wrap_int (Z.max LLONG_MIN (Z.min (- digits_value (String c r) 0) LLONG_MAX)).
Proof. intros Hc. destruct c as [[] [] [] [] [] [] [] []]; try done. Qed.

Lemma stoll_pretty z rest :
  starts_with_digit rest = false → in_ll z → stoll (pretty z +:+ rest) = Ok z.
Proof.
  intros Hrest [Hlo Hhi]. unfold LLONG_MIN, LLONG_MAX in Hlo, Hhi.
  destruct (pretty_Z_shape z) as (c & r & Hc & _ & Hv & ->).
  specialize (Hv rest). rewrite (digits_value_stop rest) in Hv by done.
  destruct (Z.ltb_spec z 0).
  - change (String "-" (String c r) +:+ rest) with (String "-" (String c r +:+ rest)).
    change (String c r +:+ rest) with (String c (r +:+ rest)) in *.
    rewrite stoll_negative, Hv by done. cbn zeta. unfold LLONG_MIN, LLONG_MAX.
    replace (- Z.abs z)%Z with z by lia.
    destruct (Z.leb_spec (-9223372036854775808) z); [|lia].
    by destruct (Z.leb_spec z 9223372036854775807); [|lia].
  - change (String c r +:+ rest) with (String c (r +:+ rest)) in *.
    rewrite stoll_unsigned, Hv by done. cbn zeta. unfold LLONG_MIN, LLONG_MAX.
    replace (Z.abs z) with z by lia.
    destruct (Z.leb_spec (-9223372036854775808) z); [|lia].
    by destruct (Z.leb_spec z 9223372036854775807); [|lia].
Qed.

Lemma atoi_pretty z rest :
  starts_with_digit rest = false → (-2147483648 ≤ z ≤ INT_MAX)%Z →
  atoi (pretty z +:+ rest) = z.
Proof.
  intros Hrest [Hlo Hhi]. unfold INT_MAX in Hhi.
  destruct (pretty_Z_shape z) as (c & r & Hc & _ & Hv & ->).
  specialize (Hv rest). rewrite (digits_value_stop rest) in Hv by done.
  assert (Hw : wrap_int z = z).
  { unfold wrap_int. rewrite Z.mod_small; lia. }
  destruct (Z.ltb_spec z 0).
  - change (String "-" (String c r) +:+ rest) with (String "-" (String c r +:+ rest)).
    change (String c r +:+ rest) with (String c (r +:+ rest)) in *.
    rewrite atoi_negative, Hv by done. unfold LLONG_MIN, LLONG_MAX.
    replace (Z.max _ _) with z by lia. done.
  - change (String c r +:+ rest) with (String c (r +:+ rest)) in *.
    rewrite atoi_unsigned, Hv by done. unfold LLONG_MIN, LLONG_MAX.
    replace (Z.max _ _) with z by lia. done.
Qed.

(** X4. A decimal numeral is read back as its number, by [std::stoll] for
    every [long long] and by [std::atoi] for every [int], and what follows
    the numeral is ignored when it does not start with a digit. *)
Theorem numeral_read (z : Z) (rest : string) :
  starts_with_digit rest = false →
  (in_ll z → stoll (pretty z +:+ rest) = Ok z)
  ∧ ((-2147483648 ≤ z ≤ INT_MAX)%Z → atoi (pretty z +:+ rest) = z).
Proof. intros Hrest. split; intros Hz; [by apply stoll_pretty|by apply atoi_pretty]. Qed.

Lemma numeral_read_witness :
  stoll "-42abc" = Ok (-42)%Z ∧ atoi "-42abc" = (-42)%Z.
Proof.
  destruct (numeral_read (-42) "abc") as [Hs Ha]; [reflexivity|].
  split; [apply Hs; vm_compute; split; discriminate|apply Ha; vm_compute; split; discriminate].
Defined.

(** ** The row loop: further properties *)

Lemma parse_rows_cons_usable line lines :
  usable line = true →
  parse_rows (line :: lines)
  = (r ← parse_row (split line ","%char); videos ← parse_rows lines; Ok (r :: videos)).
Proof.
  intros [Hne Hlen]%usable_spec. cbn [parse_rows].
  destruct (String.eqb_spec line EmptyString); [done|].
  by destruct (Nat.ltb_spec (length (split line ","%char)) 5); [lia|].
Qed.

Lemma parse_rows_cons_skipped line lines :
  usable line = false → parse_rows (line :: lines) = parse_rows lines.
Proof.
  intros Hu. rewrite parse_rows_usable, filter_cons, decide_False by (by rewrite Hu).
  by rewrite <-parse_rows_usable.
Qed.

Lemma parse_rows_app l1 l2 :
  parse_rows (l1 ++ l2)
  = (vs1 ← parse_rows l1; vs2 ← parse_rows l2; Ok (vs1 ++ vs2)).
Proof.
  induction l1 as [|line l1 IH]; cbn [app].
  { cbn. by destruct (parse_rows l2). }
  destruct (usable line) eqn:Hu.
  - rewrite !parse_rows_cons_usable, IH by done.
    destruct (parse_row _) as [r|e]; [|done]. cbn.
    destruct (parse_rows l1) as [vs1|e]; [|done]. cbn.
    by destruct (parse_rows l2).
  - by rewrite !parse_rows_cons_skipped.
Qed.

Lemma parse_rows_throw_iff lines e :
  Forall (λ line, usable line = true) lines →
  parse_rows lines = Throw e ↔
  ∃ before line after,
    lines = before ++ line :: after
    ∧ Forall (λ l, ∃ r, parse_row (split l ","%char) = Ok r) before
    ∧ parse_row (split line ","%char) = Throw e.
Proof.
  induction 1 as [|line lines Hu Hall IH].
  { split; [done|]. by intros ([|??] & ? & ? & ? & _). }
  rewrite parse_rows_cons_usable by done.
  destruct (parse_row (split line ","%char)) as [r|e'] eqn:Hrow; cbn.
  - destruct (parse_rows lines) as [vs|e'] eqn:Hrows; cbn.
    + split; [done|]. intros (before & l & after & Heq & Hok & Hbad).
      destruct before as [|b before]; cbn in Heq; injection Heq as -> ->.
      * congruence.
      * apply Forall_cons in Hok as [_ Hok].
        assert (Ok vs = Throw e :> res (list Rec.t)); [|done].
        apply IH. by exists before, l, after.
    + split.
      * intros [= ->]. destruct (proj1 IH eq_refl) as (before & l & after & -> & Hok & Hbad).
        exists (line :: before), l, after. split_and!; [done| |done].
        constructor; [by exists r|done].
      * intros (before & l & after & Heq & Hok & Hbad).
        destruct before as [|b before]; cbn in Heq; injection Heq as -> ->.
        { congruence. }
        apply Forall_cons in Hok as [_ Hok]. apply IH. by exists before, l, after.
  - split.
    + intros [= ->]. exists [], line, lines. by split_and!.
    + intros (before & l & after & Heq & Hok & Hbad).
      destruct before as [|b before]; cbn in Heq; injection Heq as -> ->.
      * congruence.
      * apply Forall_cons in Hok as [[r Hr] _]. congruence.
Qed.

(** X5. The loader is ended by an exception exactly at the first usable row
    with a metric that [std::stoll] rejects, whatever the rows after it: the
    rows before it have parsed, and the exception is the one of that row. *)
Theorem load_throws_at_first_bad_row (content : string) (e : exn) :
  load_dataset (Some content) = LoadThrew e ↔
  ∃ before line after,
    usable_rows content = before ++ line :: after
    ∧ Forall (λ l, ∃ r, parse_row (split l ","%char) = Ok r) before
    ∧ parse_row (split line ","%char) = Throw e.
Proof.
  rewrite <-parse_rows_throw_iff.
  - unfold usable_rows. rewrite <-parse_rows_usable. cbn [load_dataset].
    destruct (parse_rows _) as [[|r vs]|e']; split; (done || by intros [= ->]).
  - apply Forall_forall. intros l Hl. by apply list_elem_of_filter in Hl as [? _].
Qed.

Lemma parse_row_more cols more :
  (5 ≤ length cols)%nat → parse_row (cols ++ more) = parse_row cols.
Proof.
  intros Hlen. destruct cols as [|c0 [|c1 [|c2 [|c3 [|c4 cols]]]]]; cbn in Hlen; try lia.
  done.
Qed.

(** X6. Columns after the fifth are ignored: a row with at least five
    columns loads the same records with or without further text after a
    comma, wherever the row stands in the file. *)
Theorem extra_columns_ignored (before after : list string) (line more : string) :
  usable line = true →
  parse_rows (before ++ (line +:+ String "," more) :: after)
  = parse_rows (before ++ line :: after).
Proof.
  intros Hu. pose proof Hu as [Hne Hlen]%usable_spec.
  assert (Hu' : usable (line +:+ String "," more) = true).
  { apply usable_spec. split; [by destruct line|]. rewrite split_append, length_app. lia. }
  rewrite !parse_rows_app, !parse_rows_cons_usable by done.
  by rewrite split_append, parse_row_more.
Qed.

Lemma extra_columns_ignored_witness :
  parse_rows ["1,cat,10,20,30,note,2024"%string] = parse_rows ["1,cat,10,20,30"%string].
Proof.
  apply (extra_columns_ignored [] [] "1,cat,10,20,30" "note,2024"). reflexivity.
Defined.

(** ** Writing a dataset and loading it *)

Lemma contains_app delim s t :
  contains delim (s +:+ t) = contains delim s || contains delim t.
Proof.
  induction s as [|c s IH]; [done|].
  change (String c s +:+ t) with (String c (s +:+ t)). cbn [contains].
  by rewrite IH, orb_assoc.
Qed.

Lemma contains_concat delim sep l :
  contains delim sep = false → Forall (λ s, contains delim s = false) l →
  contains delim (String.concat sep l) = false.
Proof.
  intros Hsep. induction 1 as [|x l Hx Hl IH]; [done|].
  destruct l as [|y l]; [done|].
  change (String.concat sep (x :: y :: l)) with (x +:+ sep +:+ String.concat sep (y :: l)).
  by rewrite !contains_app, Hx, Hsep, IH.
Qed.

Lemma contains_pretty_go delim x s :
  isdigit delim = false → contains delim (pretty_N_go x s) = contains delim s.
Proof.
  intros Hd. revert s. induction (N.lt_wf_0 x) as [x _ IH]; intros s.
  destruct (N.eq_0_gt_0_cases x) as [->|Hx]; [done|].
  rewrite pretty_N_go_step, IH by (done || by apply N.div_lt). cbn [contains].
  destruct (pretty_N_char_digit (x `mod` 10)%N) as [Hc _]; [by apply N.mod_lt|].
  destruct (Ascii.eqb_spec (pretty_N_char (x `mod` 10)) delim) as [E|]; [|done].
  congruence.
Qed.

Lemma contains_pretty delim (z : Z) :
  isdigit delim = false → delim ≠ "-"%char → contains delim (pretty z) = false.
Proof.
  intros Hd Hm. destruct z as [|p|p].
  - change (pretty 0%Z) with "0"%string. cbn [contains].
    by destruct (Ascii.eqb_spec "0" delim) as [<-|].
  - unfold pretty, pretty_Z, pretty, pretty_positive, pretty, pretty_N.
    rewrite decide_False by done. by rewrite contains_pretty_go.
  - unfold pretty, pretty_Z, pretty, pretty_positive, pretty, pretty_N.
    rewrite decide_False by done.
    rewrite contains_app, contains_pretty_go by done. cbn [contains].
    by destruct (Ascii.eqb_spec "-" delim) as [<-|].
Qed.

Lemma pretty_nonempty (z : Z) : pretty z ≠ EmptyString.
Proof.
  destruct (pretty_Z_shape z) as (c & r & _ & _ & _ & ->). by destruct (z <? 0)%Z.
Qed.

Lemma read_until_field delim field rest :
  contains delim field = false →
  read_until delim (field +:+ String delim rest) = (field, rest).
Proof.
  induction field as [|c f IH]; cbn [contains].
  - intros _. change (EmptyString +:+ String delim rest) with (String delim rest).
    cbn. by rewrite Ascii.eqb_refl.
  - intros [Hc Hf]%orb_false_iff.
    change (String c f +:+ String delim rest) with (String c (f +:+ String delim rest)).
    cbn [read_until]. by rewrite Hc, (IH Hf).
Qed.

Lemma read_until_whole delim s :
  contains delim s = false → read_until delim s = (s, EmptyString).
Proof.
  induction s as [|c s IH]; [done|]. cbn [contains read_until].
  intros [Hc Hs]%orb_false_iff. by rewrite Hc, (IH Hs).
Qed.

Lemma parse_rows_nonempty lines :
  parse_rows (filter (λ line, line ≠ EmptyString) lines) = parse_rows lines.
Proof.
  induction lines as [|line lines IH]; [done|]. rewrite filter_cons.
  destruct (decide (line ≠ EmptyString)) as [Hne|Hne].
  - cbn [parse_rows]. by rewrite IH.
  - apply dec_stable in Hne. subst line. by rewrite IH.
Qed.

Lemma String_concat_nonempty sep x l :
  x ≠ EmptyString → String.concat sep (x :: l) ≠ EmptyString.
Proof. intros Hx. destruct l; [done|]. cbn. by destruct x. Qed.

Lemma csv_row_columns x :
  writable x →
  split (csv_row x) ","%char
  = [ Entry.id x; String.concat ";" (Entry.tags x);
      pretty (Entry.views x); pretty (Entry.likes x); pretty (Entry.comments x) ]
  ∧ split (String.concat ";" (Entry.tags x)) ";"%char = Entry.tags x
  ∧ contains newline (csv_row x) = false.
Proof.
  intros (Hid & Hidc & Hidn & Htags & Hall & _).
  assert (Hjoin : String.concat ";" (Entry.tags x) ≠ EmptyString).
  { destruct (Entry.tags x) as [|t ts]; [done|]. apply String_concat_nonempty.
    by apply Forall_cons in Hall as [[? _] _]. }
  assert (Hjc : ∀ d, d = ","%char ∨ d = newline →
                contains d (String.concat ";" (Entry.tags x)) = false).
  { intros d Hd. apply contains_concat; [by destruct Hd as [-> | ->]|].
    eapply Forall_impl; [exact Hall|]. intros t (_ & ? & _ & ?). by destruct Hd as [-> | ->]. }
  split_and!.
  - unfold csv_row. rewrite split_join.
    + rewrite !filter_cons, !decide_True by (done || apply pretty_nonempty). done.
    + repeat constructor; auto; by apply contains_pretty.
  - rewrite split_join.
    + clear -Hall. induction Hall as [|t ts [? _] _ IH]; [done|].
      by rewrite filter_cons, decide_True, IH.
    + eapply Forall_impl; [exact Hall|]. by intros t (_ & _ & ? & _).
  - unfold csv_row. apply contains_concat; [done|].
    repeat constructor; auto; by apply contains_pretty.
Qed.

Lemma csv_row_parses x :
  writable x →
  usable (csv_row x) = true
  ∧ parse_row (split (csv_row x) ","%char) = Ok (record_of x).
Proof.
  intros Hw. destruct (csv_row_columns x Hw) as (Hcols & Htags & _).
  destruct Hw as (Hid & _ & _ & _ & _ & Hv & Hl & Hc).
  split.
  - apply usable_spec. rewrite Hcols. split; [|done].
    intros E. by rewrite E in Hcols.
  - rewrite Hcols. unfold parse_row, at_index. cbn [lookup list_lookup mbind res_bind].
    pose proof (stoll_pretty (Entry.views x) EmptyString eq_refl Hv) as Sv.
    pose proof (stoll_pretty (Entry.likes x) EmptyString eq_refl Hl) as Sl.
    pose proof (stoll_pretty (Entry.comments x) EmptyString eq_refl Hc) as Sc.
    rewrite append_empty_r in Sv, Sl, Sc. rewrite Sv, Sl, Sc. cbn.
    by rewrite Htags.
Qed.

Lemma csv_rows_parse xs :
  Forall writable xs → parse_rows (csv_row <$> xs) = Ok (record_of <$> xs).
Proof.
  induction 1 as [|x xs Hx Hxs IH]; [done|]. rewrite !fmap_cons.
  destruct (csv_row_parses x Hx) as [Hu Hp].
  by rewrite parse_rows_cons_usable, Hp, IH.
Qed.

(** X7. A dataset written as a header line and one line
    [id,tag1;tag2;...,views,likes,comments] per row loads as the records of
    these rows, in the order of the file. *)
Theorem load_written_dataset (header : string) (xs : list Entry.t) :
  is_header header = true → contains newline header = false →
  xs ≠ [] → Forall writable xs →
  load_dataset (Some (csv_file header xs)) = Loaded (record_of <$> xs).
Proof.
  intros Hh Hn Hne Hall. unfold load_dataset, csv_file.
  set (body := String.concat (String newline EmptyString) (csv_row <$> xs)).
  assert (Hdata : data_part (header +:+ String newline body) = body).
  { unfold data_part, getline.
    destruct (header +:+ String newline body) eqn:E; [by destruct header|].
    by rewrite <-E, read_until_field, Hh. }
  rewrite Hdata. fold (split body newline) || idtac.
  assert (Hrows : parse_rows (getlines newline body) = Ok (record_of <$> xs)).
  { rewrite <-parse_rows_nonempty. change (filter _ (getlines newline body)) with (split body newline).
    unfold body. rewrite split_join.
    - rewrite parse_rows_nonempty. by apply csv_rows_parse.
    - apply Forall_fmap. eapply Forall_impl; [exact Hall|]. intros x Hx.
      by destruct (csv_row_columns x Hx) as (_ & _ & ?). }
  rewrite Hrows. by destruct xs.
Qed.

Lemma load_written_dataset_witness :
  load_dataset (Some (csv_file "id,tags,views,likes,comments" two_rows))
  = Loaded (record_of <$> two_rows).
Proof.
  apply (load_written_dataset "id,tags,views,likes,comments" two_rows).
  - reflexivity.
  - reflexivity.
  - discriminate.
  - repeat constructor; try discriminate; vm_compute; discriminate.
Defined.

(** ** The selected neighbours *)

Lemma computeNeighbors_idx videos qTags :
  Node.idx <$> computeNeighbors videos qTags = seq 0 (length videos).
Proof.
  unfold computeNeighbors. apply list_eq. intros i.
  rewrite list_lookup_fmap, list_lookup_imap.
  destruct (videos !! i) as [v|] eqn:Hv; cbn.
  - symmetry. apply lookup_seq. split; [done|]. by eapply lookup_lt_Some.
  - symmetry. apply lookup_seq_ge. by apply lookup_ge_None.
Qed.

Lemma selectTopK_spec alg K nbrs top :
  no_nan nbrs → selectTopK alg K nbrs = Ok top →
  ∃ K' v, select alg K nbrs = Ok (K', v) ∧ top = take (Z.to_nat K') v ∧ v ≡ₚ nbrs.
Proof.
  intros Hnan. unfold selectTopK.
  destruct (select alg K nbrs) as [[K' v]|e] eqn:Hsel; [|done]. cbn. intros [= <-].
  exists K', v. split_and!; [done..|].
  by destruct (select_spec alg K nbrs K' v Hnan Hsel) as (_ & _ & ? & _).
Qed.

(** X8. No record is selected twice, and each selected neighbour carries
    the index of a loaded record and the distance from the query to the tags
    of that very record. *)
Theorem selected_neighbours
    (alg : StdAlgorithm) (K : Z) (videos : list Rec.t) (qTags : gset string)
    (top : list Node.t) :
  sizes_fit videos qTags →
  selectTopK alg K (computeNeighbors videos qTags) = Ok top →
  NoDup (Node.idx <$> top)
  ∧ Forall (λ n, ∃ v, videos !! Node.idx n = Some v
                      ∧ Node.dist n = jaccard qTags (Rec.tags v)) top.
Proof.
  intros Hfit Htop.
  destruct (selectTopK_spec alg K _ top (computeNeighbors_no_nan _ _ Hfit) Htop)
    as (K' & v & _ & -> & Hp).
  split.
  - rewrite fmap_take. apply (sublist_NoDup _ (Node.idx <$> v)); [|apply sublist_take].
    rewrite Hp, computeNeighbors_idx. apply NoDup_seq.
  - apply Forall_take. rewrite Hp. apply Forall_forall. intros n Hn.
    by apply computeNeighbors_elem.
Qed.

Lemma selected_neighbours_witness :
  NoDup (Node.idx <$> [Node.mk f_zero 1; Node.mk f_half 0])
  ∧ Forall (λ n, ∃ v, scenario !! Node.idx n = Some v
                      ∧ Node.dist n = jaccard {["cat"%string]} (Rec.tags v))
           [Node.mk f_zero 1; Node.mk f_half 0].
Proof.
  apply (selected_neighbours ref_alg 2 scenario {["cat"%string]}).
  - repeat constructor; vm_compute; reflexivity.
  - vm_compute. reflexivity.
Defined.

(** ** The part of the result that the standard leaves open *)

Lemma SFeqb_canon x y : SFeqb x y = true → canon x = canon y.
Proof.
  unfold SFeqb.
  destruct x as [[]|[]| |[] mx ex], y as [[]|[]| |[] my ey];
    cbn; try done; intros H; compare_cases; by subst.
Qed.

Lemma prefix_unique v v' k nbrs :
  no_nan nbrs → no_ties nbrs → v ≡ₚ nbrs → v' ≡ₚ nbrs → (k ≤ length nbrs)%nat →
  StronglySorted dist_le (take k v) →
  (∀ a b, a ∈ take k v → b ∈ drop k v → dist_le a b) →
  StronglySorted dist_le (take k v') →
  (∀ a b, a ∈ take k v' → b ∈ drop k v' → dist_le a b) →
  take k v = take k v'.
Proof.
  intros Hnan Hties Hp Hp' Hk Hs Hpart Hs' Hpart'.
  assert (Hl : length v = length nbrs) by (by rewrite Hp).
  assert (Hl' : length v' = length nbrs) by (by rewrite Hp').
  pose proof (prefix_distances v k nbrs Hnan Hp ltac:(lia) Hs Hpart) as Hd.
  pose proof (prefix_distances v' k nbrs Hnan Hp' ltac:(lia) Hs' Hpart') as Hd'.
  apply list_eq. intros i.
  destruct (decide (i < k)%nat) as [Hi|Hi].
  2: { rewrite !lookup_take_ge by lia. done. }
  destruct (lookup_lt_is_Some_2 (take k v) i) as [a Ha]; [rewrite length_take; lia|].
  destruct (lookup_lt_is_Some_2 (take k v') i) as [b Hb]; [rewrite length_take; lia|].
  rewrite Ha, Hb. f_equal.
  assert (Hda : (Node.dist <$> take k v) !! i = Some (Node.dist a))
    by (by rewrite list_lookup_fmap, Ha).
  assert (Hdb : (Node.dist <$> take k v') !! i = Some (Node.dist b))
    by (by rewrite list_lookup_fmap, Hb).
  destruct (Forall2_lookup_l _ _ _ _ _ Hd Hda) as (c & Hc & Hac).
  destruct (Forall2_lookup_l _ _ _ _ _ Hd' Hdb) as (c' & Hc' & Hbc).
  assert (c' = c) as -> by congruence.
  assert (Hab : canon (Node.dist a) = canon (Node.dist b)).
  { by rewrite (SFeqb_canon _ _ Hac), (SFeqb_canon _ _ Hbc). }
  assert (Hin : a ∈ nbrs).
  { rewrite <-Hp. apply (subseteq_take k v). by eapply list_elem_of_lookup_2. }
  assert (Hin' : b ∈ nbrs).
  { rewrite <-Hp'. apply (subseteq_take k v'). by eapply list_elem_of_lookup_2. }
  assert (Hna : Node.dist a ≠ S754_nan).
  { unfold no_nan in Hnan. rewrite Forall_forall in Hnan. by apply Hnan. }
  apply list_elem_of_lookup in Hin as [p Hp1]. apply list_elem_of_lookup in Hin' as [q Hq1].
  destruct (decide (p = q)) as [->|Hpq]; [congruence|].
  pose proof (Hties p q a b Hp1 Hq1 Hpq) as Hne.
  by rewrite (canon_SFeqb _ _ Hna Hab) in Hne.
Qed.

Lemma sum_loop_take videos v todo i sums :
  sum_loop videos (take (i + todo) v) todo i sums = sum_loop videos v todo i sums.
Proof.
  revert i sums. induction todo as [|todo IH]; intros i sums; [done|].
  cbn [sum_loop]. unfold at_index. rewrite lookup_take_lt by lia.
  destruct (v !! i) as [n|]; [|done]. cbn.
  destruct (videos !! Node.idx n) as [r|]; [|done]. cbn.
  destruct sums as [[sv sl] sc].
  replace (i + S todo)%nat with (S i + todo)%nat by lia. apply IH.
Qed.

Lemma report_loop_take videos v todo i :
  report_loop videos (take (i + todo) v) todo i = report_loop videos v todo i.
Proof.
  revert i. induction todo as [|todo IH]; intros i; [done|].
  cbn [report_loop]. unfold at_index. rewrite lookup_take_lt by lia.
  destruct (v !! i) as [n|]; [|done]. cbn.
  destruct (videos !! Node.idx n) as [r|]; [|done]. cbn.
  replace (i + S todo)%nat with (S i + todo)%nat by lia. by rewrite IH.
Qed.

Lemma aggregate_take videos v K :
  aggregate videos (take (Z.to_nat K) v) K = aggregate videos v K.
Proof. unfold aggregate. by rewrite (sum_loop_take videos v (Z.to_nat K) 0). Qed.

(** What the run makes of the selected vector depends on its first K
    elements only. *)
Lemma knn_prefix alg alg' K videos qTags K' v v' :
  select alg K (computeNeighbors videos qTags) = Ok (K', v) →
  select alg' K (computeNeighbors videos qTags) = Ok (K', v') →
  take (Z.to_nat K') v = take (Z.to_nat K') v' →
  knn alg K videos qTags = knn alg' K videos qTags.
Proof.
  intros Hsel Hsel' Heq. unfold knn. rewrite Hsel, Hsel'.
  rewrite <-(aggregate_take videos v), <-(aggregate_take videos v'), Heq.
  rewrite <-(report_loop_take videos v (Z.to_nat K') 0).
  rewrite <-(report_loop_take videos v' (Z.to_nat K') 0).
  change (0 + Z.to_nat K')%nat with (Z.to_nat K'). by rewrite Heq.
Qed.

(** X9. When no two records are at the same distance from the query, the
    selected neighbours and the whole run are the same for every
    implementation of [std::nth_element] and [std::sort]. *)
Theorem result_without_ties
    (alg alg' : StdAlgorithm) (K : Z) (videos : list Rec.t) (qTags : gset string) :
  sizes_fit videos qTags →
  no_ties (computeNeighbors videos qTags) →
  selectTopK alg K (computeNeighbors videos qTags)
  = selectTopK alg' K (computeNeighbors videos qTags)
  ∧ knn alg K videos qTags = knn alg' K videos qTags.
Proof.
  intros Hfit Hties. set (nbrs := computeNeighbors videos qTags).
  assert (Hnan : no_nan nbrs) by (by apply computeNeighbors_no_nan).
  destruct (select alg K nbrs) as [[K1 v]|e] eqn:Hsel.
  - destruct (select_spec alg K nbrs K1 v Hnan Hsel) as (-> & HK & Hp & Hs & Hpart).
    assert (Hsel' : select alg' K nbrs
                    = Ok (clamp K (length nbrs),
                          std_sort alg' (Z.to_nat (clamp K (length nbrs)))
                            (std_nth_element alg' (Z.to_nat (clamp K (length nbrs))) nbrs)))
      by (apply select_ok; lia).
    set (v' := std_sort alg' _ _) in Hsel'.
    destruct (select_spec alg' K nbrs _ v' Hnan Hsel') as (_ & _ & Hp' & Hs' & Hpart').
    assert (Heq : take (Z.to_nat (clamp K (length nbrs))) v
                  = take (Z.to_nat (clamp K (length nbrs))) v').
    { apply (prefix_unique v v' _ nbrs); (done || lia). }
    split.
    + unfold selectTopK. rewrite Hsel, Hsel'. cbn. by rewrite Heq.
    + by apply (knn_prefix alg alg' K videos qTags (clamp K (length nbrs)) v v').
  - assert (Hsel' : select alg' K nbrs = Throw e).
    { revert Hsel. unfold select. by destruct (_ || _). }
    split.
    + unfold selectTopK. by rewrite Hsel, Hsel'.
    + unfold knn. fold nbrs. by rewrite Hsel, Hsel'.
Qed.

Lemma no_nan_reverse v : no_nan v → no_nan (reverse v).
Proof. intros H. eapply no_nan_Permutation; [|exact H]. by rewrite reverse_Permutation. Qed.

Lemma alt_nth_element_Permutation k v :
  no_nan v → (k ≤ length v)%nat → alt_nth_element k v ≡ₚ v.
Proof.
  intros Hnan Hk. unfold alt_nth_element.
  rewrite ref_nth_element_Permutation, reverse_Permutation; [done|by apply no_nan_reverse|].
  by rewrite length_reverse.
Qed.

Lemma alt_nth_element_partition k v i j a b :
  no_nan v → (k < length v)%nat → (i < k)%nat → (k ≤ j)%nat →
  alt_nth_element k v !! i = Some a → alt_nth_element k v !! j = Some b →
  cmp b a = false.
Proof.
  intros Hnan Hk. apply ref_nth_element_partition; [by apply no_nan_reverse|].
  by rewrite length_reverse.
Qed.

Definition alt_alg : StdAlgorithm := {|
  std_nth_element := alt_nth_element;
  std_sort := ref_sort;
  nth_element_Permutation := alt_nth_element_Permutation;
  nth_element_partition := alt_nth_element_partition;
  sort_Permutation := ref_sort_Permutation;
  sort_rest := ref_sort_rest;
  sort_sorted := ref_sort_sorted
|}.

Lemma result_without_ties_witness :
  selectTopK ref_alg 2 (computeNeighbors scenario {["cat"%string]})
  = selectTopK alt_alg 2 (computeNeighbors scenario {["cat"%string]})
  ∧ knn ref_alg 2 scenario {["cat"%string]} = knn alt_alg 2 scenario {["cat"%string]}.
Proof.
  apply (result_without_ties ref_alg alt_alg 2 scenario {["cat"%string]}).
  - repeat constructor; vm_compute; reflexivity.
  - rewrite scenario_neighbours. intros i j a b Hi Hj Hij.
    destruct i as [|[|[|i]]], j as [|[|[|j]]]; cbn in Hi, Hj; try done;
      injection Hi as <-; injection Hj as <-; reflexivity.
Defined.

Lemma SFeqb_not_SFltb x y : SFeqb x y = true → SFltb x y = false ∧ SFltb y x = false.
Proof.
  unfold SFeqb, SFltb.
  destruct x as [[]|[]| |[] mx ex], y as [[]|[]| |[] my ey];
    cbn; try done; intros H; split; compare_cases.
Qed.

(** X10. Which of two neighbours at the same distance is selected is left
    to the implementation of the standard algorithms: of two tied neighbours
    and K = 1, one conforming implementation selects the second and another
    one the first. *)
Theorem tie_is_left_open (a b : Node.t) :
  SFeqb (Node.dist a) (Node.dist b) = true →
  selectTopK ref_alg 1 [a; b] = Ok [b] ∧ selectTopK alt_alg 1 [a; b] = Ok [a].
Proof.
  intros [Hab Hba]%SFeqb_not_SFltb.
  assert (Hc : clamp 1 (length [a; b]) = 1%Z) by reflexivity.
  unfold selectTopK. rewrite !select_ok by (rewrite Hc; lia). rewrite Hc.
  change (Z.to_nat 1) with 1%nat. cbn [mbind res_bind].
  cbn [alt_alg ref_alg std_sort std_nth_element].
  unfold alt_nth_element, ref_nth_element, ref_sort.
  change (reverse [a; b]) with [b; a]. cbn [length Nat.eqb insertion_sort foldr insert_sorted].
  unfold cmp. rewrite Hab, Hba. cbn [take drop insertion_sort foldr insert_sorted app]. done.
Qed.

Lemma tie_is_left_open_witness :
  selectTopK ref_alg 1 [Node.mk f_half 0; Node.mk f_half 1] = Ok [Node.mk f_half 1]
  ∧ selectTopK alt_alg 1 [Node.mk f_half 0; Node.mk f_half 1] = Ok [Node.mk f_half 0].
Proof. apply (tie_is_left_open (Node.mk f_half 0) (Node.mk f_half 1)). reflexivity. Defined.

(** ** The division of line 128 *)

(** X11. Steps 3 to 5 divide by the clamped K. When the number of records
    narrows to the [int] 0, as for no record at all or for 2^32 of them, a
    positive K is clamped to 0 and the run is ended by the division by zero
    before anything is written. *)
Theorem clamped_to_zero
    (alg : StdAlgorithm) (K : Z) (videos : list Rec.t) (qTags : gset string) :
  (0 < K)%Z → wrap_int (Z.of_nat (length videos)) = 0%Z →
  knn alg K videos qTags = Build_run (Terminated division_by_zero) [] None.
Proof.
  intros HK Hw. unfold knn, select, clamp. rewrite computeNeighbors_length, Hw.
  destruct (Z.gtb_spec K 0) as [_|]; [|lia]. cbn [Z.ltb Z.compare orb].
  destruct (Z.ltb_spec (Z.of_nat (length videos)) 0); [lia|]. done.
Qed.

Lemma clamped_to_zero_witness :
  knn ref_alg 3 [] {["cat"%string]} = Build_run (Terminated division_by_zero) [] None.
Proof. apply (clamped_to_zero ref_alg 3 [] {["cat"%string]}); [lia|reflexivity]. Defined.

(** ** Aggregation: further properties *)

Lemma wrap_ll_add a b : wrap_ll (wrap_ll a + b) = wrap_ll (a + b).
Proof.
  unfold wrap_ll. f_equal.
  replace ((a + 9223372036854775808) `mod` 18446744073709551616 - 9223372036854775808
           + b + 9223372036854775808)%Z
    with ((a + 9223372036854775808) `mod` 18446744073709551616 + b)%Z by lia.
  rewrite Zplus_mod_idemp_l. f_equal. lia.
Qed.

Lemma total_Permutation f rs rs' : rs ≡ₚ rs' → total f rs = total f rs'.
Proof. unfold total. induction 1; cbn; lia. Qed.

Lemma sum_loop_ok videos nbrs todo i sv sl sc :
  length (take todo (drop i nbrs)) = todo →
  Forall (λ n, is_Some (videos !! Node.idx n)) (take todo (drop i nbrs)) →
  sum_loop videos nbrs todo i (wrap_ll sv, wrap_ll sl, wrap_ll sc)
  = Ok (wrap_ll (sv + total Rec.views (records_of videos (take todo (drop i nbrs)))),
        wrap_ll (sl + total Rec.likes (records_of videos (take todo (drop i nbrs)))),
        wrap_ll (sc + total Rec.comments (records_of videos (take todo (drop i nbrs))))).
Proof.
  revert i sv sl sc. induction todo as [|todo IH]; intros i sv sl sc Hlen Hall.
  { cbn. by rewrite !Z.add_0_r. }
  destruct (nbrs !! i) as [n|] eqn:Hi.
  2: { apply lookup_ge_None in Hi. rewrite drop_ge in Hlen by done. done. }
  rewrite (drop_S _ _ _ Hi) in Hlen, Hall |- *. rewrite firstn_cons in Hlen, Hall |- *.
  apply Forall_cons in Hall as [[r Hr] Hall].
  cbn [sum_loop]. unfold at_index. rewrite Hi. cbn. rewrite Hr. cbn.
  rewrite !wrap_ll_add, IH by (done || by injection Hlen).
  unfold total, records_of. f_equal. f_equal; [f_equal|]; f_equal; lia.
Qed.

Lemma sum_loop_inv videos nbrs todo i sums r :
  sum_loop videos nbrs todo i sums = r →
  match r with
  | Ok _ => length (take todo (drop i nbrs)) = todo
            ∧ Forall (λ n, is_Some (videos !! Node.idx n)) (take todo (drop i nbrs))
  | Throw e => e = bad_index
  end.
Proof.
  intros <-. revert i sums. induction todo as [|todo IH]; intros i [[sv sl] sc]; [done|].
  cbn [sum_loop]. unfold at_index.
  destruct (nbrs !! i) as [n|] eqn:Hi; [|done]. cbn.
  destruct (videos !! Node.idx n) as [r|] eqn:Hr; [|done]. cbn.
  specialize (IH (S i) (wrap_ll (sv + Rec.views r), wrap_ll (sl + Rec.likes r),
                        wrap_ll (sc + Rec.comments r))).
  destruct (sum_loop _ _ _ _ _); [|done].
  rewrite (drop_S _ _ _ Hi). cbn [take length]. destruct IH as [-> IH].
  split; [done|]. by constructor.
Qed.

(** X12. The prediction depends on which neighbours are among the first K,
    not on their order. *)
Theorem aggregate_any_order (videos : list Rec.t) (nbrs nbrs' : list Node.t) (K : Z) :
  take (Z.to_nat K) nbrs ≡ₚ take (Z.to_nat K) nbrs' →
  aggregate videos nbrs K = aggregate videos nbrs' K.
Proof.
  intros Hp. unfold aggregate.
  assert (Hcond : ∀ l l', l ≡ₚ l' →
            length l = Z.to_nat K ∧ Forall (λ n, is_Some (videos !! Node.idx n)) l →
            length l' = Z.to_nat K ∧ Forall (λ n, is_Some (videos !! Node.idx n)) l').
  { intros l l' Hl [? ?]. by rewrite <-Hl. }
  pose proof (sum_loop_inv videos nbrs (Z.to_nat K) 0 (0, 0, 0)%Z _ eq_refl) as H1.
  pose proof (sum_loop_inv videos nbrs' (Z.to_nat K) 0 (0, 0, 0)%Z _ eq_refl) as H2.
  rewrite !drop_0 in H1, H2.
  assert (Hok : ∀ v, length (take (Z.to_nat K) v) = Z.to_nat K ∧
                     Forall (λ n, is_Some (videos !! Node.idx n)) (take (Z.to_nat K) v) →
            sum_loop videos v (Z.to_nat K) 0 (0, 0, 0)%Z
            = Ok (wrap_ll (total Rec.views (records_of videos (take (Z.to_nat K) v))),
                  wrap_ll (total Rec.likes (records_of videos (take (Z.to_nat K) v))),
                  wrap_ll (total Rec.comments (records_of videos (take (Z.to_nat K) v))))).
  { intros v [Hlen Hall].
    pose proof (sum_loop_ok videos v (Z.to_nat K) 0 0 0 0) as E.
    rewrite drop_0 in E. by apply E. }
  assert (Hrec : records_of videos (take (Z.to_nat K) nbrs)
                 ≡ₚ records_of videos (take (Z.to_nat K) nbrs')).
  { unfold records_of. by rewrite Hp. }
  destruct (sum_loop videos nbrs (Z.to_nat K) 0 (0, 0, 0)%Z) as [s1|e1] eqn:E1.
  - rewrite (Hok nbrs H1) in E1. injection E1 as <-.
    rewrite (Hok nbrs' (Hcond _ _ Hp H1)).
    by rewrite !(total_Permutation _ _ _ Hrec).
  - destruct (sum_loop videos nbrs' (Z.to_nat K) 0 (0, 0, 0)%Z) as [s2|e2] eqn:E2.
    + symmetry in Hp. rewrite (Hok nbrs (Hcond _ _ Hp H2)) in E1. done.
    + by subst.
Qed.

Lemma aggregate_any_order_witness :
  aggregate scenario [Node.mk f_zero 1; Node.mk f_half 0; Node.mk f_one 2] 2
  = aggregate scenario [Node.mk f_half 0; Node.mk f_zero 1] 2.
Proof.
  apply (aggregate_any_order scenario
           [Node.mk f_zero 1; Node.mk f_half 0; Node.mk f_one 2]
           [Node.mk f_half 0; Node.mk f_zero 1] 2).
  apply Permutation_swap.
Defined.

Lemma records_of_Forall2 videos l rs :
  Forall2 (λ n r, videos !! Node.idx n = Some r) l rs →
  records_of videos l = rs ∧ Forall (λ n, is_Some (videos !! Node.idx n)) l.
Proof.
  induction 1 as [|n r l rs Hr _ [IH1 IH2]]; [done|]. split.
  - unfold records_of in *. cbn. by rewrite Hr, IH1.
  - constructor; [by exists r|done].
Qed.

Lemma total_abs f rs : (Z.abs (total f rs) ≤ total (λ r, Z.abs (f r)) rs)%Z.
Proof. unfold total. induction rs as [|r rs IH]; cbn; lia. Qed.

Lemma total_bounds f lo hi rs :
  Forall (λ r, (lo ≤ f r ≤ hi)%Z) rs →
  (Z.of_nat (length rs) * lo ≤ total f rs ≤ Z.of_nat (length rs) * hi)%Z.
Proof. unfold total. induction 1 as [|r rs Hr _ IH]; cbn [foldr length]; lia. Qed.

Lemma wrap_ll_in_range z : (Z.abs z ≤ LLONG_MAX)%Z → wrap_ll z = z.
Proof. unfold wrap_ll, LLONG_MAX. intros Hz. rewrite Z.mod_small; lia. Qed.

Lemma quot_between t K lo hi :
  (1 ≤ K)%Z → (K * lo ≤ t ≤ K * hi)%Z → (lo ≤ t ÷ K ≤ hi)%Z.
Proof.
  intros HK Ht. pose proof (Z.quot_rem' t K) as E.
  destruct (Z.le_ge_cases 0 t) as [H0|H0].
  - pose proof (Z.rem_bound_pos t K H0 ltac:(lia)). nia.
  - pose proof (Z.rem_bound_pos (- t) K ltac:(lia) ltac:(lia)) as B.
    rewrite Z.rem_opp_l in B by lia. nia.
Qed.

Lemma quot_abs_le t K : (1 ≤ K)%Z → (Z.abs (t ÷ K) ≤ Z.abs t)%Z.
Proof.
  intros HK. destruct (Z.le_ge_cases 0 t) as [H0|H0].
  - pose proof (quot_between t K 0 t HK ltac:(nia)). lia.
  - pose proof (quot_between t K t 0 HK ltac:(nia)). lia.
Qed.

(** X13. For K >= 1 selected records whose metrics, of either sign, add up
    within [long long], each predicted metric is the sum over the selected
    records divided by K and truncated toward zero; it lies between the
    smallest and the largest value of that metric among the selected
    records. *)
Theorem aggregate_truncated_average
    (videos : list Rec.t) (nbrs : list Node.t) (K : Z) (selected : list Rec.t) :
  (1 ≤ K)%Z →
  Forall2 (λ n r, videos !! Node.idx n = Some r) (take (Z.to_nat K) nbrs) selected →
  length selected = Z.to_nat K →
  (total (λ r, Z.abs (Rec.views r)) selected ≤ LLONG_MAX)%Z →
  (total (λ r, Z.abs (Rec.likes r)) selected ≤ LLONG_MAX)%Z →
  (total (λ r, Z.abs (Rec.comments r)) selected ≤ LLONG_MAX)%Z →
  aggregate videos nbrs K
  = Ok (total Rec.views selected ÷ K,
        total Rec.likes selected ÷ K,
        total Rec.comments selected ÷ K)%Z
  ∧ (∀ f lo hi, Forall (λ r, (lo ≤ f r ≤ hi)%Z) selected →
       (lo ≤ total f selected ÷ K ≤ hi)%Z).
Proof.
  intros HK Hsel Hlen Hv Hl Hc. split.
  - destruct (records_of_Forall2 _ _ _ Hsel) as [Hrec Hall].
    pose proof (sum_loop_ok videos nbrs (Z.to_nat K) 0 0 0 0) as E.
    rewrite drop_0, Hrec in E. unfold aggregate.
    change (0, 0, 0)%Z with (wrap_ll 0, wrap_ll 0, wrap_ll 0).
    rewrite E; [|by rewrite (Forall2_length _ _ _ Hsel)|done].
    pose proof (total_abs Rec.views selected). pose proof (total_abs Rec.likes selected).
    pose proof (total_abs Rec.comments selected).
    rewrite !Z.add_0_l, !wrap_ll_in_range by lia. cbn [mbind res_bind].
    unfold ll_div. destruct (Z.eqb_spec K 0); [lia|]. cbn [mbind res_bind].
    pose proof (quot_abs_le (total Rec.views selected) K HK).
    pose proof (quot_abs_le (total Rec.likes selected) K HK).
    pose proof (quot_abs_le (total Rec.comments selected) K HK).
    by rewrite !wrap_ll_in_range by lia.
  - intros f lo hi Hb. apply quot_between; [done|].
    pose proof (total_bounds f lo hi selected Hb) as B. rewrite Hlen in B.
    rewrite Z2Nat.id in B by lia. done.
Qed.

Lemma aggregate_truncated_average_witness :
  aggregate two_mixed two_neighbours 2 = Ok (-1, 4, 0)%Z.
Proof.
  apply (aggregate_truncated_average two_mixed two_neighbours 2 two_mixed).
  - lia.
  - repeat constructor.
  - reflexivity.
  - vm_compute. discriminate.
  - vm_compute. discriminate.
  - vm_compute. discriminate.
Defined.

(** ** The report *)

Lemma report_loop_lines videos v todo i :
  (∀ j, (i ≤ j < i + todo)%nat →
        ∃ n r, v !! j = Some n ∧ videos !! Node.idx n = Some r) →
  ∃ lines,
    report_loop videos v todo i = (lines, None)
    ∧ length lines = todo
    ∧ (∀ j n, (j < todo)%nat → v !! (i + j)%nat = Some n →
         ∃ r, videos !! Node.idx n = Some r
              ∧ lines !! j = Some (report_line (i + j) n r)).
Proof.
  revert i. induction todo as [|todo IH]; intros i Hin.
  { exists []. split_and!; [done..|]. intros j n Hj. lia. }
  destruct (Hin i ltac:(lia)) as (n & r & Hn & Hr).
  destruct (IH (S i)) as (lines & Hrep & Hlen & Hlines).
  { intros j Hj. apply Hin. lia. }
  exists (report_line i n r :: lines).
  cbn [report_loop]. unfold at_index. rewrite Hn. cbn. rewrite Hr. cbn. rewrite Hrep.
  split_and!; [done|by cbn; rewrite Hlen|].
  intros [|j] m Hj Hm.
  - rewrite Nat.add_0_r in Hm |- *. assert (m = n) as -> by congruence. by exists r.
  - replace (i + S j)%nat with (S i + j)%nat in Hm |- * by lia.
    apply Hlines; [lia|done].
Qed.

Lemma ll_div_ok a K : K ≠ 0%Z → ∃ q, ll_div a K = Ok q.
Proof. intros HK. unfold ll_div. destruct (Z.eqb_spec K 0); [done|by eexists]. Qed.

(** A run of steps 3 to 5 on a dataset of 1 to [INT_MAX] records. *)
Lemma knn_run alg K videos qTags :
  sizes_fit videos qTags → (1 ≤ K)%Z → videos ≠ [] →
  (Z.of_nat (length videos) ≤ INT_MAX)%Z →
  ∃ top pViews pLikes pComments lines,
    selectTopK alg K (computeNeighbors videos qTags) = Ok top
    ∧ length top = Nat.min (Z.to_nat K) (length videos)
    ∧ aggregate videos top (Z.of_nat (length top)) = Ok (pViews, pLikes, pComments)
    ∧ knn alg K videos qTags
      = Build_run (Returned 0)
          (Predicted pViews pLikes pComments :: TopHeader (Z.of_nat (length top)) :: lines)
          None
    ∧ length lines = length top
    ∧ (∀ i n, top !! i = Some n →
         ∃ r, videos !! Node.idx n = Some r ∧ lines !! i = Some (report_line i n r)).
Proof.
  intros Hfit HK Hne HN. set (nbrs := computeNeighbors videos qTags).
  assert (Hnan : no_nan nbrs) by (by apply computeNeighbors_no_nan).
  assert (Hlen : length nbrs = length videos) by apply computeNeighbors_length.
  assert (Hpos : (0 < length videos)%nat) by (destruct videos; [done|cbn; lia]).
  pose proof (clamp_min K (length nbrs) ltac:(lia)) as Hc.
  pose proof (select_ok alg K nbrs ltac:(lia)) as Hsel.
  set (K' := clamp K (length nbrs)) in *. set (v := std_sort alg _ _) in Hsel.
  destruct (select_spec alg K nbrs K' v Hnan Hsel) as (_ & HK' & Hp & _).
  assert (Hin : ∀ j, (0 ≤ j < 0 + Z.to_nat K')%nat →
            ∃ n r, v !! j = Some n ∧ videos !! Node.idx n = Some r).
  { intros j Hj. destruct (lookup_lt_is_Some_2 v j) as [n Hn].
    { rewrite (Permutation_length Hp). lia. }
    assert (Hn' : n ∈ nbrs) by (rewrite <-Hp; by eapply list_elem_of_lookup_2).
    apply computeNeighbors_elem in Hn' as (r & Hr & _). by exists n, r. }
  destruct (sum_loop_in_bounds videos v (Z.to_nat K') 0 (0, 0, 0)%Z Hin)
    as ([[sv sl] sc] & Hsum).
  destruct (ll_div_ok sv K' ltac:(lia)) as (pv & Hpv).
  destruct (ll_div_ok sl K' ltac:(lia)) as (pl & Hpl).
  destruct (ll_div_ok sc K' ltac:(lia)) as (pc & Hpc).
  assert (Hagg : aggregate videos v K' = Ok (pv, pl, pc)).
  { unfold aggregate. rewrite Hsum. cbn. rewrite Hpv. cbn. rewrite Hpl. cbn. by rewrite Hpc. }
  destruct (report_loop_lines videos v (Z.to_nat K') 0 Hin) as (lines & Hrep & Hll & Hlines).
  assert (Htop : length (take (Z.to_nat K') v) = Z.to_nat K').
  { rewrite length_take, (Permutation_length Hp). lia. }
  exists (take (Z.to_nat K') v), pv, pl, pc, lines. rewrite Htop.
  rewrite Z2Nat.id by lia. split_and!.
  - unfold selectTopK. fold nbrs. by rewrite Hsel.
  - lia.
  - by rewrite aggregate_take.
  - unfold knn. fold nbrs. by rewrite Hsel, Hagg, Hrep.
  - done.
  - intros i n Hi.
    assert (i < Z.to_nat K')%nat.
    { apply lookup_lt_Some in Hi. by rewrite Htop in Hi. }
    rewrite lookup_take_lt in Hi by done. by apply (Hlines i n).
Qed.

(** X14. On a loaded dataset of at most [INT_MAX] records and for K >= 1, steps
    3 to 5 return 0 and write the whole report: the prediction, which is
    the aggregate of the selected neighbours, the count [min K N], and one
    line per selected neighbour, in the order of the selection, with its rank
    from 1, the record it points to and its distance. *)
Theorem knn_report
    (alg : StdAlgorithm) (K : Z) (videos : list Rec.t) (qTags : gset string) :
  sizes_fit videos qTags → (1 ≤ K)%Z → videos ≠ [] →
  (Z.of_nat (length videos) ≤ INT_MAX)%Z →
  ∃ top pViews pLikes pComments lines,
    selectTopK alg K (computeNeighbors videos qTags) = Ok top
    ∧ length top = Nat.min (Z.to_nat K) (length videos)
    ∧ aggregate videos top (Z.of_nat (length top)) = Ok (pViews, pLikes, pComments)
    ∧ knn alg K videos qTags
      = Build_run (Returned 0)
          (Predicted pViews pLikes pComments :: TopHeader (Z.of_nat (length top)) :: lines)
          None
    ∧ length lines = length top
    ∧ (∀ i n, top !! i = Some n →
         ∃ r, videos !! Node.idx n = Some r ∧ lines !! i = Some (report_line i n r)).
Proof. apply knn_run. Qed.

Lemma knn_report_witness :
  ∃ top pViews pLikes pComments lines,
    selectTopK ref_alg 5 (computeNeighbors scenario {["cat"%string]}) = Ok top
    ∧ length top = Nat.min (Z.to_nat 5) (length scenario)
    ∧ aggregate scenario top (Z.of_nat (length top)) = Ok (pViews, pLikes, pComments)
    ∧ knn ref_alg 5 scenario {["cat"%string]}
      = Build_run (Returned 0)
          (Predicted pViews pLikes pComments :: TopHeader (Z.of_nat (length top)) :: lines)
          None
    ∧ length lines = length top
    ∧ (∀ i n, top !! i = Some n →
         ∃ r, scenario !! Node.idx n = Some r ∧ lines !! i = Some (report_line i n r)).
Proof.
  apply (knn_report ref_alg 5 scenario {["cat"%string]}).
  - repeat constructor; vm_compute; reflexivity.
  - lia.
  - discriminate.
  - vm_compute. discriminate.
Defined.

(** ** The ways a run can end *)

Lemma read_until_length delim s :
  (String.length (fst (read_until delim s)) ≤ String.length s)%nat
  ∧ (String.length (snd (read_until delim s)) ≤ String.length s)%nat.
Proof.
  induction s as [|c s [IH1 IH2]]; [done|]. cbn [read_until].
  destruct (Ascii.eqb c delim); [cbn; lia|].
  destruct (read_until delim s) as [buf rest]. cbn in *. lia.
Qed.

Lemma data_part_length content :
  (String.length (data_part content) ≤ String.length content)%nat.
Proof.
  unfold data_part, getline. destruct content as [|c s]; [done|].
  pose proof (read_until_length newline (String c s)) as [_ H].
  destruct (read_until newline (String c s)) as [line rest].
  by destruct (is_header line).
Qed.

Lemma getlines_sizes delim s :
  (length (getlines delim s) ≤ String.length s)%nat
  ∧ Forall (λ x, (String.length x ≤ String.length s)%nat) (getlines delim s).
Proof.
  induction s as [|c s [IH1 IH2]]; [by split|]. cbn [getlines String.length].
  destruct (Ascii.eqb c delim).
  - split; [cbn; lia|]. constructor; [cbn; lia|].
    eapply Forall_impl; [exact IH2|]. cbn. lia.
  - destruct (getlines delim s) as [|buf bufs]; cbn [length] in *.
    + split; [lia|]. constructor; [cbn; lia|constructor].
    + apply Forall_cons in IH2 as [Hb Hbs]. split; [lia|]. constructor; [cbn; lia|].
      eapply Forall_impl; [exact Hbs|]. cbn. lia.
Qed.

Lemma split_sizes s delim :
  (length (split s delim) ≤ String.length s)%nat
  ∧ Forall (λ x, (String.length x ≤ String.length s)%nat) (split s delim).
Proof.
  destruct (getlines_sizes delim s) as [H1 H2]. unfold split. split.
  - pose proof (length_filter (λ buf, buf ≠ EmptyString) (getlines delim s)). lia.
  - rewrite Forall_forall in H2 |- *. intros x [_ Hx]%list_elem_of_filter. auto.
Qed.

Lemma size_list_to_set_le (l : list string) :
  (size (list_to_set l : gset string) ≤ length l)%nat.
Proof.
  induction l as [|x l IH]; [done|]. cbn [list_to_set length].
  rewrite size_union_alt, size_singleton.
  assert (list_to_set l ∖ {[x]} ⊆ (list_to_set l : gset string)) as Hs%subseteq_size
    by set_solver.
  lia.
Qed.

Lemma parse_rows_length lines videos :
  parse_rows lines = Ok videos → (length videos ≤ length lines)%nat.
Proof.
  revert videos. induction lines as [|line lines IH]; intros videos.
  { by intros [= <-]. }
  destruct (usable line) eqn:Hu.
  - rewrite parse_rows_cons_usable by done.
    destruct (parse_row _) as [r|e]; [|done]. cbn.
    destruct (parse_rows lines) as [vs|e]; [|done]. cbn. intros [= <-].
    specialize (IH vs eq_refl). cbn. lia.
  - rewrite parse_rows_cons_skipped by done. intros Hp. specialize (IH videos Hp). cbn. lia.
Qed.

Lemma stoll_throws s e :
  stoll s = Throw e → e = invalid_argument ∨ e = out_of_range.
Proof.
  unfold stoll. destruct (match skip_space s with
                          | String "-"%char r => (true, r)
                          | String "+"%char r => (false, r)
                          | _ => (false, skip_space s)
                          end) as [neg s2].
  destruct (starts_with_digit s2); [|by intros [= <-]; left].
  destruct (_ && _); [done|by intros [= <-]; right].
Qed.

Lemma parse_row_throws cols e :
  (5 ≤ length cols)%nat → parse_row cols = Throw e →
  e = invalid_argument ∨ e = out_of_range.
Proof.
  intros Hlen. destruct cols as [|c0 [|c1 [|c2 [|c3 [|c4 cols]]]]]; cbn in Hlen; try lia.
  unfold parse_row, at_index. cbn [lookup list_lookup mbind res_bind].
  destruct (stoll c2) as [v|e2] eqn:E2; cbn; [|intros [= <-]; by eapply stoll_throws].
  destruct (stoll c3) as [l|e3] eqn:E3; cbn; [|intros [= <-]; by eapply stoll_throws].
  destruct (stoll c4) as [c|e4] eqn:E4; cbn; [done|intros [= <-]; by eapply stoll_throws].
Qed.

Lemma load_throws file e :
  load_dataset file = LoadThrew e → e = invalid_argument ∨ e = out_of_range.
Proof.
  destruct file as [content|]; cbn [load_dataset]; [|done].
  destruct (parse_rows _) as [[|r vs]|e'] eqn:Hp; [done..|]. intros [= ->].
  apply parse_rows_throw in Hp as (line & Hline & Hrow).
  apply list_elem_of_filter in Hline as [[_ Hlen]%usable_spec _].
  by eapply parse_row_throws.
Qed.

Lemma loaded_sizes content videos :
  load_dataset (Some content) = Loaded videos →
  videos ≠ []
  ∧ (length videos ≤ String.length content)%nat
  ∧ Forall (λ r, (size (Rec.tags r) ≤ String.length content)%nat) videos.
Proof.
  cbn [load_dataset].
  destruct (parse_rows _) as [[|r0 vs]|e] eqn:Hp; [done| |done]. intros [= <-].
  pose proof (data_part_length content) as Hd.
  destruct (getlines_sizes newline (data_part content)) as [Hn Hl].
  split_and!; [done| |].
  - apply parse_rows_length in Hp. lia.
  - apply parse_rows_records in Hp. apply Forall_forall. intros r Hr.
    apply list_elem_of_lookup in Hr as [i Hi].
    destruct (Forall2_lookup_r _ _ _ _ _ Hp Hi) as (line & Hline & Hrow).
    apply list_elem_of_lookup_2 in Hline. unfold usable_rows in Hline.
    apply list_elem_of_filter in Hline as [_ Hline].
    rewrite Forall_forall in Hl. specialize (Hl line Hline).
    apply parse_row_fields in Hrow as (c0 & c1 & c2 & c3 & c4 & rest & Hcols & _ & -> & _).
    destruct (split_sizes line ","%char) as [_ Hc]. rewrite Hcols in Hc.
    apply Forall_cons in Hc as [_ Hc]. apply Forall_cons in Hc as [Hc1 _].
    pose proof (size_list_to_set_le (split c1 ";"%char)).
    destruct (split_sizes c1 ";"%char) as [? _]. lia.
Qed.

(** X15. With a dataset file and a query of less than 2^31 characters each,
    a run ends in one of three ways: it returns 0 after the whole report,
    with nothing on the error stream; it returns 1 after one error message
    and no report; or it is ended by the exception of [std::stoll] on a
    metric, with nothing written. No access is out of bounds and no
    division is by zero. *)
Theorem main_outcomes
    (alg : StdAlgorithm) (fs : string → option string) (argv : list string) :
  (∀ path content, fs path = Some content →
     (Z.of_nat (String.length content) ≤ INT_MAX)%Z) →
  Forall (λ arg, (Z.of_nat (String.length arg) ≤ INT_MAX)%Z) argv →
  (ended (main alg fs argv) = Returned 0
   ∧ stderr (main alg fs argv) = None
   ∧ ∃ pViews pLikes pComments k lines,
       stdout (main alg fs argv)
       = Predicted pViews pLikes pComments :: TopHeader k :: lines
       ∧ Z.of_nat (length lines) = k ∧ (1 ≤ k)%Z)
  ∨ (ended (main alg fs argv) = Returned 1
     ∧ stdout (main alg fs argv) = []
     ∧ ∃ f, stderr (main alg fs argv) = Some f)
  ∨ (stdout (main alg fs argv) = []
     ∧ stderr (main alg fs argv) = None
     ∧ (ended (main alg fs argv) = Terminated invalid_argument
        ∨ ended (main alg fs argv) = Terminated out_of_range)).
Proof.
  intros Hfs Hargs. unfold main.
  destruct argv as [|prog [|arg1 [|arg2 [|arg3 [|extra argv]]]]];
    try (right; left; split_and!; [done..|by eexists]).
  destruct (Z.leb_spec (atoi arg1) 0) as [HK|HK];
    [right; left; split_and!; [done..|by eexists]|].
  destruct (load_dataset (fs arg2)) as [videos|f|e] eqn:Hload.
  - case_decide as Hq; [right; left; split_and!; [done..|by eexists]|].
    left. destruct (fs arg2) as [content|] eqn:Hfile; [|done].
    destruct (loaded_sizes content videos Hload) as (Hne & Hlen & Htags).
    specialize (Hfs arg2 content Hfile).
    assert (Harg3 : (Z.of_nat (String.length arg3) ≤ INT_MAX)%Z).
    { do 3 apply Forall_cons in Hargs as [_ Hargs]. by apply Forall_cons in Hargs as [? _]. }
    destruct (knn_run alg (atoi arg1) videos (list_to_set (split arg3 ";"%char)))
      as (top & pv & pl & pc & lines & _ & Htop & _ & -> & Hll & _); [|lia|done|lia|].
    { apply Forall_forall. intros r Hr. rewrite Forall_forall in Htags.
      specialize (Htags r Hr).
      pose proof (size_list_to_set_le (split arg3 ";"%char)).
      destruct (split_sizes arg3 ";"%char) as [? _].
      assert (size (list_to_set (split arg3 ";"%char) ∪ Rec.tags r)
              ≤ size (list_to_set (split arg3 ";"%char) : gset string) + size (Rec.tags r))%nat.
      { rewrite size_union_alt.
        assert (Rec.tags r ∖ list_to_set (split arg3 ";"%char) ⊆ Rec.tags r)
          as Hs%subseteq_size by set_solver.
        lia. }
      unfold SIZE_MOD, INT_MAX in *. lia. }
    cbn. split_and!; [done..|].
    exists pv, pl, pc, (Z.of_nat (length top)), lines. split_and!; [done|by rewrite Hll|].
    assert (0 < length videos)%nat by (destruct videos; [done|cbn; lia]). lia.
  - right. left. split_and!; [done..|by eexists].
  - right. right. cbn. split_and!; [done..|].
    destruct (load_throws _ _ Hload) as [-> | ->]; [by left|by right].
Qed.

Lemma main_outcomes_witness :
  (ended (main ref_alg (λ _, Some "1,a;b,10,20,30"%string) ["knn"; "2"; "videos.csv"; "a"]%string)
   = Returned 0
   ∧ stderr (main ref_alg (λ _, Some "1,a;b,10,20,30"%string) ["knn"; "2"; "videos.csv"; "a"]%string)
     = None
   ∧ ∃ pViews pLikes pComments k lines,
       stdout (main ref_alg (λ _, Some "1,a;b,10,20,30"%string) ["knn"; "2"; "videos.csv"; "a"]%string)
       = Predicted pViews pLikes pComments :: TopHeader k :: lines
       ∧ Z.of_nat (length lines) = k ∧ (1 ≤ k)%Z)
  ∨ (ended (main ref_alg (λ _, Some "1,a;b,10,20,30"%string) ["knn"; "2"; "videos.csv"; "a"]%string)
     = Returned 1
     ∧ stdout (main ref_alg (λ _, Some "1,a;b,10,20,30"%string) ["knn"; "2"; "videos.csv"; "a"]%string)
       = []
     ∧ ∃ f, stderr (main ref_alg (λ _, Some "1,a;b,10,20,30"%string)
                      ["knn"; "2"; "videos.csv"; "a"]%string) = Some f)
  ∨ (stdout (main ref_alg (λ _, Some "1,a;b,10,20,30"%string) ["knn"; "2"; "videos.csv"; "a"]%string)
     = []
     ∧ stderr (main ref_alg (λ _, Some "1,a;b,10,20,30"%string) ["knn"; "2"; "videos.csv"; "a"]%string)
       = None
     ∧ (ended (main ref_alg (λ _, Some "1,a;b,10,20,30"%string)
                 ["knn"; "2"; "videos.csv"; "a"]%string) = Terminated invalid_argument
        ∨ ended (main ref_alg (λ _, Some "1,a;b,10,20,30"%string)
                   ["knn"; "2"; "videos.csv"; "a"]%string) = Terminated out_of_range)).
Proof.
  apply (main_outcomes ref_alg (λ _, Some "1,a;b,10,20,30"%string)
           ["knn"; "2"; "videos.csv"; "a"]%string).
  - intros path content [= <-]. vm_compute. discriminate.
  - repeat constructor; vm_compute; discriminate.
Defined.

(** ** The query *)

(** X16. The query and the tags of a record are sets of tags: the run is
    the same whatever the order in which the tags of the query are given,
    and a tag given twice counts once; a row loads as the same record
    whatever the order of the tags in its second column. *)
Theorem tags_are_sets
    (alg : StdAlgorithm) (fs : string → option string) (prog arg1 arg2 s t : string)
    (c0 : string) (rest : list string) :
  main alg fs [prog; arg1; arg2; s +:+ String ";" t]
  = main alg fs [prog; arg1; arg2; t +:+ String ";" s]
  ∧ main alg fs [prog; arg1; arg2; s +:+ String ";" s]
    = main alg fs [prog; arg1; arg2; s]
  ∧ parse_row (c0 :: (s +:+ String ";" t) :: rest)
    = parse_row (c0 :: (t +:+ String ";" s) :: rest).
Proof.
  assert (Hcomm : (list_to_set (split (s +:+ String ";" t) ";"%char) : gset string)
                  = list_to_set (split (t +:+ String ";" s) ";"%char)).
  { rewrite !split_append, !list_to_set_app_L. apply (comm_L _). }
  assert (Hidem : (list_to_set (split (s +:+ String ";" s) ";"%char) : gset string)
                  = list_to_set (split s ";"%char)).
  { rewrite split_append, list_to_set_app_L. apply (idemp_L _). }
  split_and!.
  - unfold main. by rewrite Hcomm.
  - unfold main. by rewrite Hidem.
  - unfold parse_row, at_index. cbn [lookup list_lookup mbind res_bind].
    by rewrite Hcomm.
Qed.

(** ** Files without a header line *)

Lemma csv_row_head x :
  writable x → is_header (csv_row x) = negb (starts_with_digit (Entry.id x)).
Proof.
  intros (Hid & _). unfold csv_row.
  destruct (Entry.id x) as [|c id]; [done|]. done.
Qed.

(** X17. A dataset written without a header line loads as its rows when
    the identifier of the first row starts with a digit; when it does not,
    the first row is taken for a header and lost, and the remaining rows
    are the dataset. *)
Theorem load_headerless_dataset (x : Entry.t) (xs : list Entry.t) :
  Forall writable (x :: xs) →
  load_dataset (Some (String.concat (String newline EmptyString) (csv_row <$> x :: xs)))
  = if starts_with_digit (Entry.id x) then Loaded (record_of <$> x :: xs)
    else match xs with
         | [] => LoadFailed dataset_empty
         | _ => Loaded (record_of <$> xs)
         end.
Proof.
  intros Hall. pose proof Hall as [Hx Hxs]%Forall_cons.
  set (content := String.concat (String newline EmptyString) (csv_row <$> x :: xs)).
  assert (Hnl : Forall (λ field, contains newline field = false) (csv_row <$> x :: xs)).
  { apply Forall_fmap. eapply Forall_impl; [exact Hall|]. intros y Hy.
    by destruct (csv_row_columns y Hy) as (_ & _ & ?). }
  assert (Hne : ∀ y, writable y → csv_row y ≠ EmptyString).
  { intros y Hy E. destruct (csv_row_parses y Hy) as [Hu _]. by rewrite E in Hu. }
  assert (Hrows : ∀ ys, Forall writable ys →
            parse_rows (getlines newline (String.concat (String newline EmptyString)
                                            (csv_row <$> ys)))
            = Ok (record_of <$> ys)).
  { intros ys Hys. rewrite <-parse_rows_nonempty.
    change (filter _ (getlines newline ?s)) with (split s newline).
    rewrite split_join, parse_rows_nonempty; [by apply csv_rows_parse|].
    apply Forall_fmap. eapply Forall_impl; [exact Hys|]. intros y Hy.
    by destruct (csv_row_columns y Hy) as (_ & _ & ?). }
  assert (Hfirst : getline newline content
                   = Some (csv_row x, String.concat (String newline EmptyString)
                                        (csv_row <$> xs))).
  { unfold content. rewrite fmap_cons. apply Forall_cons in Hnl as [Hnx _].
    unfold getline.
    destruct (String.concat _ (csv_row x :: (csv_row <$> xs))) as [|c r] eqn:E.
    { by destruct (String_concat_nonempty (String newline EmptyString) (csv_row x)
                    (csv_row <$> xs) (Hne x Hx)). }
    rewrite <-E. f_equal. destruct xs as [|y ys].
    - cbn [fmap list_fmap String.concat]. by apply read_until_whole.
    - rewrite fmap_cons.
      change (String.concat (String newline EmptyString) (csv_row x :: csv_row y :: _))
        with (csv_row x +:+ String newline
                (String.concat (String newline EmptyString) (csv_row y :: (csv_row <$> ys)))).
      by apply read_until_field. }
  unfold load_dataset, data_part. fold content. rewrite Hfirst, csv_row_head by done.
  destruct (starts_with_digit (Entry.id x)); cbn [negb].
  - unfold content. rewrite (Hrows (x :: xs) Hall). done.
  - rewrite (Hrows xs Hxs). by destruct xs.
Qed.

Lemma load_headerless_dataset_witness :
  load_dataset (Some "1,cat;dance,100,10,1
2,dog,-5,0,7") = Loaded (record_of <$> two_rows).
Proof.
  apply (load_headerless_dataset (Entry.mk "1" ["cat"; "dance"] 100 10 1)
           [Entry.mk "2" ["dog"] (-5) 0 7]).
  repeat constructor; try discriminate; vm_compute; discriminate.
Defined.

(** ** Lines that end in a carriage return *)

Lemma digits_value_append s t acc :
  starts_with_digit t = false → digits_value (s +:+ t) acc = digits_value s acc.
Proof.
  intros Ht. revert acc. induction s as [|c s IH]; intros acc.
  - by apply digits_value_stop.
  - change (String c s +:+ t) with (String c (s +:+ t)). cbn [digits_value].
    by rewrite IH.
Qed.

Lemma starts_with_digit_append s t :
  starts_with_digit t = false → starts_with_digit (s +:+ t) = starts_with_digit s.
Proof. intros Ht. by destruct s. Qed.

Lemma skip_space_cr s :
  skip_space (s +:+ carriage_return)
  = match skip_space s with
    | EmptyString => EmptyString
    | String c r => String c r +:+ carriage_return
    end.
Proof.
  induction s as [|c s IH]; [done|].
  change (String c s +:+ carriage_return) with (String c (s +:+ carriage_return)).
  cbn [skip_space]. by destruct (isspace c).
Qed.

Lemma stoll_cr s : stoll (s +:+ carriage_return) = stoll s.
Proof.
  unfold stoll. rewrite skip_space_cr.
  destruct (skip_space s) as [|c r]; [done|].
  change (String c r +:+ carriage_return) with (String c (r +:+ carriage_return)).
  assert (Hd : ∀ u, starts_with_digit (u +:+ carriage_return) = starts_with_digit u
                    ∧ digits_value (u +:+ carriage_return) 0 = digits_value u 0).
  { intros u. by rewrite starts_with_digit_append, digits_value_append. }
  destruct (Ascii.eqb_spec c "-") as [->|Hm].
  { destruct (Hd r) as [-> ->]. done. }
  destruct (Ascii.eqb_spec c "+") as [->|Hp].
  { destruct (Hd r) as [-> ->]. done. }
  destruct (Hd (String c r)) as [H1 H2].
  change (String c r +:+ carriage_return) with (String c (r +:+ carriage_return)) in H1, H2.
  assert (Hsign : ∀ u, match String c u with
                       | String "-"%char r0 => (true, r0)
                       | String "+"%char r0 => (false, r0)
                       | _ => (false, String c u)
                       end = (false, String c u)).
  { intros u. destruct c as [[] [] [] [] [] [] [] []]; done. }
  by rewrite !Hsign, H1, H2.
Qed.

Lemma fields_append delim s t :
  contains delim t = false →
  ∃ init last, fields delim s = init ++ [last]
               ∧ fields delim (s +:+ t) = init ++ [last +:+ t].
Proof.
  intros Ht. induction s as [|c s (init & last & IH1 & IH2)].
  - exists [], EmptyString. split; [done|].
    change (EmptyString +:+ t) with t. clear -Ht.
    induction t as [|c t IH]; [done|]. cbn [contains] in Ht.
    apply orb_false_iff in Ht as [Hc Ht]. cbn [fields]. rewrite Hc, (IH Ht). done.
  - change (String c s +:+ t) with (String c (s +:+ t)). cbn [fields].
    rewrite IH1, IH2. destruct (Ascii.eqb c delim).
    + by exists (EmptyString :: init), last.
    + destruct init as [|f init]; [by exists [], (String c last)|].
      by exists (String c f :: init), last.
Qed.

Lemma append_nonempty_r s t : t ≠ EmptyString → s +:+ t ≠ EmptyString.
Proof. intros Ht. destruct s; [done|]. done. Qed.

Lemma parse_row_fifth c0 c1 c2 c3 c4 c4' more more' :
  stoll c4' = stoll c4 →
  parse_row (c0 :: c1 :: c2 :: c3 :: c4' :: more') = parse_row (c0 :: c1 :: c2 :: c3 :: c4 :: more).
Proof. intros E. unfold parse_row, at_index. cbn [lookup list_lookup mbind res_bind]. by rewrite E. Qed.

(** X18. A carriage return at the end of a row with at least five columns,
    as in a file with CRLF line ends, does not change what the row loads
    as. *)
Theorem carriage_return_ignored (before after : list string) (line : string) :
  usable line = true →
  parse_rows (before ++ (line +:+ carriage_return) :: after)
  = parse_rows (before ++ line :: after).
Proof.
  intros Hu. pose proof Hu as [Hne Hlen]%usable_spec.
  destruct (fields_append ","%char line carriage_return eq_refl)
    as (init & last & Hf & Hf').
  set (cols := filter (λ buf, buf ≠ EmptyString) init).
  assert (Hs : split line ","%char
               = cols ++ filter (λ buf, buf ≠ EmptyString) [last]).
  { by rewrite split_fields, Hf, filter_app. }
  assert (Hs' : split (line +:+ carriage_return) ","%char
                = cols ++ [last +:+ carriage_return]).
  { rewrite split_fields, Hf', filter_app, filter_cons, decide_True; [done|].
    by apply append_nonempty_r. }
  assert (Hrow : parse_row (split (line +:+ carriage_return) ","%char)
                 = parse_row (split line ","%char)
                 ∧ (5 ≤ length (split (line +:+ carriage_return) ","%char))%nat).
  { rewrite Hs, Hs' in *. rewrite filter_cons in *.
    destruct (decide (last ≠ EmptyString)) as [Hl|Hl].
    - rewrite !length_app in *. cbn [length filter list_filter] in *. split; [|lia].
      destruct (decide (5 ≤ length cols)%nat).
      + by rewrite !parse_row_more.
      + destruct cols as [|c0 [|c1 [|c2 [|c3 [|c4 cols]]]]]; cbn in Hlen, n; try lia.
        cbn [app]. apply parse_row_fifth, stoll_cr.
    - rewrite filter_nil, app_nil_r in *. rewrite length_app. split; [|lia].
      by rewrite parse_row_more. }
  destruct Hrow as [Hrow Hlen'].
  assert (Hu' : usable (line +:+ carriage_return) = true).
  { apply usable_spec. split; [by apply append_nonempty_r|done]. }
  by rewrite !parse_rows_app, !parse_rows_cons_usable, Hrow.
Qed.

Lemma carriage_return_ignored_witness :
  parse_rows ["1,cat,10,20,30" +:+ carriage_return] = parse_rows ["1,cat,10,20,30"%string].
Proof. apply (carriage_return_ignored [] [] "1,cat,10,20,30"). reflexivity. Defined.

(** ** The distance as a function of two sizes *)

(** X19. The loop of the distance counts the common tags, and the size of
    the union is got from the three sizes at hand: the distance of two sets
    that are not both empty is 1 minus the quotient of the size of the
    intersection by the size of the union, each operation in [float]. *)
Theorem jaccard_by_sizes (A B : gset string) :
  (Z.of_nat (size (A ∪ B)) < SIZE_MOD)%Z → A ∪ B ≠ ∅ →
  intersection_size A B = Z.of_nat (size (A ∩ B))
  ∧ wrap_size (Z.of_nat (size A) + Z.of_nat (size B) - intersection_size A B)
    = Z.of_nat (size (A ∪ B))
  ∧ jaccard A B
    = fsub f_one (fdiv (float_of_size (Z.of_nat (size (A ∩ B))))
                       (float_of_size (Z.of_nat (size (A ∪ B))))).
Proof.
  intros Hfit Hne.
  assert (A ∩ B ⊆ A ∪ B) as Hs%subseteq_size by (clear; set_solver).
  assert (Hi : intersection_size A B = Z.of_nat (size (A ∩ B))).
  { rewrite intersection_size_spec. unfold wrap_size. apply Z.mod_small. lia. }
  split_and!; [done| |].
  - rewrite Hi, union_size. unfold wrap_size. apply Z.mod_small. lia.
  - rewrite jaccard_unfold; [done..|]. intros [-> ->]. apply Hne. set_solver.
Qed.

Lemma jaccard_by_sizes_witness :
  intersection_size {["cat"%string]} {["cat"%string; "dance"%string]}
  = Z.of_nat (size (({["cat"%string]} : gset string) ∩ {["cat"%string; "dance"%string]}))
  ∧ wrap_size (Z.of_nat (size ({["cat"%string]} : gset string))
               + Z.of_nat (size ({["cat"%string; "dance"%string]} : gset string))
               - intersection_size {["cat"%string]} {["cat"%string; "dance"%string]})
    = Z.of_nat (size (({["cat"%string]} : gset string) ∪ {["cat"%string; "dance"%string]}))
  ∧ jaccard {["cat"%string]} {["cat"%string; "dance"%string]}
    = fsub f_one
        (fdiv (float_of_size
                 (Z.of_nat (size (({["cat"%string]} : gset string)
                                  ∩ {["cat"%string; "dance"%string]}))))
              (float_of_size
                 (Z.of_nat (size (({["cat"%string]} : gset string)
                                  ∪ {["cat"%string; "dance"%string]}))))).
Proof.
  apply (jaccard_by_sizes {["cat"%string]} {["cat"%string; "dance"%string]}).
  - by vm_compute.
  - intros E. apply (f_equal size) in E. by vm_compute in E.
Defined.

(** ** The order of the distances

    Each of the two roundings of the distance is to the nearest float and
    so monotone; on sizes that convert exactly the distance falls when the
    exact quotient of the sizes grows. *)

Section order.
Local Open Scope Z_scope.

Ltac ratio_cases :=
  repeat match goal with |- context [Z.ltb ?a ?b] => destruct (Z.ltb_spec a b) end;
  repeat match goal with |- context [Z.even ?a] => destruct (Z.even a) end.

Lemma rne_ratio_bounds N D : N / D ≤ rne_ratio N D ≤ N / D + 1.
Proof. unfold rne_ratio. ratio_cases; lia. Qed.

Lemma rne_ratio_mono N D N' D' :
  0 < D → 0 < D' → 0 ≤ N → N * D' ≤ N' * D → rne_ratio N D ≤ rne_ratio N' D'.
Proof.
  intros HD HD' HN Hle. unfold rne_ratio.
  pose proof (Z.div_mod N D ltac:(lia)) as E. pose proof (Z.mod_pos_bound N D HD) as B.
  pose proof (Z.div_mod N' D' ltac:(lia)) as E'. pose proof (Z.mod_pos_bound N' D' HD') as B'.
  set (q := N / D) in *. set (r := N mod D) in *.
  set (q' := N' / D') in *. set (r' := N' mod D') in *.
  clearbody q r q' r'.
  assert (Hq : q ≤ q').
  { destruct (decide (q ≤ q')); [done|]. assert (q' + 1 ≤ q) by lia.
    assert (D * D' * (q' + 1) ≤ D * D' * q) by (apply Z.mul_le_mono_nonneg_l; nia).
    assert (D * q * D' ≤ N * D') by nia.
    assert (N' * D < D * D' * (q' + 1)) by nia. lia. }
  destruct (decide (q = q')) as [<-|Hne].
  - assert (Hr : r * D' ≤ r' * D) by nia.
    destruct (Z.ltb_spec (2 * r) D), (Z.ltb_spec (2 * r') D'),
             (Z.ltb_spec D (2 * r)), (Z.ltb_spec D' (2 * r')),
             (Z.even q); try lia; nia.
  - ratio_cases; lia.
Qed.

Lemma rne_rne_ratio m N : rne m N = rne_ratio m (2 ^ N).
Proof. done. Qed.

Lemma rne_ratio_exact N : rne_ratio N 1 = N.
Proof. unfold rne_ratio. rewrite Z.mod_1_r, Z.div_1_r. done. Qed.

Lemma SFleb_finite m e m' e' :
  SFleb (S754_finite false m e) (S754_finite false m' e') = true
  ↔ e < e' ∨ (e = e' ∧ (m ≤ m')%positive).
Proof.
  unfold SFleb, SFcompare.
  change (Pos.compare_cont Eq m m') with (Pos.compare m m').
  destruct (Z.compare_spec e e') as [->|Hlt|Hgt].
  - destruct (Pos.compare_spec m m'); split; intros H'; try done;
      try (right; split; [done|lia]).
    destruct H' as [?|[_ ?]]; lia.
  - split; [by left|done].
  - split; [done|]. intros [?|[? _]]; lia.
Qed.

Lemma float_at_le b mr b' mr' :
  2 ^ 23 ≤ mr ≤ 2 ^ 24 → 2 ^ 23 ≤ mr' ≤ 2 ^ 24 →
  b < b' ∨ (b = b' ∧ mr ≤ mr') →
  SFleb (float_at b mr) (float_at b' mr') = true.
Proof.
  intros Hm Hm' Hle. unfold float_at.
  change (2 ^ 24) with 16777216 in *. change (2 ^ 23) with 8388608 in *.
  change (2 ^ 23)%positive with 8388608%positive.
  assert (Hpos : ∀ a c, 0 < a → a ≤ c → (Z.to_pos a ≤ Z.to_pos c)%positive).
  { intros [|a|a] [|c|c] Ha Hac; lia. }
  destruct (Z.eqb_spec mr 16777216), (Z.eqb_spec mr' 16777216); apply SFleb_finite.
  - destruct Hle as [?|[-> ?]]; [left; lia|right; split; [done|lia]].
  - destruct Hle as [?|[-> ?]]; [|lia].
    destruct (decide (b + 1 < b')); [by left|right]. split; [lia|].
    apply (Hpos 8388608 mr'); lia.
  - left. lia.
  - destruct Hle as [?|[-> ?]]; [by left|right]. split; [done|]. apply Hpos; lia.
Qed.

Lemma float_at_finite b mr :
  2 ^ 23 ≤ mr ≤ 2 ^ 24 →
  ∃ m e, float_at b mr = S754_finite false m e ∧ 2 ^ 23 ≤ Z.pos m < 2 ^ 24
         ∧ b ≤ e ≤ b + 1.
Proof.
  intros Hm. unfold float_at. change (2 ^ 24) with 16777216 in *.
  change (2 ^ 23) with 8388608 in *. change (2 ^ 23)%positive with 8388608%positive.
  destruct (Z.eqb_spec mr 16777216); eexists _, _; (split; [done|]).
  - lia.
  - rewrite Z2Pos.id by lia. lia.
Qed.

Lemma rounding_mantissa N D :
  0 < D → 2 ^ 23 * D ≤ N < 2 ^ 24 * D → 2 ^ 23 ≤ rne_ratio N D ≤ 2 ^ 24.
Proof.
  intros HD HN. pose proof (rne_ratio_bounds N D).
  assert (2 ^ 23 ≤ N / D) by (apply Z.div_le_lower_bound; lia).
  assert (N / D < 2 ^ 24) by (apply Z.div_lt_upper_bound; lia). lia.
Qed.

(** Rounding to nearest is monotone. *)
Lemma rounding_of_le x p q x' p' q' :
  rounding_of x p q → rounding_of x' p' q' →
  0 < p → 0 < q → 0 < p' → 0 < q' → p * q' ≤ p' * q →
  SFleb x x' = true.
Proof.
  intros (b & N & D & Hb & HD & HN & Hv & ->) (b' & N' & D' & Hb' & HD' & HN' & Hv' & ->).
  intros Hp Hq Hp' Hq' Hle.
  pose proof (rounding_mantissa N D HD HN) as Hm.
  pose proof (rounding_mantissa N' D' HD' HN') as Hm'.
  set (P := 2 ^ (b + 200)) in *. set (P' := 2 ^ (b' + 200)) in *. set (T := 2 ^ 200) in *.
  assert (HP : 0 < P) by (apply Z.pow_pos_nonneg; lia).
  assert (HP' : 0 < P') by (apply Z.pow_pos_nonneg; lia).
  assert (HT : 0 < T) by (apply Z.pow_pos_nonneg; lia).
  assert (Hcross : N * P * D' ≤ N' * P' * D).
  { assert (0 < q * q' * T) by (repeat apply Z.mul_pos_pos; lia).
    apply (Z.mul_le_mono_pos_r _ _ (q * q' * T)); [done|].
    replace (N * P * D' * (q * q' * T)) with ((N * P * q) * (D' * q' * T)) by ring.
    replace (N' * P' * D * (q * q' * T)) with ((N' * P' * q') * (D * q * T)) by ring.
    rewrite Hv, Hv'.
    replace (D * p * T * (D' * q' * T)) with ((D * D' * T * T) * (p * q')) by ring.
    replace (D' * p' * T * (D * q * T)) with ((D * D' * T * T) * (p' * q)) by ring.
    apply Z.mul_le_mono_nonneg_l; [|done]. repeat apply Z.mul_nonneg_nonneg; lia. }
  apply float_at_le; [done..|].
  destruct (Z.lt_trichotomy b b') as [?|[<-|Hgt]]; [by left| |].
  - right. split; [done|]. apply rne_ratio_mono; [lia..|].
    apply (Z.mul_le_mono_pos_r _ _ P); [done|]. lia.
  - exfalso. assert (2 * P' ≤ P) by (apply pow2_double_le; lia).
    change (2 ^ 23) with 8388608 in *. change (2 ^ 24) with 16777216 in *.
    assert (8388608 * D * (2 * P') * D' ≤ N * P * D').
    { apply Z.mul_le_mono_nonneg_r; [lia|].
      transitivity (N * (2 * P')); [apply Z.mul_le_mono_nonneg_r; lia|].
      apply Z.mul_le_mono_nonneg_l; lia. }
    assert (N' * P' * D < 16777216 * D' * P' * D).
    { apply Z.mul_lt_mono_pos_r; [done|]. apply Z.mul_lt_mono_pos_r; [done|]. lia. }
    nia.
Qed.

(** *** The two roundings of the distance are to nearest *)

Lemma shr_nat mrs e n :
  0 ≤ n → shr mrs e n = (Nat.iter (Z.to_nat n) shr_1 mrs, e + n).
Proof.
  intros Hn. destruct n as [|p|p]; [|cbn [shr]|lia].
  - cbn. by rewrite Z.add_0_r.
  - by rewrite iter_pos_nat.
Qed.

Lemma binary_round_aux_iter mx ex lx :
  0 < mx → 24 ≤ Zdigits2 mx → -149 ≤ Zdigits2 mx + ex - 24 ≤ 103 →
  binary_round_aux prec emax false mx ex lx
  = float_at (ex + (Zdigits2 mx - 24))
      (let mrs := Nat.iter (Z.to_nat (Zdigits2 mx - 24)) shr_1 (shr_record_of_loc mx lx) in
       round_nearest_even (shr_m mrs) (loc_of_shr_record mrs)).
Proof.
  intros Hm Hd He. set (n := Zdigits2 mx - 24) in *.
  pose proof (Zdigits2_bounds mx Hm) as Hb.
  assert (Hq : 2 ^ 23 ≤ mx / 2 ^ n < 2 ^ 24).
  { assert (2 ^ 23 * 2 ^ n ≤ mx < 2 ^ 24 * 2 ^ n).
    { rewrite <-!Z.pow_add_r by lia.
      replace (23 + n) with (Zdigits2 mx - 1) by lia.
      by replace (24 + n) with (Zdigits2 mx) by lia. }
    assert (0 < 2 ^ n) by (apply Z.pow_pos_nonneg; lia).
    split; [apply Z.div_le_lower_bound; lia|apply Z.div_lt_upper_bound; lia]. }
  unfold binary_round_aux, shr_fexp, fexp, emin, prec, emax.
  replace (Z.max (Zdigits2 mx + ex - 24) (3 - 128 - 24) - ex) with n by lia.
  rewrite shr_nat by lia.
  assert (Hrec : ∃ r s, shr_record_of_loc mx lx = Build_shr_record mx r s).
  { destruct lx as [|[]]; by eexists _, _. }
  destruct Hrec as (r & s & ->).
  destruct (shr_iter (Z.to_nat n) mx r s ltac:(lia)) as (m' & r' & s' & -> & Hm' & _).
  rewrite Z2Nat.id in Hm' by lia. cbn [shr_m].
  pose proof (round_nearest_even_spec m' r' s') as [Hr1 _]. cbn zeta in Hr1.
  set (mr := round_nearest_even m' _) in *. clearbody mr. subst m'.
  unfold float_at.
  destruct (Z.eqb_spec mr (2 ^ 24)) as [->|Hne].
  - change (Zdigits2 (2 ^ 24)) with 25.
    replace (Z.max (25 + (ex + n) - 24) (3 - 128 - 24) - (ex + n)) with 1 by lia.
    cbn. destruct (Z.leb_spec (ex + n + 1) (128 - 24)); [done|lia].
  - assert (Zdigits2 mr = 24) as -> by (apply Zdigits2_unique; lia).
    replace (Z.max (24 + (ex + n) - 24) (3 - 128 - 24) - (ex + n)) with 0 by lia.
    cbn. destruct mr as [|p|p]; try lia. cbn.
    destruct (Z.leb_spec (ex + n) (128 - 24)); [done|lia].
Qed.

Lemma new_location_spec mu rem :
  0 < mu → 0 ≤ rem < mu →
  new_location mu rem
  = if rem =? 0 then loc_Exact else loc_Inexact (2 * rem ?= mu).
Proof.
  intros Hmu Hrem. unfold new_location.
  destruct (Z.even mu) eqn:Heven; unfold new_location_even, new_location_odd;
    destruct (Z.eqb_spec rem 0) as [->|Hne]; try done.
  assert (Hodd : Z.odd mu = true) by (by rewrite <-Z.negb_even, Heven).
  apply Z.odd_spec in Hodd as [k Hk].
  destruct (Z.compare_spec (2 * rem + 1) mu), (Z.compare_spec (2 * rem) mu); (done || lia).
Qed.

Lemma round_nearest_even_ratio0 q0 mu rem :
  0 < mu → 0 ≤ rem < mu →
  round_nearest_even q0
    (loc_of_shr_record (shr_record_of_loc q0 (new_location mu rem)))
  = rne_ratio (q0 * mu + rem) mu.
Proof.
  intros Hmu Hrem. rewrite new_location_spec by done. unfold rne_ratio.
  rewrite Z.div_add_l, Z.div_small, Z.add_0_r by lia.
  rewrite Z.add_comm, Z.mod_add, Z.mod_small by lia.
  destruct (Z.eqb_spec rem 0) as [->|Hne].
  { change (2 * 0) with 0. by destruct (Z.ltb_spec 0 mu); [|lia]. }
  destruct (Z.compare_spec (2 * rem) mu);
    cbn [round_nearest_even loc_of_shr_record shr_record_of_loc shr_r shr_s];
    destruct (Z.ltb_spec (2 * rem) mu), (Z.ltb_spec mu (2 * rem)); (done || lia).
Qed.

Lemma round_nearest_even_ratio1 q0 mu rem :
  0 < mu → 0 ≤ rem < mu → 0 ≤ q0 →
  (let mrs := shr_1 (shr_record_of_loc q0 (new_location mu rem)) in
   round_nearest_even (shr_m mrs) (loc_of_shr_record mrs))
  = rne_ratio (q0 * mu + rem) (mu * 2 ^ 1).
Proof.
  intros Hmu Hrem Hq. rewrite new_location_spec by done. unfold rne_ratio.
  change (2 ^ 1) with 2.
  pose proof (Z.div_mod q0 2 ltac:(lia)) as E.
  pose proof (Z.mod_pos_bound q0 2 ltac:(lia)) as B.
  assert (Hdiv : (q0 * mu + rem) / (mu * 2) = q0 / 2).
  { symmetry. apply (Z.div_unique _ _ _ (mu * (q0 mod 2) + rem)); nia. }
  assert (Hmod : (q0 * mu + rem) mod (mu * 2) = mu * (q0 mod 2) + rem).
  { symmetry. apply (Z.mod_unique _ _ (q0 / 2)); nia. }
  rewrite Hdiv, Hmod.
  assert (Hrec : shr_record_of_loc q0
                   (if rem =? 0 then loc_Exact else loc_Inexact (2 * rem ?= mu))
                 = Build_shr_record q0
                     (if rem =? 0 then false
                      else match 2 * rem ?= mu with Lt => false | _ => true end)
                     (if rem =? 0 then false
                      else match 2 * rem ?= mu with Eq => false | _ => true end)).
  { destruct (rem =? 0); [done|]. by destruct (2 * rem ?= mu). }
  rewrite Hrec, shr_1_spec by done. cbn zeta. cbn [shr_m].
  rewrite (Zodd_mod q0).
  destruct (Z.eqb_spec (q0 mod 2) 1) as [Hodd|Hodd];
    destruct (Z.eqb_spec rem 0) as [->|Hne];
    try destruct (Z.compare_spec (2 * rem) mu);
    cbn [round_nearest_even loc_of_shr_record shr_r shr_s orb];
    repeat match goal with |- context [Z.ltb ?a ?b] => destruct (Z.ltb_spec a b) end;
    try done; try lia; try nia.
Qed.

Lemma fdiv_rounding x y i u :
  represents x i → represents y u → 1 ≤ i → 1 ≤ u → rounding_of (fdiv x y) i u.
Proof.
  intros (mi & ei & -> & Hdi & Hei & Hi) (mu & eu & -> & Hdu & Heu & Hu) Hi1 Hu1.
  rewrite SFdiv_finite by (done || lia).
  pose proof (Zdigits2_bounds (Z.pos mi) ltac:(lia)) as Hbi.
  pose proof (Zdigits2_bounds (Z.pos mu) ltac:(lia)) as Hbu.
  rewrite Hdi in Hbi. rewrite Hdu in Hbu.
  change (2 ^ (24 - 1)) with 8388608 in *. change (2 ^ 24) with 16777216 in *.
  change (2 ^ 23) with 8388608 in *.
  set (q0 := Z.pos mi * 16777216 / Z.pos mu).
  set (rem := (Z.pos mi * 16777216) mod Z.pos mu).
  assert (Hqr : Z.pos mi * 16777216 = q0 * Z.pos mu + rem ∧ 0 ≤ rem < Z.pos mu).
  { split; [|apply Z.mod_pos_bound; lia].
    pose proof (Z.div_mod (Z.pos mi * 16777216) (Z.pos mu) ltac:(lia)). unfold q0, rem. lia. }
  destruct Hqr as [Hqr Hrem].
  assert (Hq : 8388608 ≤ q0 < 33554432) by nia.
  set (A := 2 ^ (ei + 23)) in *. set (C := 2 ^ (eu + 23)) in *.
  assert (HA : 0 < A) by (apply Z.pow_pos_nonneg; lia).
  assert (HC : 0 < C) by (apply Z.pow_pos_nonneg; lia).
  assert (Hval : ∀ n, 0 ≤ n ≤ 1 →
            Z.pos mi * 16777216 * 2 ^ (ei - eu - 24 + n + 200) * u
            = Z.pos mu * 2 ^ n * i * 2 ^ 200).
  { intros n Hn. apply (Z.mul_cancel_r _ _ 8388608); [lia|].
    replace (Z.pos mi * 16777216 * 2 ^ (ei - eu - 24 + n + 200) * u * 8388608)
      with (Z.pos mi * 16777216 * 2 ^ (ei - eu - 24 + n + 200) * (u * 8388608)) by ring.
    replace (Z.pos mu * 2 ^ n * i * 2 ^ 200 * 8388608)
      with (Z.pos mu * 2 ^ n * 2 ^ 200 * (i * 8388608)) by ring.
    rewrite <-Hi, <-Hu.
    assert (Hpow : 16777216 * 2 ^ (ei - eu - 24 + n + 200) * C = 2 ^ n * 2 ^ 200 * A).
    { unfold A, C. change 16777216 with (2 ^ 24).
      rewrite <-!Z.pow_add_r by lia. f_equal. lia. }
    replace (Z.pos mi * 16777216 * 2 ^ (ei - eu - 24 + n + 200) * (Z.pos mu * C))
      with (Z.pos mi * Z.pos mu * (16777216 * 2 ^ (ei - eu - 24 + n + 200) * C)) by ring.
    rewrite Hpow. ring. }
  destruct (decide (Z.pos mi < Z.pos mu)) as [Hcmp|Hcmp].
  - assert (Hdq : Zdigits2 q0 = 24) by (apply Zdigits2_unique; [cbn|]; nia).
    rewrite binary_round_aux_iter by lia.
    rewrite Hdq, Z.sub_diag. change (Z.to_nat 0) with 0%nat. cbn zeta.
    unfold Nat.iter. cbn [nat_rect].
    rewrite shr_record_of_loc_m, round_nearest_even_ratio0, <-Hqr by lia.
    exists (ei - eu - 24 + 0), (Z.pos mi * 16777216), (Z.pos mu).
    split_and!; [lia|lia|lia|nia|nia| |done].
    specialize (Hval 0 ltac:(lia)). rewrite Z.pow_0_r, Z.mul_1_r in Hval. exact Hval.
  - assert (Hdq : Zdigits2 q0 = 25) by (apply Zdigits2_unique; [cbn|]; nia).
    rewrite binary_round_aux_iter by lia.
    rewrite Hdq. change (Z.to_nat (25 - 24)) with 1%nat.
    unfold Nat.iter. cbn [nat_rect].
    rewrite round_nearest_even_ratio1, <-Hqr by lia.
    exists (ei - eu - 24 + (25 - 24)), (Z.pos mi * 16777216), (Z.pos mu * 2 ^ 1).
    change (25 - 24) with 1. change (2 ^ 1) with 2.
    split_and!; [lia|lia|lia|nia|nia| |done].
    specialize (Hval 1 ltac:(lia)). change (2 ^ 1) with 2 in Hval. exact Hval.
Qed.

Lemma fsub_rounding m e :
  Zdigits2 (Z.pos m) = 24 → -88 ≤ e ≤ -24 →
  rounding_of (fsub f_one (S754_finite false m e)) (2 ^ (- e) - Z.pos m) (2 ^ (- e)).
Proof.
  intros Hd He. unfold fsub, SFsub, f_one.
  replace (Z.min (-23) e) with e by lia.
  destruct (shl_align_spec 8388608 (-23) e) as (m1 & -> & Hm1).
  destruct (shl_align_spec m e e) as (m2 & -> & Hm2).
  replace (Z.min (-23) e) with e in * by lia.
  rewrite Z.min_id, Z.sub_diag, Z.pow_0_r, Z.mul_1_r in Hm2.
  cbn [fst cond_Zopp]. rewrite Hm1, Hm2.
  change (Z.pos 8388608) with (2 ^ 23). rewrite <-Z.pow_add_r by lia.
  replace (23 + (-23 - e)) with (- e) by lia.
  pose proof (Zdigits2_bounds (Z.pos m) ltac:(lia)) as Hb. rewrite Hd in Hb.
  change (2 ^ (24 - 1)) with (2 ^ 23) in Hb.
  assert (2 ^ 24 ≤ 2 ^ (- e)) by (apply pow2_le; lia).
  set (M := 2 ^ (- e) - Z.pos m).
  assert (HM : 0 < M < 2 ^ (- e)) by lia.
  destruct M as [|p|p] eqn:EM; try lia. cbn [binary_normalize].
  pose proof (Zdigits2_bounds (Z.pos p) ltac:(lia)) as Hbp.
  set (d := Zdigits2 (Z.pos p)) in *.
  assert (1 ≤ d) by (subst d; cbn; lia).
  assert (Hde : d ≤ - e).
  { destruct (decide (d ≤ - e)); [done|].
    assert (2 ^ (- e) ≤ 2 ^ (d - 1)) by (apply pow2_le; lia). lia. }
  destruct (binary_round_spec false p e) as [Hsmall Hlarge]; [fold d; lia|].
  destruct (decide (d ≤ 24)) as [Hd24|Hd24].
  - rewrite Hsmall by done. fold d.
    assert (HP : 0 < 2 ^ (24 - d)) by (apply Z.pow_pos_nonneg; lia).
    assert (Hbnd : 2 ^ 23 ≤ Z.pos p * 2 ^ (24 - d) < 2 ^ 24).
    { assert (E1 : 2 ^ 23 = 2 ^ (d - 1) * 2 ^ (24 - d)).
      { rewrite <-Z.pow_add_r by lia. f_equal. lia. }
      assert (E2 : 2 ^ 24 = 2 ^ d * 2 ^ (24 - d)).
      { rewrite <-Z.pow_add_r by lia. f_equal. lia. }
      rewrite E1, E2. split; [apply Z.mul_le_mono_nonneg_r; lia|].
      apply Z.mul_lt_mono_pos_r; lia. }
    exists (d + e - 24), (Z.pos p * 2 ^ (24 - d)), 1.
    split_and!; [lia|lia|lia|lia|lia| |].
    + replace (Z.pos p * 2 ^ (24 - d) * 2 ^ (d + e - 24 + 200) * 2 ^ (- e))
        with (Z.pos p * (2 ^ (24 - d) * 2 ^ (d + e - 24 + 200) * 2 ^ (- e))) by ring.
      rewrite <-!Z.pow_add_r by lia.
      replace (24 - d + (d + e - 24 + 200) + - e) with 200 by lia. ring.
    + rewrite rne_ratio_exact. unfold float_at.
      by destruct (Z.eqb_spec (Z.pos p * 2 ^ (24 - d)) (2 ^ 24)); [lia|].
  - rewrite Hlarge, binary_round_aux_exact by (fold d; lia). fold d.
    assert (HP : 0 < 2 ^ (d - 24)) by (apply Z.pow_pos_nonneg; lia).
    exists (e + (d - 24)), (Z.pos p), (2 ^ (d - 24)).
    split_and!; [lia|lia|done| | | |done].
    + rewrite <-Z.pow_add_r by lia. replace (23 + (d - 24)) with (d - 1) by lia.
      apply Hbp.
    + rewrite <-Z.pow_add_r by lia. replace (24 + (d - 24)) with d by lia.
      apply Hbp.
    + replace (Z.pos p * 2 ^ (e + (d - 24) + 200) * 2 ^ (- e))
        with (Z.pos p * (2 ^ (e + (d - 24) + 200) * 2 ^ (- e))) by ring.
      rewrite <-!Z.pow_add_r by lia.
      replace (e + (d - 24) + 200 + - e) with (d - 24 + 200) by lia.
      rewrite Z.pow_add_r by lia. ring.
Qed.

(** The distance computed from the sizes falls when the quotient of the
    sizes grows. *)
Lemma jaccard_value_antitone i u i' u' :
  1 ≤ u ≤ 2 ^ 24 → 1 ≤ u' ≤ 2 ^ 24 → 0 ≤ i ≤ u → 0 ≤ i' ≤ u' →
  i * u' ≤ i' * u →
  SFleb (jaccard_value i' u') (jaccard_value i u) = true.
Proof.
  intros Hu Hu' Hi Hi' Hle.
  assert (Hfit : 2 ^ 24 < 2 ^ 64) by done.
  destruct (decide (i = 0)) as [->|Hi0].
  { rewrite (jaccard_value_disjoint u) by done.
    apply jaccard_value_unit; lia. }
  destruct (decide (i' = u')) as [->|Hiu'].
  { rewrite (jaccard_value_same u') by lia.
    apply jaccard_value_unit; lia. }
  assert (1 ≤ i') by nia. assert (i < u) by nia.
  pose proof (float_of_size_exact i ltac:(lia)) as Px.
  pose proof (float_of_size_exact u ltac:(lia)) as Py.
  pose proof (float_of_size_exact i' ltac:(lia)) as Px'.
  pose proof (float_of_size_exact u' ltac:(lia)) as Py'.
  destruct (fdiv_unit _ _ i u Px Py) as (m & e & Hq & Hdm & He); [lia..|].
  destruct (fdiv_unit _ _ i' u' Px' Py') as (m' & e' & Hq' & Hdm' & He'); [lia..|].
  pose proof (fdiv_rounding _ _ i u Px Py ltac:(lia) ltac:(lia)) as Rq.
  pose proof (fdiv_rounding _ _ i' u' Px' Py' ltac:(lia) ltac:(lia)) as Rq'.
  rewrite Hq in Rq. rewrite Hq' in Rq'.
  pose proof (rounding_of_le _ i u _ i' u' Rq Rq'
                ltac:(lia) ltac:(lia) ltac:(lia) ltac:(lia) Hle) as Hord.
  apply SFleb_finite in Hord.
  unfold jaccard_value. rewrite Hq, Hq'.
  pose proof (Zdigits2_bounds (Z.pos m) ltac:(lia)) as Hb. rewrite Hdm in Hb.
  pose proof (Zdigits2_bounds (Z.pos m') ltac:(lia)) as Hb'. rewrite Hdm' in Hb'.
  change (2 ^ (24 - 1)) with 8388608 in *. change (2 ^ 24) with 16777216 in *.
  assert (HE : 16777216 ≤ 2 ^ (- e)).
  { change 16777216 with (2 ^ 24). apply pow2_le; lia. }
  assert (HE' : 16777216 ≤ 2 ^ (- e')).
  { change 16777216 with (2 ^ 24). apply pow2_le; lia. }
  apply (rounding_of_le _ (2 ^ (- e') - Z.pos m') (2 ^ (- e'))
                        _ (2 ^ (- e) - Z.pos m) (2 ^ (- e)));
    [apply fsub_rounding; (done || lia)..|lia|lia|lia|lia|].
  destruct Hord as [Hlt|[-> Hm]].
  - assert (2 * 2 ^ (- e') ≤ 2 ^ (- e)) by (apply pow2_double_le; lia).
    set (E := 2 ^ (- e)) in *. set (E' := 2 ^ (- e')) in *. nia.
  - set (E := 2 ^ (- e')) in *. nia.
Qed.

End order.

Lemma jaccard_overlap_le (Q X Y : gset string) :
  Q ≠ ∅ →
  (Z.of_nat (size (Q ∪ X)) ≤ 16777216)%Z → (Z.of_nat (size (Q ∪ Y)) ≤ 16777216)%Z →
  (Z.of_nat (size (Q ∩ X)) * Z.of_nat (size (Q ∪ Y))
   ≤ Z.of_nat (size (Q ∩ Y)) * Z.of_nat (size (Q ∪ X)))%Z →
  SFleb (jaccard Q Y) (jaccard Q X) = true.
Proof.
  intros HQ HX HY Hxy.
  assert (Hsize : ∀ Z : gset string,
            (1 ≤ Z.of_nat (size (Q ∪ Z)))%Z
            ∧ (0 ≤ Z.of_nat (size (Q ∩ Z)) ≤ Z.of_nat (size (Q ∪ Z)))%Z
            ∧ ¬ (Q = ∅ ∧ Z = ∅)).
  { intros Z.
    assert (Q ∩ Z ⊆ Q ∪ Z) as Hs%subseteq_size by (clear; set_solver).
    assert (size (Q ∪ Z) ≠ 0%nat).
    { rewrite size_non_empty_iff. intros E. apply HQ. clear -E. set_solver. }
    split_and!; [lia..|]. by intros [? _]. }
  destruct (Hsize X) as (HuX & HiX & HneX). destruct (Hsize Y) as (HuY & HiY & HneY).
  rewrite !jaccard_unfold by (done || (unfold SIZE_MOD; lia)).
  apply jaccard_value_antitone; (done || (change (2 ^ 24)%Z with 16777216%Z; lia)).
Qed.

(** X20. The distances order the records as their exact Jaccard similarities
    do: for a non-empty query and unions of at most 2^24 tags, a record that
    shares at least as large a fraction of the union with the query as
    another one is at most as far as that one, and two records that share
    the same fraction are at the same distance. *)
Theorem overlap_orders_distances (Q A B : gset string) :
  Q ≠ ∅ →
  (Z.of_nat (size (Q ∪ A)) ≤ 16777216)%Z →
  (Z.of_nat (size (Q ∪ B)) ≤ 16777216)%Z →
  (Z.of_nat (size (Q ∩ A)) * Z.of_nat (size (Q ∪ B))
   ≤ Z.of_nat (size (Q ∩ B)) * Z.of_nat (size (Q ∪ A)))%Z →
  SFleb (jaccard Q B) (jaccard Q A) = true
  ∧ ((Z.of_nat (size (Q ∩ A)) * Z.of_nat (size (Q ∪ B))
      = Z.of_nat (size (Q ∩ B)) * Z.of_nat (size (Q ∪ A)))%Z →
     SFeqb (jaccard Q A) (jaccard Q B) = true).
Proof.
  intros HQ HA HB Hle. split; [by apply jaccard_overlap_le|]. intros Heq.
  apply canon_SFeqb; [apply jaccard_not_nan; unfold SIZE_MOD; lia|].
  apply SFleb_antisym; apply jaccard_overlap_le; (done || lia).
Qed.

Lemma overlap_orders_distances_witness :
  SFleb (jaccard {["cat"%string]} {["cat"%string; "dance"%string]})
        (jaccard {["cat"%string]} {["dog"%string]}) = true.
Proof.
  apply (overlap_orders_distances {["cat"%string]} {["dog"%string]}
           {["cat"%string; "dance"%string]}).
  - intros E. apply (f_equal size) in E. by vm_compute in E.
  - vm_compute. discriminate.
  - vm_compute. discriminate.
  - vm_compute. discriminate.
Defined.

(** ** The selection and the exact similarity *)

Lemma SFleb_not_SFltb_SFeqb x y :
  SFleb x y = true → SFltb x y = false → SFeqb x y = true.
Proof.
  unfold SFleb, SFltb, SFeqb.
  destruct x as [[]|[]| |[] mx ex], y as [[]|[]| |[] my ey];
    cbn; try done; intros H1 H2; compare_cases.
Qed.

(** X21. The selection follows the exact Jaccard similarity up to the ties
    of [float]: for a non-empty query, records whose union with the query
    has at most 2^24 tags, at most [INT_MAX] of them and K >= 1, a record
    left out that shares a strictly larger fraction of tags with the query
    than a selected one is at the same [float] distance as that one. *)
Theorem selection_follows_similarity
    (alg : StdAlgorithm) (K : Z) (videos : list Rec.t) (Q : gset string) :
  Q ≠ ∅ →
  Forall (λ v, (Z.of_nat (size (Q ∪ Rec.tags v)) ≤ 16777216)%Z) videos →
  (1 ≤ K)%Z → (Z.of_nat (length videos) ≤ INT_MAX)%Z →
  ∃ top rest,
    selectTopK alg K (computeNeighbors videos Q) = Ok top
    ∧ top ++ rest ≡ₚ computeNeighbors videos Q
    ∧ ∀ a b va vb,
        a ∈ top → b ∈ rest →
        videos !! Node.idx a = Some va → videos !! Node.idx b = Some vb →
        (Z.of_nat (size (Q ∩ Rec.tags va)) * Z.of_nat (size (Q ∪ Rec.tags vb))
         < Z.of_nat (size (Q ∩ Rec.tags vb)) * Z.of_nat (size (Q ∪ Rec.tags va)))%Z →
        SFeqb (Node.dist b) (Node.dist a) = true.
Proof.
  intros HQ Hsmall HK HN. set (nbrs := computeNeighbors videos Q).
  assert (Hfit : sizes_fit videos Q).
  { eapply Forall_impl; [exact Hsmall|]. intros v Hv. cbn in Hv |- *. unfold SIZE_MOD. lia. }
  assert (Hnan : no_nan nbrs) by (by apply computeNeighbors_no_nan).
  assert (Hlen : length nbrs = length videos) by apply computeNeighbors_length.
  pose proof (clamp_min K (length nbrs) ltac:(lia)) as Hc.
  pose proof (select_ok alg K nbrs ltac:(lia)) as Hsel.
  set (K' := clamp K (length nbrs)) in *. set (v := std_sort alg _ _) in Hsel.
  destruct (select_spec alg K nbrs K' v Hnan Hsel) as (_ & _ & Hp & _ & Hpart).
  exists (take (Z.to_nat K') v), (drop (Z.to_nat K') v). split_and!.
  - unfold selectTopK. by rewrite Hsel.
  - by rewrite take_drop.
  - intros a b va vb Ha Hb Hva Hvb Hsim.
    assert (Hdist : ∀ n vn, n ∈ v → videos !! Node.idx n = Some vn →
              Node.dist n = jaccard Q (Rec.tags vn)
              ∧ (Z.of_nat (size (Q ∪ Rec.tags vn)) ≤ 16777216)%Z).
    { intros n vn Hn Hvn. rewrite Hp in Hn.
      apply computeNeighbors_elem in Hn as (v0 & Hv0 & ->).
      assert (v0 = vn) as -> by congruence. split; [done|].
      rewrite Forall_forall in Hsmall. apply Hsmall. by eapply list_elem_of_lookup_2. }
    destruct (Hdist a va) as [Hda Hsa]; [by apply (subseteq_take (Z.to_nat K') v)|done|].
    destruct (Hdist b vb) as [Hdb Hsb]; [by apply (subseteq_drop (Z.to_nat K') v)|done|].
    apply SFleb_not_SFltb_SFeqb; [|by apply (Hpart a b)].
    rewrite Hda, Hdb. apply jaccard_overlap_le; (done || lia).
Qed.

Lemma selection_follows_similarity_witness :
  ∃ top rest,
    selectTopK ref_alg 2 (computeNeighbors scenario {["cat"%string]}) = Ok top
    ∧ top ++ rest ≡ₚ computeNeighbors scenario {["cat"%string]}
    ∧ ∀ a b va vb,
        a ∈ top → b ∈ rest →
        scenario !! Node.idx a = Some va → scenario !! Node.idx b = Some vb →
        (Z.of_nat (size ({["cat"%string]} ∩ Rec.tags va))
         * Z.of_nat (size ({["cat"%string]} ∪ Rec.tags vb))
         < Z.of_nat (size ({["cat"%string]} ∩ Rec.tags vb))
           * Z.of_nat (size ({["cat"%string]} ∪ Rec.tags va)))%Z →
        SFeqb (Node.dist b) (Node.dist a) = true.
Proof.
  apply (selection_follows_similarity ref_alg 2 scenario {["cat"%string]}).
  - intros E. apply (f_equal size) in E. by vm_compute in E.
  - repeat constructor; vm_compute; discriminate.
  - lia.
  - vm_compute. discriminate.
Defined.

